(** * smart-doc: segmentation and retrieval-fusion core

    A shallow embedding of the chunkers ([src/core/chunkers]), the Markdown
    parser ([src/core/parsers]), the table extractor ([src/core/extractors])
    and the retrievers ([src/core/retrievers]), with the properties their
    specification states about them.

    Conventions.
    - A Python [str] whose characters are inspected is a list of Unicode
      code points ([pystr]); [len] is [length].
    - Dictionary keys are Rocq strings; dictionaries whose iteration order
      is observable are association lists, the others are [gmap]s.
    - Python [int] is [Z]. *)

From Stdlib Require Import ZArith NArith QArith Lia Ascii String Sorted.
From stdpp Require Import gmap strings list.

Open Scope Z_scope.

(** ** Python strings *)

Module Py.

Definition pystr := list N.

(** An ASCII literal of the source as a [pystr]. *)
Definition lit (s : string) : pystr := map N_of_ascii (list_ascii_of_string s).

(** [str.isspace] on one character ([Py_UNICODE_ISSPACE]); it is also what
    [str.strip()], [str.split()] and the regular expression class [\s] use. *)
Definition is_space (c : N) : bool :=
  ((9 <=? c) && (c <=? 13) || (28 <=? c) && (c <=? 32) ||
   (c =? 133) || (c =? 160) || (c =? 5760) ||
   (8192 <=? c) && (c <=? 8202) ||
   (c =? 8232) || (c =? 8233) || (c =? 8239) || (c =? 8287) || (c =? 12288))%N.

Fixpoint lstrip (s : pystr) : pystr :=
  match s with
  | c :: s' => if is_space c then lstrip s' else s
  | [] => []
  end.

Definition rstrip (s : pystr) : pystr := reverse (lstrip (reverse s)).

(** [s.strip()] *)
Definition strip (s : pystr) : pystr := rstrip (lstrip s).

(** [sep.join(parts)] *)
Fixpoint join (sep : pystr) (parts : list pystr) : pystr :=
  match parts with
  | [] => []
  | [p] => p
  | p :: ps => p ++ sep ++ join sep ps
  end.

(** [s.split(c)] for a one-character separator: empty fields are kept and
    the result is never empty. *)
Fixpoint split_char (c : N) (s : pystr) : list pystr :=
  match s with
  | [] => [[]]
  | x :: s' =>
      if (x =? c)%N then [] :: split_char c s'
      else match split_char c s' with
           | w :: ws => (x :: w) :: ws
           | [] => [[x]]
           end
  end.

(** [s.split()]: fields separated by runs of whitespace, no empty field.
    [cur] is the field being read, in reverse. *)
Fixpoint split_ws_aux (cur : pystr) (s : pystr) : list pystr :=
  match s with
  | [] => if bool_decide (cur = []) then [] else [reverse cur]
  | x :: s' =>
      if is_space x
      then (if bool_decide (cur = []) then split_ws_aux [] s'
            else reverse cur :: split_ws_aux [] s')
      else split_ws_aux (x :: cur) s'
  end.

Definition split_ws (s : pystr) : list pystr := split_ws_aux [] s.

(** The Python values that the metadata and payload dictionaries hold
    here: [None], a [str], an [int], a list of [str].  Two of them are
    equal in Python exactly when they are equal here. *)
Inductive PyVal :=
| VNone
| VStr (s : pystr)
| VInt (n : Z)
| VStrs (l : list pystr).

#[global] Instance PyVal_eq_dec : EqDecision PyVal.
Proof. solve_decision. Defined.

Definition of_opt_str (o : option pystr) : PyVal :=
  match o with Some s => VStr s | None => VNone end.

Definition of_opt_int (o : option Z) : PyVal :=
  match o with Some n => VInt n | None => VNone end.

(** [{**base, **upd}]: the entries of [upd] replace those of [base]. *)
Definition dict_update (base upd : gmap string PyVal) : gmap string PyVal :=
  upd ∪ base.

(** [{k: v for k, v in d.items() if v is not None}] *)
Definition drop_none (d : gmap string PyVal) : gmap string PyVal :=
  filter (λ kv, kv.2 ≠ VNone) d.

End Py.
Import Py.

(** ** Parsed documents ([src/core/parsers/base.py]) *)

Inductive ContentType := TEXT | TABLE | CODE_BLOCK | LIST | HEADING.

#[global] Instance ContentType_eq_dec : EqDecision ContentType.
Proof. solve_decision. Defined.

(** The [str] value of the enumeration member. *)
Definition ContentType_value (t : ContentType) : pystr :=
  match t with
  | TEXT => lit "text"
  | TABLE => lit "table"
  | CODE_BLOCK => lit "code_block"
  | LIST => lit "list"
  | HEADING => lit "heading"
  end.

Record ParsedSection := {
  content : pystr;
  content_type : ContentType;
  heading_level : option Z;
  heading_text : option pystr;
  section_hierarchy : list pystr;
  metadata : gmap string PyVal;
  page_number : option Z;
  code_language : option pystr
}.

Record ParsedDocument := {
  filename : pystr;
  sections : list ParsedSection;
  doc_metadata : gmap string PyVal;
  raw_text : option pystr
}.

(** ** Chunks ([src/core/chunkers/base.py]) *)

(** The [embedding] field is left out: no function below reads it. *)
Record Chunk := {
  chunk_id : pystr;
  document_id : pystr;
  chunk_content : pystr;
  chunk_content_type : ContentType;
  chunk_section_hierarchy : list pystr;
  chunk_metadata : gmap string PyVal
}.

(** The five entries that [to_payload] writes before the metadata. *)
Definition payload_fixed (c : Chunk) : gmap string PyVal :=
  <["chunk_id" := VStr (chunk_id c)]>
  (<["document_id" := VStr (document_id c)]>
  (<["content" := VStr (chunk_content c)]>
  (<["content_type" := VStr (ContentType_value (chunk_content_type c))]>
  (<["section_hierarchy" := VStrs (chunk_section_hierarchy c)]> ∅)))).

(** [Chunk.to_payload] *)
Definition to_payload (c : Chunk) : gmap string PyVal :=
  dict_update (payload_fixed c) (chunk_metadata c).

(** [BaseChunker._count_tokens] *)
Definition _count_tokens (text : pystr) : Z := Z.of_nat (length text) / 3.

(** [f"chunk_{uuid4().hex[:12]}"]: the identifier is the only part of a
    chunk that its maker does not determine.  A chunk under construction is
    a [Draft]; [Chunk_create] completes it with the hexadecimal digits that
    [uuid4] returned for it. *)
Record Draft := {
  d_document_id : pystr;
  d_content : pystr;
  d_content_type : ContentType;
  d_section_hierarchy : list pystr;
  d_metadata : gmap string PyVal
}.

Definition Chunk_create (hex12 : pystr) (d : Draft) : Chunk :=
  {| chunk_id := lit "chunk_" ++ hex12;
     document_id := d_document_id d;
     chunk_content := d_content d;
     chunk_content_type := d_content_type d;
     chunk_section_hierarchy := d_section_hierarchy d;
     chunk_metadata := d_metadata d |}.

(** The chunkers append every chunk at the moment they create it, so the
    i-th chunk of a result carries the i-th identifier drawn. *)
Definition stamp (uuid4_hex12 : nat → pystr) (ds : list Draft) : list Chunk :=
  imap (λ i d, Chunk_create (uuid4_hex12 i) d) ds.

Record BaseChunker := {
  chunk_size : Z;
  chunk_overlap : Z
}.

(** How the text of a chunk is assembled: a section's content as it is, or
    [sep.join(units)]. *)
Inductive Body :=
| Whole (c : pystr)
| Joined (sep : pystr) (units : list pystr).

Definition render (b : Body) : pystr :=
  match b with
  | Whole c => c
  | Joined sep units => join sep units
  end.

Definition body_units (b : Body) : list pystr :=
  match b with
  | Whole c => [c]
  | Joined _ units => units
  end.

Definition sum_tokens (units : list pystr) : Z :=
  foldr Z.add 0 (map _count_tokens units).

Definition nonempty {X} (l : list X) : bool :=
  match l with [] => false | _ => true end.

(** The metadata dictionary both chunkers build from a section. *)
Definition section_meta (section : ParsedSection) : gmap string PyVal :=
  <["heading_text" := of_opt_str (heading_text section)]>
  (<["heading_level" := of_opt_int (heading_level section)]>
  (<["code_language" := of_opt_str (code_language section)]>
  (<["page_number" := of_opt_int (page_number section)]> ∅))).

Definition is_atomic (t : ContentType) : bool :=
  bool_decide (t = CODE_BLOCK ∨ t = TABLE).

(** ** Sentence-boundary strategy ([src/core/chunkers/semantic_chunker.py])

    The loops are written once, over the way a chunk is made from its body
    ([emit]); the code's chunks are obtained with [emit] creating the chunk
    from the rendered body, and [emit := id] shows the bodies. *)

Module SemanticChunker.

Record t := {
  base :> BaseChunker;
  respect_sentences : bool
}.

Definition SENTENCE_ENDINGS : list pystr :=
  [[12290%N]; [65281%N]; [65311%N]; lit "."; lit "!"; lit "?"; [10%N; 10%N]].

(** [_split_sentences]; [current] is the list of characters read since the
    last sentence ending. *)
Fixpoint _split_sentences_loop (current : pystr) (text : pystr) : list pystr :=
  match text with
  | [] =>
      if nonempty current
      then (let sentence := strip current in
            if nonempty sentence then [sentence] else [])
      else []
  | char :: text' =>
      let current := current ++ [char] in
      if bool_decide ([char] ∈ SENTENCE_ENDINGS)
      then (let sentence := strip current in
            if nonempty sentence then [sentence] else [])
             ++ _split_sentences_loop [] text'
      else _split_sentences_loop current text'
  end.

Definition _split_sentences (text : pystr) : list pystr :=
  _split_sentences_loop [] text.

(** [_get_overlap_sentences]: the walk over [reversed(sentences)]. *)
Fixpoint _get_overlap_loop (self : t) (reversed : list pystr)
    (overlap_tokens : Z) (overlap_sentences : list pystr) : list pystr :=
  match reversed with
  | [] => overlap_sentences
  | sentence :: rest =>
      let sentence_tokens := _count_tokens sentence in
      if overlap_tokens + sentence_tokens <=? chunk_overlap self
      then _get_overlap_loop self rest (overlap_tokens + sentence_tokens)
             (sentence :: overlap_sentences)
      else overlap_sentences
  end.

Definition _get_overlap_sentences (self : t) (sentences : list pystr) : list pystr :=
  if nonempty sentences
  then _get_overlap_loop self (reverse sentences) 0 []
  else [].

Section Emit.
Context {A : Type} (emit : Body → A).

(** [_split_long_text]: the loop over [text.split()]. *)
Fixpoint _split_long_loop (self : t) (words : list pystr)
    (current_words : list pystr) (current_length : Z) : list A :=
  match words with
  | [] => if nonempty current_words then [emit (Joined (lit " ") current_words)] else []
  | word :: rest =>
      let word_tokens := _count_tokens word in
      if current_length + word_tokens >? chunk_size self
      then (if nonempty current_words
            then [emit (Joined (lit " ") current_words)] else [])
             ++ _split_long_loop self rest [word] word_tokens
      else _split_long_loop self rest (current_words ++ [word])
             (current_length + word_tokens)
  end.

Definition _split_long_text_with (self : t) (text : pystr) : list A :=
  _split_long_loop self (split_ws text) [] 0.

(** The loop of [_chunk_section] over the sentences. *)
Fixpoint _chunk_section_loop (self : t) (sentences : list pystr)
    (current_chunk_sentences : list pystr) (current_length : Z) : list A :=
  match sentences with
  | [] =>
      if nonempty current_chunk_sentences
      then [emit (Joined (lit " ") current_chunk_sentences)] else []
  | sentence :: rest =>
      let sentence_tokens := _count_tokens sentence in
      if sentence_tokens >? chunk_size self then
        if nonempty current_chunk_sentences
        then emit (Joined (lit " ") current_chunk_sentences)
               :: _split_long_text_with self sentence
               ++ _chunk_section_loop self rest [] 0
        else _split_long_text_with self sentence
               ++ _chunk_section_loop self rest current_chunk_sentences current_length
      else if current_length + sentence_tokens >? chunk_size self then
        if nonempty current_chunk_sentences
        then (let overlap_sentences :=
                _get_overlap_sentences self current_chunk_sentences in
              emit (Joined (lit " ") current_chunk_sentences)
                :: _chunk_section_loop self rest (overlap_sentences ++ [sentence])
                     (sum_tokens overlap_sentences + sentence_tokens))
        else _chunk_section_loop self rest (current_chunk_sentences ++ [sentence])
               (current_length + sentence_tokens)
      else _chunk_section_loop self rest (current_chunk_sentences ++ [sentence])
             (current_length + sentence_tokens)
  end.

Definition _chunk_section_with (self : t) (content : pystr)
    (content_type : ContentType) : list A :=
  if _count_tokens content <=? chunk_size self then [emit (Whole content)]
  else if is_atomic content_type then [emit (Whole content)]
  else _chunk_section_loop self (_split_sentences content) [] 0.

End Emit.

(** [_split_long_text] *)
Definition _split_long_text (self : t) (text : pystr) : list pystr :=
  _split_long_text_with render self text.

(** [_chunk_section] *)
Definition _chunk_section (self : t) (content : pystr) (document_id : pystr)
    (content_type : ContentType) (section_hierarchy : list pystr)
    (metadata : gmap string PyVal) : list Draft :=
  _chunk_section_with
    (λ b, {| d_document_id := document_id;
             d_content := render b;
             d_content_type := content_type;
             d_section_hierarchy := section_hierarchy;
             d_metadata := drop_none metadata |})
    self content content_type.

Definition chunk_drafts (self : t) (document : ParsedDocument)
    (document_id : pystr) : list Draft :=
  flat_map (λ section,
      _chunk_section self (content section) document_id (content_type section)
        (section_hierarchy section) (section_meta section))
    (sections document).

(** [SemanticChunker.chunk] *)
Definition chunk (self : t) (uuid4_hex12 : nat → pystr)
    (document : ParsedDocument) (document_id : pystr) : list Chunk :=
  stamp uuid4_hex12 (chunk_drafts self document document_id).

(** The bodies of the chunks of one section, and of a document. *)
Definition section_bodies (self : t) (section : ParsedSection) : list Body :=
  _chunk_section_with id self (content section) (content_type section).

Definition chunk_bodies (self : t) (document : ParsedDocument) : list Body :=
  flat_map (section_bodies self) (sections document).

End SemanticChunker.

Coercion SemanticChunker.base : SemanticChunker.t >-> BaseChunker.

(** ** Hierarchy-grouping strategy ([src/core/chunkers/structure_chunker.py]) *)

Module StructureChunker.

Record t := {
  base :> BaseChunker;
  min_chunk_size : Z;
  include_heading_in_chunk : bool
}.

(** [_group_sections_by_hierarchy]: the loop over the sections. *)
Fixpoint _group_sections_loop (sections : list ParsedSection)
    (current_hierarchy : list pystr) (current_sections : list ParsedSection)
    : list (list pystr * list ParsedSection) :=
  match sections with
  | [] =>
      if nonempty current_sections
      then [(current_hierarchy, current_sections)] else []
  | section :: rest =>
      if bool_decide (content_type section = HEADING) then
        (if nonempty current_sections
         then [(current_hierarchy, current_sections)] else [])
          ++ _group_sections_loop rest (section_hierarchy section) []
      else if bool_decide (section_hierarchy section ≠ current_hierarchy) then
        (if nonempty current_sections
         then [(current_hierarchy, current_sections)] else [])
          ++ _group_sections_loop rest (section_hierarchy section) [section]
      else _group_sections_loop rest current_hierarchy (current_sections ++ [section])
  end.

Definition _group_sections_by_hierarchy (sections : list ParsedSection)
    : list (list pystr * list ParsedSection) :=
  _group_sections_loop sections [] [].

Definition priority (t : ContentType) : Z :=
  match t with
  | CODE_BLOCK => 4
  | TABLE => 3
  | LIST => 2
  | TEXT => 1
  | HEADING => 0
  end.

(** [max(xs, key=key)] on a list with first element [x0]: the first element
    of greatest key. *)
Definition py_max_by {X} (key : X → Z) (x0 : X) (xs : list X) : X :=
  fold_left (λ best x, if key x >? key best then x else best) xs x0.

(** [_get_dominant_content_type_from_list] *)
Definition _get_dominant_content_type_from_list (types : list ContentType)
    : ContentType :=
  match types with
  | [] => TEXT
  | t0 :: ts => py_max_by priority t0 ts
  end.

Definition part := (pystr * ContentType * gmap string PyVal)%type.

(** [_get_dominant_content_type] *)
Definition _get_dominant_content_type (parts : list part) : ContentType :=
  _get_dominant_content_type_from_list (map (λ p : part, p.1.2) parts).

(** [_merge_metadata]: the first value that is not [None] is kept for a key. *)
Definition _merge_metadata (parts : list part) : gmap string PyVal :=
  fold_left (λ merged (p : part), merged ∪ drop_none p.2) parts ∅.

Section Emit.
Context {A : Type} (emit : Body → ContentType → gmap string PyVal → A).

(** [_split_large_content]: the loop over [content.split("\n")]. *)
Fixpoint _split_lines_loop (self : t) (content_type : ContentType)
    (lines : list pystr) (current_lines : list pystr) (current_tokens : Z)
    : list A :=
  match lines with
  | [] =>
      if nonempty current_lines
      then [emit (Joined [10%N] current_lines) content_type ∅] else []
  | line :: rest =>
      let line_tokens := _count_tokens line in
      if current_tokens + line_tokens >? chunk_size self then
        if nonempty current_lines
        then emit (Joined [10%N] current_lines) content_type ∅
               :: _split_lines_loop self content_type rest [line] line_tokens
        else _split_lines_loop self content_type rest (current_lines ++ [line])
               (current_tokens + line_tokens)
      else _split_lines_loop self content_type rest (current_lines ++ [line])
             (current_tokens + line_tokens)
  end.

Definition _split_large_content_with (self : t) (content : pystr)
    (content_type : ContentType) : list A :=
  if is_atomic content_type then [emit (Whole content) content_type ∅]
  else _split_lines_loop self content_type (split_char 10 content) [] 0.

(** The splitting loop of [_chunk_section_group] over the parts. *)
Fixpoint _chunk_parts_loop (self : t) (parts : list part)
    (current_content : list pystr) (current_tokens : Z)
    (current_types : list ContentType) : list A :=
  match parts with
  | [] =>
      if nonempty current_content
      then [emit (Joined [10%N; 10%N] current_content)
              (_get_dominant_content_type_from_list current_types) ∅]
      else []
  | (content, content_type, metadata) :: rest =>
      let part_tokens := _count_tokens content in
      if part_tokens >? chunk_size self then
        if nonempty current_content
        then emit (Joined [10%N; 10%N] current_content)
               (_get_dominant_content_type_from_list current_types) ∅
               :: _split_large_content_with self content content_type
               ++ _chunk_parts_loop self rest [] 0 []
        else _split_large_content_with self content content_type
               ++ _chunk_parts_loop self rest current_content current_tokens
                    current_types
      else if current_tokens + part_tokens >? chunk_size self then
        if nonempty current_content
        then emit (Joined [10%N; 10%N] current_content)
               (_get_dominant_content_type_from_list current_types) ∅
               :: _chunk_parts_loop self rest [content] part_tokens [content_type]
        else _chunk_parts_loop self rest (current_content ++ [content])
               (current_tokens + part_tokens) (current_types ++ [content_type])
      else _chunk_parts_loop self rest (current_content ++ [content])
             (current_tokens + part_tokens) (current_types ++ [content_type])
  end.

Definition combined_parts (sections : list ParsedSection) : list part :=
  map (λ section, (content section, content_type section, section_meta section))
    sections.

Definition _chunk_section_group_with (self : t) (sections : list ParsedSection)
    : list A :=
  let parts := combined_parts sections in
  let total_tokens := sum_tokens (map (λ p : part, p.1.1) parts) in
  if total_tokens <=? chunk_size self
  then [emit (Joined [10%N; 10%N] (map (λ p : part, p.1.1) parts))
          (_get_dominant_content_type parts) (_merge_metadata parts)]
  else _chunk_parts_loop self parts [] 0 [].

End Emit.

(** [" > ".join(hierarchy) + "\n\n" + chunk_content] when configured and the
    hierarchy is not empty. *)
Definition with_heading_prefix (self : t) (hierarchy : list pystr)
    (chunk_content : pystr) : pystr :=
  if include_heading_in_chunk self && nonempty hierarchy
  then join (lit " > ") hierarchy ++ [10%N; 10%N] ++ chunk_content
  else chunk_content.

Definition make_draft (self : t) (document_id : pystr) (hierarchy : list pystr)
    (b : Body) (content_type : ContentType) (metadata : gmap string PyVal)
    : Draft :=
  {| d_document_id := document_id;
     d_content := with_heading_prefix self hierarchy (render b);
     d_content_type := content_type;
     d_section_hierarchy := hierarchy;
     d_metadata := metadata |}.

(** [_split_large_content] *)
Definition _split_large_content (self : t) (content : pystr)
    (content_type : ContentType) (document_id : pystr) (hierarchy : list pystr)
    : list Draft :=
  _split_large_content_with (make_draft self document_id hierarchy)
    self content content_type.

(** [_chunk_section_group] *)
Definition _chunk_section_group (self : t) (sections : list ParsedSection)
    (document_id : pystr) (hierarchy : list pystr) : list Draft :=
  _chunk_section_group_with (make_draft self document_id hierarchy) self sections.

Definition chunk_drafts (self : t) (document : ParsedDocument)
    (document_id : pystr) : list Draft :=
  flat_map (λ g : list pystr * list ParsedSection,
      _chunk_section_group self g.2 document_id g.1)
    (_group_sections_by_hierarchy (sections document)).

(** [StructureChunker.chunk] *)
Definition chunk (self : t) (uuid4_hex12 : nat → pystr)
    (document : ParsedDocument) (document_id : pystr) : list Chunk :=
  stamp uuid4_hex12 (chunk_drafts self document document_id).

(** The bodies of the chunks of a group of sections, and of a document. *)
Definition group_bodies (self : t) (sections : list ParsedSection)
    : list (Body * ContentType) :=
  _chunk_section_group_with (λ b ct _, (b, ct)) self sections.

Definition chunk_bodies (self : t) (document : ParsedDocument)
    : list (Body * ContentType) :=
  flat_map (λ g : list pystr * list ParsedSection, group_bodies self g.2)
    (_group_sections_by_hierarchy (sections document)).

End StructureChunker.

Coercion StructureChunker.base : StructureChunker.t >-> BaseChunker.

(** ** Retrievers ([src/core/retrievers]) *)

(** The operations on Python [float] that the retrievers use: the
    conversion of an [int], [+], [/], [*], the constant [0.8] and [<].  They
    are kept abstract: the retrievers only combine scores with them. *)
Class FloatOps (F : Type) := {
  f_of_int : Z → F;
  f_add : F → F → F;
  f_div : F → F → F;
  f_mul : F → F → F;
  f_0_8 : F;
  f_lt : F → F → bool
}.

(** Insertion-ordered dictionaries, as association lists without repeated
    keys. *)
Section Dict.
Context {K V : Type} `{EqDecision K}.

Fixpoint dict_get (k : K) (d : list (K * V)) : option V :=
  match d with
  | [] => None
  | (k', v) :: d' => if decide (k = k') then Some v else dict_get k d'
  end.

(** [d[k] = v]: an existing key keeps its position. *)
Fixpoint dict_set (k : K) (v : V) (d : list (K * V)) : list (K * V) :=
  match d with
  | [] => [(k, v)]
  | (k', v') :: d' =>
      if decide (k = k') then (k, v) :: d' else (k', v') :: dict_set k v d'
  end.

End Dict.

(** [xs[:n]] *)
Definition py_take {X} (n : Z) (xs : list X) : list X :=
  if 0 <=? n then take (Z.to_nat n) xs
  else take (Z.to_nat (Z.of_nat (length xs) + n)) xs.

(** [sorted(xs, key=key, reverse=True)]: a stable sort by decreasing key,
    which compares keys with [<] only. *)
Section Sorted.
Context {X F : Type} (lt : F → F → bool) (key : X → F).

Fixpoint insert_desc (x : X) (xs : list X) : list X :=
  match xs with
  | [] => [x]
  | y :: ys => if lt (key x) (key y) then y :: insert_desc x ys else x :: xs
  end.

Definition sorted_desc (xs : list X) : list X := foldr insert_desc [] xs.

End Sorted.

Section Retrievers.
Context {F : Type} `{FloatOps F}.

(** The three fields read from a payload hold whatever value the payload
    has under their key.  [chunk_id] is used as a dictionary key and in a
    set: [VectorStore.upsert] writes it from a list of [str], and a payload
    that holds a list there is not considered. *)
Record RetrievalResult := {
  r_chunk_id : PyVal;
  r_document_id : PyVal;
  r_content : PyVal;
  r_score : F;
  r_metadata : gmap string PyVal;
  r_source : pystr
}.

(** One entry of the list that [VectorStore.search] returns. *)
Record Hit := {
  hit_score : F;
  payload : gmap string PyVal
}.

(** [d.get(k, default)] *)
Definition get_default (d : gmap string PyVal) (k : string) (default : PyVal)
    : PyVal :=
  match d !! k with Some v => v | None => default end.

(** [d.get(k)] *)
Definition get_none (d : gmap string PyVal) (k : string) : PyVal :=
  get_default d k VNone.

(** The payload without the entries [chunk_id], [document_id], [content]. *)
Definition payload_metadata (p : gmap string PyVal) : gmap string PyVal :=
  filter (λ kv, kv.1 ≠ "chunk_id"%string ∧ kv.1 ≠ "document_id"%string
                ∧ kv.1 ≠ "content"%string) p.

Definition result_of_hit (score : F) (source : pystr) (r : Hit)
    : RetrievalResult :=
  {| r_chunk_id := get_default (payload r) "chunk_id" (VStr []);
     r_document_id := get_default (payload r) "document_id" (VStr []);
     r_content := get_default (payload r) "content" (VStr []);
     r_score := score;
     r_metadata := payload_metadata (payload r);
     r_source := source |}.

(** The collaborators: the embedding service and the vector store. *)
Context {Vec : Type}.
Context (embed_query : pystr → Vec).
Context (search : Vec → Z → option (gmap string PyVal) → list Hit).

(** *** [HybridRetriever] *)

Record HybridRetriever := {
  dense_weight : F;
  sparse_weight : F;
  rrf_k : Z
}.

(** [_dense_retrieve] *)
Definition _dense_retrieve (query : pystr) (top_k : Z)
    (filters : option (gmap string PyVal)) : list RetrievalResult :=
  map (λ r, result_of_hit (hit_score r) (lit "dense") r)
    (search (embed_query query) top_k filters).

(** [_sparse_retrieve] *)
Definition _sparse_retrieve (query : pystr) (top_k : Z)
    (filters : option (gmap string PyVal)) : list RetrievalResult := [].

(** [weight / (self.rrf_k + rank + 1)]; [None] is [ZeroDivisionError]. *)
Definition rrf_term (self : HybridRetriever) (weight : F) (rank : Z) : option F :=
  if rrf_k self + rank + 1 =? 0 then None
  else Some (f_div weight (f_of_int (rrf_k self + rank + 1))).

Definition rrf_state := (list (PyVal * F) * list (PyVal * RetrievalResult))%type.

(** [scores[chunk_id] = scores.get(chunk_id, 0) + rrf_score] *)
Definition add_score (chunk_id : PyVal) (rrf_score : F) (scores : list (PyVal * F))
    : list (PyVal * F) :=
  dict_set chunk_id
    (f_add (match dict_get chunk_id scores with
            | Some s => s
            | None => f_of_int 0
            end) rrf_score)
    scores.

(** The loop over [enumerate(dense_results)], from rank [rank] on. *)
Fixpoint rrf_dense (self : HybridRetriever) (rank : Z)
    (results : list RetrievalResult) (st : rrf_state) : option rrf_state :=
  match results with
  | [] => Some st
  | result :: rest =>
      match rrf_term self (dense_weight self) rank with
      | None => None
      | Some rrf_score =>
          rrf_dense self (rank + 1) rest
            (add_score (r_chunk_id result) rrf_score st.1,
             dict_set (r_chunk_id result) result st.2)
      end
  end.

(** The loop over [enumerate(sparse_results)], from rank [rank] on. *)
Fixpoint rrf_sparse (self : HybridRetriever) (rank : Z)
    (results : list RetrievalResult) (st : rrf_state) : option rrf_state :=
  match results with
  | [] => Some st
  | result :: rest =>
      match rrf_term self (sparse_weight self) rank with
      | None => None
      | Some rrf_score =>
          rrf_sparse self (rank + 1) rest
            (add_score (r_chunk_id result) rrf_score st.1,
             match dict_get (r_chunk_id result) st.2 with
             | Some _ => st.2
             | None => dict_set (r_chunk_id result) result st.2
             end)
      end
  end.

(** The final loop over [sorted_ids]; [None] is [KeyError]. *)
Fixpoint rrf_build (result_map : list (PyVal * RetrievalResult))
    (sorted_scores : list (PyVal * F)) : option (list RetrievalResult) :=
  match sorted_scores with
  | [] => Some []
  | (chunk_id, score) :: rest =>
      match dict_get chunk_id result_map with
      | None => None
      | Some result =>
          match rrf_build result_map rest with
          | None => None
          | Some combined =>
              Some ({| r_chunk_id := r_chunk_id result;
                       r_document_id := r_document_id result;
                       r_content := r_content result;
                       r_score := score;
                       r_metadata := r_metadata result;
                       r_source := lit "hybrid" |} :: combined)
          end
      end
  end.

(** [_reciprocal_rank_fusion]; [sorted_ids] is kept together with the score
    each identifier is sorted by. *)
Definition _reciprocal_rank_fusion (self : HybridRetriever)
    (dense_results sparse_results : list RetrievalResult)
    : option (list RetrievalResult) :=
  match rrf_dense self 0 dense_results ([], []) with
  | None => None
  | Some st1 =>
      match rrf_sparse self 0 sparse_results st1 with
      | None => None
      | Some (scores, result_map) =>
          rrf_build result_map (sorted_desc f_lt snd scores)
      end
  end.

(** [HybridRetriever.retrieve] *)
Definition hybrid_retrieve (self : HybridRetriever) (query : pystr) (top_k : Z)
    (filters : option (gmap string PyVal)) : option (list RetrievalResult) :=
  let dense_results := _dense_retrieve query (top_k * 2) filters in
  let sparse_results := _sparse_retrieve query (top_k * 2) filters in
  match _reciprocal_rank_fusion self dense_results sparse_results with
  | None => None
  | Some combined => Some (py_take top_k combined)
  end.



(** *** [CrossRefRetriever] *)

Record CrossRefRetriever := {
  max_cross_refs : Z
}.

(** [_primary_retrieve] *)
Definition _primary_retrieve (query : pystr) (top_k : Z)
    (filters : option (gmap string PyVal)) : list RetrievalResult :=
  map (λ r, result_of_hit (hit_score r) (lit "primary") r)
    (search (embed_query query) top_k filters).

(** [_search_related] *)
Definition _search_related (self : CrossRefRetriever) (entities : list pystr)
    (doc_type : pystr) (exclude_doc_id : PyVal) : list RetrievalResult :=
  if nonempty entities then
    let query := join (lit " ") entities in
    let results :=
      search (embed_query query) (max_cross_refs self + 1)
        (Some {[ "doc_types"%string := VStrs [doc_type] ]}) in
    map (λ r, result_of_hit (f_mul (hit_score r) f_0_8) (lit "cross_reference") r)
      (filter (λ r, get_none (payload r) "document_id" ≠ exclude_doc_id) results)
  else [].

(** [a + b] for the two lists of names.  [_search_related] takes a list
    of [str]; operands that are not both lists give [None], the call being
    outside of what the function is written for. *)
Definition list_add (a b : PyVal) : option (list pystr) :=
  match a, b with
  | VStrs x, VStrs y => Some (x ++ y)
  | _, _ => None
  end.

(** The body of the loop of [_find_cross_references]: what one primary
    result adds to [cross_refs]. *)
Definition cross_refs_of (self : CrossRefRetriever) (result : RetrievalResult)
    : option (list RetrievalResult) :=
  let doc_type := get_default (r_metadata result) "doc_type" (VStr []) in
  if decide (doc_type = VStr (lit "api_spec")) then
    let entity_names := get_default (r_metadata result) "entity_names" (VStrs []) in
    let table_names := get_default (r_metadata result) "table_names" (VStrs []) in
    match list_add entity_names table_names with
    | None => None
    | Some entities =>
        Some (py_take (max_cross_refs self)
                (_search_related self entities (lit "table_schema")
                   (r_document_id result)))
    end
  else if decide (doc_type = VStr (lit "table_schema")) then
    let table_names := get_default (r_metadata result) "table_names" (VStrs []) in
    let entity_names := get_default (r_metadata result) "entity_names" (VStrs []) in
    match list_add table_names entity_names with
    | None => None
    | Some entities =>
        Some (py_take (max_cross_refs self)
                (_search_related self entities (lit "api_spec")
                   (r_document_id result)))
    end
  else Some [].

(** [_find_cross_references] *)
Fixpoint _find_cross_references (self : CrossRefRetriever)
    (primary_results : list RetrievalResult) : option (list RetrievalResult) :=
  match primary_results with
  | [] => Some []
  | result :: rest =>
      match cross_refs_of self result with
      | None => None
      | Some related =>
          match _find_cross_references self rest with
          | None => None
          | Some cross_refs => Some (related ++ cross_refs)
          end
      end
  end.

(** The deduplication loop of [retrieve]; the set [seen] is only tested
    for membership. *)
Fixpoint dedup_loop (seen : list PyVal) (combined : list RetrievalResult)
    : list RetrievalResult :=
  match combined with
  | [] => []
  | result :: rest =>
      if decide (r_chunk_id result ∈ seen) then dedup_loop seen rest
      else result :: dedup_loop (r_chunk_id result :: seen) rest
  end.

(** [CrossRefRetriever.retrieve] *)
Definition crossref_retrieve (self : CrossRefRetriever) (query : pystr)
    (top_k : Z) (filters : option (gmap string PyVal))
    : option (list RetrievalResult) :=
  let primary_results := _primary_retrieve query top_k filters in
  match _find_cross_references self primary_results with
  | None => None
  | Some cross_refs => Some (dedup_loop [] (primary_results ++ cross_refs))
  end.

(** The deduplication in the words of the specification: a result stays
    when no earlier result of the list has its [chunk_id]. *)
Definition first_occurrences (combined : list RetrievalResult)
    : list RetrievalResult :=
  (filter (λ ir : nat * RetrievalResult,
             r_chunk_id ir.2 ∉ r_chunk_id <$> take ir.1 combined)
     (imap pair combined)).*2.

End Retrievers.

Arguments RetrievalResult F : clear implicits.
Arguments Hit F : clear implicits.
Arguments HybridRetriever F : clear implicits.

(** ** Regular expressions (the part of Python's [re] that the code uses)

    A backtracking matcher in continuation-passing style: alternatives are
    tried in order, a greedy repetition tries one more iteration before it
    tries to stop and a lazy one the other way round, so the first match
    found is the one [re] returns. *)

Module Re.

(** What the Unicode database says about the characters above U+007F; the
    ASCII range is written out below. *)
Record UnicodeDB := {
  uni_alnum : N → bool;
  uni_decimal : N → bool;
  uni_lower : N → pystr;
  uni_upper : N → pystr;
  uni_ci : N → N → bool
}.

Definition is_upper_ascii (c : N) : bool := ((65 <=? c) && (c <=? 90))%N.
Definition is_lower_ascii (c : N) : bool := ((97 <=? c) && (c <=? 122))%N.
Definition is_digit_ascii (c : N) : bool := ((48 <=? c) && (c <=? 57))%N.

Definition lower_ascii (c : N) : N := if is_upper_ascii c then (c + 32)%N else c.
Definition upper_ascii (c : N) : N := if is_lower_ascii c then (c - 32)%N else c.

Section Unicode.
Context (U : UnicodeDB).

(** [s.lower()] and [s.upper()] *)
Definition lower (s : pystr) : pystr :=
  flat_map (λ c, if (c <? 128)%N then [lower_ascii c] else uni_lower U c) s.

Definition upper (s : pystr) : pystr :=
  flat_map (λ c, if (c <? 128)%N then [upper_ascii c] else uni_upper U c) s.

(** The class [\w] *)
Definition is_word (c : N) : bool :=
  if (c <? 128)%N
  then is_upper_ascii c || is_lower_ascii c || is_digit_ascii c || (c =? 95)%N
  else uni_alnum U c.

(** The class [\d] *)
Definition is_digit (c : N) : bool :=
  if (c <? 128)%N then is_digit_ascii c else uni_decimal U c.

(** A literal character of a pattern compiled with [IGNORECASE]. *)
Definition ci_char (l c : N) : bool :=
  (c =? l)%N ||
  (if (c <? 128)%N then (l <? 128)%N && (lower_ascii c =? lower_ascii l)%N
   else uni_ci U l c).

End Unicode.

Inductive regex :=
| Eps
| Chr (p : N → bool)
| Cat (r1 r2 : regex)
| Alt (r1 r2 : regex)
| Rep (greedy : bool) (lo : nat) (hi : option nat) (r : regex)
| Grp (i : nat) (r : regex)
| Bol (multiline : bool)
| Eol (multiline : bool).

(** The position of the matcher in the subject: the number of characters
    read, the last of them, those still to read, and the groups closed so
    far (the latest first). *)
Record mstate := {
  pos : nat;
  prev : option N;
  rest : pystr;
  caps : list (nat * pystr)
}.

Definition below (hi : option nat) (count : nat) : bool :=
  match hi with Some h => (count <? h)%nat | None => true end.

Definition or_else {X} (a : option X) (b : unit → option X) : option X :=
  match a with Some x => Some x | None => b tt end.

Fixpoint run (r : regex) (st : mstate) (k : mstate → option mstate)
    {struct r} : option mstate :=
  match r with
  | Eps => k st
  | Chr p =>
      match rest st with
      | c :: rest' =>
          if p c
          then k {| pos := S (pos st); prev := Some c; rest := rest';
                    caps := caps st |}
          else None
      | [] => None
      end
  | Cat r1 r2 => run r1 st (λ st', run r2 st' k)
  | Alt r1 r2 => or_else (run r1 st k) (λ _, run r2 st k)
  | Grp i r1 =>
      run r1 st (λ st',
        k {| pos := pos st'; prev := prev st'; rest := rest st';
             caps := (i, take (pos st' - pos st)%nat (rest st)) :: caps st' |})
  | Rep greedy lo hi r1 =>
      (fix rep (fuel count : nat) (st : mstate) {struct fuel} : option mstate :=
         match fuel with
         | O => None
         | S fuel' =>
             let more := λ _ : unit,
               if below hi count
               then run r1 st (λ st',
                      if (pos st <? pos st')%nat || (count <? lo)%nat
                      then rep fuel' (S count) st' else None)
               else None in
             let stop := λ _ : unit,
               if (lo <=? count)%nat then k st else None in
             if greedy then or_else (more tt) stop else or_else (stop tt) more
         end) (S (lo + length (rest st))) O st
  | Bol multiline =>
      if (pos st =? 0)%nat || (multiline && bool_decide (prev st = Some 10%N))
      then k st else None
  | Eol multiline =>
      match rest st with
      | [] => k st
      | c :: rest' =>
          if (c =? 10)%N && (multiline || negb (nonempty rest'))
          then k st else None
      end
  end.

(** A match object: where the match starts, the state at its end. *)
Record Match := {
  m_start : nat;
  m_subject : pystr;
  m_end : mstate
}.

(** [m.group(i)] for a group that took part in the match, [m.group(0)]. *)
Fixpoint caps_get (i : nat) (cs : list (nat * pystr)) : pystr :=
  match cs with
  | [] => []
  | (j, text) :: cs' => if (i =? j)%nat then text else caps_get i cs'
  end.

Definition group (i : nat) (m : Match) : pystr :=
  match i with
  | O => take (pos (m_end m) - m_start m)%nat (m_subject m)
  | _ => caps_get i (caps (m_end m))
  end.

Definition match_at (r : regex) (p : nat) (pv : option N) (s : pystr)
    : option Match :=
  match run r {| pos := p; prev := pv; rest := s; caps := [] |} Some with
  | Some st => Some {| m_start := p; m_subject := s; m_end := st |}
  | None => None
  end.

(** [pattern.match(s)] *)
Definition rmatch (r : regex) (s : pystr) : option Match := match_at r 0 None s.

(** The first match at or after the current position. *)
Fixpoint search_from (r : regex) (p : nat) (pv : option N) (s : pystr)
    : option Match :=
  match match_at r p pv s with
  | Some m => Some m
  | None =>
      match s with
      | [] => None
      | c :: s' => search_from r (S p) (Some c) s'
      end
  end.

(** [pattern.search(s)] *)
Definition search (r : regex) (s : pystr) : option Match := search_from r 0 None s.

(** [pattern.finditer(s)].  After a match that read nothing the search
    resumes one character further; no pattern of the code has such a match. *)
Fixpoint finditer_loop (fuel : nat) (r : regex) (p : nat) (pv : option N)
    (s : pystr) : list Match :=
  match fuel with
  | O => []
  | S fuel' =>
      match search_from r p pv s with
      | None => []
      | Some m =>
          m :: (if (pos (m_end m) =? m_start m)%nat
                then match rest (m_end m) with
                     | [] => []
                     | c :: s' =>
                         finditer_loop fuel' r (S (pos (m_end m))) (Some c) s'
                     end
                else finditer_loop fuel' r (pos (m_end m)) (prev (m_end m))
                       (rest (m_end m)))
      end
  end.

Definition finditer (r : regex) (s : pystr) : list Match :=
  finditer_loop (S (length s)) r 0 None s.

(** [pattern.sub(repl, s)] for a function [repl] that also sees the number
    of matches replaced before. *)
Fixpoint sub_loop (repl : nat → Match → pystr) (idx : nat) (p : nat)
    (ms : list Match) (s : pystr) : pystr :=
  match ms with
  | [] => s
  | m :: ms' =>
      take (m_start m - p)%nat s ++ repl idx m
        ++ sub_loop repl (S idx) (pos (m_end m)) ms' (rest (m_end m))
  end.

Definition sub (r : regex) (repl : nat → Match → pystr) (s : pystr) : pystr :=
  sub_loop repl 0 0 (finditer r s) s.

(** Pattern syntax. *)
Definition cats (rs : list regex) : regex := foldr Cat Eps rs.
Fixpoint any_of (rs : list regex) : regex :=
  match rs with
  | [] => Chr (λ _, false)
  | [r] => r
  | r :: rs' => Alt r (any_of rs')
  end.
Definition star (r : regex) : regex := Rep true 0 None r.
Definition plus (r : regex) : regex := Rep true 1 None r.
Definition opt (r : regex) : regex := Rep true 0 (Some 1%nat) r.
Definition lazy_star (r : regex) : regex := Rep false 0 None r.
Definition chr (c : N) : regex := Chr (N.eqb c).
Definition one_of (cs : pystr) : regex := Chr (λ c, bool_decide (c ∈ cs)).
Definition not_newline : regex := Chr (λ c, negb (c =? 10)%N).
Definition any_char : regex := Chr (λ _, true).
Definition space : regex := Chr is_space.
Definition str (s : string) : regex := cats (chr <$> lit s).
Definition str_ci (U : UnicodeDB) (s : pystr) : regex :=
  cats ((λ l, Chr (ci_char U l)) <$> s).

End Re.

(** [needle in s] and [s.split(sep)] for a separator that is not empty. *)
Fixpoint starts_with (needle s : pystr) : bool :=
  match needle, s with
  | [], _ => true
  | c :: needle', x :: s' => (c =? x)%N && starts_with needle' s'
  | _ :: _, [] => false
  end.

Fixpoint contains (needle s : pystr) : bool :=
  starts_with needle s ||
  match s with
  | [] => false
  | _ :: s' => contains needle s'
  end.

(** [skip] counts the characters of a separator still to pass over; [cur]
    is the field being read, in reverse. *)
Fixpoint split_str_aux (sep : pystr) (skip : nat) (cur : pystr) (s : pystr)
    : list pystr :=
  match s with
  | [] => [reverse cur]
  | c :: s' =>
      match skip with
      | S n => split_str_aux sep n cur s'
      | O =>
          if starts_with sep s
          then reverse cur :: split_str_aux sep (length sep - 1) [] s'
          else split_str_aux sep O (c :: cur) s'
      end
  end.

Definition split_str (sep s : pystr) : list pystr := split_str_aux sep 0 [] s.

(** ** Table extractor ([src/core/extractors/table_extractor.py]) *)

Module TableExtractor.
Import Re.

(** One entry of a [columns] list: parsed from a [CREATE TABLE] body, or
    read from a row of a Markdown table. *)
Inductive Column :=
| DdlColumn (name type : pystr) (nullable primary_key : bool)
| MdColumn (name type description : pystr).

(** One entry of [column_definitions]; the entries read from Markdown
    tables have no [table] key. *)
Record ColumnDefinition := {
  cd_table : option pystr;
  cd_columns : list Column
}.

(** [ExtractedMetadata], with the two fields this extractor fills. *)
Record ExtractedMetadata := {
  table_names : list pystr;
  column_definitions : list ColumnDefinition
}.

Section Patterns.
Context (U : UnicodeDB).

(** The class of the three quote characters, U+0060, U+0027 and U+0022. *)
Definition quote : regex := one_of [96; 39; 34]%N.
Definition word : regex := Chr (is_word U).

(** First pattern: [table] or U+8868 with an optional U+683C, then one or
    more of colon, U+FF1A and whitespace, then the name, a run of word
    characters (group 1) between optional quote characters. *)
Definition TABLE_NAME_PATTERN_1 : regex :=
  cats [Alt (str_ci U (lit "table"))
           (Cat (Chr (ci_char U 34920)) (opt (Chr (ci_char U 26684))));
       plus (Chr (λ c, (c =? 58)%N || (c =? 65306)%N || is_space c));
       opt quote; Grp 1 (plus word); opt quote].

(** Second pattern: [CREATE], [TABLE] and an optional [IF NOT EXISTS],
    each followed by whitespace, then the name (group 1) between optional
    quote characters. *)
Definition create_table_head : regex :=
  cats [str_ci U (lit "CREATE"); plus space; str_ci U (lit "TABLE"); plus space;
       opt (cats [str_ci U (lit "IF"); plus space; str_ci U (lit "NOT");
                 plus space; str_ci U (lit "EXISTS"); plus space]);
       opt quote; Grp 1 (plus word); opt quote].

Definition TABLE_NAME_PATTERN_2 : regex := create_table_head.

(** Third pattern, with [MULTILINE]: at the start of a line one or more
    [#], optional whitespace, the name (group 1), optional whitespace and
    [table] or U+8868. *)
Definition TABLE_NAME_PATTERN_3 : regex :=
  cats [Bol true; plus (chr 35); star space; Grp 1 (plus word); star space;
       Alt (str_ci U (lit "table")) (Chr (ci_char U 34920))].

(** Fourth pattern: [sheet] or U+5DE5 U+4F5C U+8868, then one or more of
    colon, U+FF1A and whitespace, then the name (group 1). *)
Definition TABLE_NAME_PATTERN_4 : regex :=
  cats [Alt (str_ci U (lit "sheet")) (str_ci U [24037; 20316; 34920]%N);
       plus (Chr (λ c, (c =? 58)%N || (c =? 65306)%N || is_space c));
       Grp 1 (plus word)].

Definition TABLE_NAME_PATTERNS : list regex :=
  [TABLE_NAME_PATTERN_1; TABLE_NAME_PATTERN_2; TABLE_NAME_PATTERN_3;
   TABLE_NAME_PATTERN_4].

Definition COLUMN_TYPES : list string :=
  ["VARCHAR"; "CHAR"; "INT"; "INTEGER"; "BIGINT"; "DECIMAL"; "NUMERIC";
   "FLOAT"; "DOUBLE"; "TEXT"; "DATE"; "DATETIME"; "TIMESTAMP"; "BOOLEAN";
   "BOOL"; "JSON"; "UUID"; "SERIAL"]%string.

(** [COLUMN_PATTERN]: the column name (group 1) between optional quote
    characters, whitespace, and as group 2 one of the type names followed
    by any run of word characters, parentheses, commas and whitespace. *)
Definition COLUMN_PATTERN : regex :=
  cats [opt quote; Grp 1 (plus word); opt quote; plus space;
       Grp 2 (Cat (any_of ((λ s, str_ci U (lit s)) <$> COLUMN_TYPES))
                (star (Chr (λ c, is_word U c || (c =? 40)%N || (c =? 41)%N
                                 || (c =? 44)%N || is_space c))))].

(** The pattern of [extract_from_text]: the second pattern, optional
    whitespace, an opening parenthesis, as few characters of any kind as
    possible (group 2) and a closing parenthesis. *)
Definition create_table_pattern : regex :=
  cats [create_table_head; star space; chr 40; Grp 2 (lazy_star any_char); chr 41].

(** The pattern of [_extract_from_markdown_table]: a header row between
    bars (group 1), a delimiter row of dashes, colons, whitespace and bars,
    and as group 2 one or more rows between bars. *)
Definition table_pattern : regex :=
  cats [chr 124; Grp 1 (plus not_newline); chr 124; chr 10;
       chr 124;
       plus (Chr (λ c, (c =? 45)%N || (c =? 58)%N || is_space c || (c =? 124)%N));
       chr 124; chr 10;
       Grp 2 (plus (cats [chr 124; plus not_newline; chr 124; opt (chr 10)]))].

(** [_is_valid_table_name] *)
Definition invalid_names : list pystr :=
  lit <$> ["the"; "a"; "an"; "this"; "that"; "table"; "schema";
           "column"; "field"; "name"; "type"; "description";
           "create"; "select"; "insert"; "update"; "delete"]%string.

Definition _is_valid_table_name (name : pystr) : bool :=
  match rmatch (cats [Bol false; plus word; Eol false]) name with
  | None => false
  | Some _ => negb (bool_decide (lower U name ∈ invalid_names))
  end.

(** [_parse_columns] *)
Definition _parse_columns (columns_text : pystr) : list Column :=
  map (λ m,
      let column_name := group 1 m in
      let column_type := strip (group 2 m) in
      let is_nullable := negb (contains (lit "NOT NULL") (upper U columns_text)) in
      let is_primary := contains (lit "PRIMARY KEY") (upper U columns_text) in
      DdlColumn column_name column_type is_nullable is_primary)
    (finditer COLUMN_PATTERN columns_text).

Definition schema_keywords : list pystr :=
  lit <$> ["column"; "field"; "name"; "type"; "datatype"; "description"]%string.

(** [[c.strip() for c in row.split("|") if c.strip()]] *)
Definition cells_of (row : pystr) : list pystr :=
  filter (λ c, c ≠ []) (strip <$> split_char 124 row).

(** [_extract_from_markdown_table] *)
Definition _extract_from_markdown_table (text : pystr) : list ColumnDefinition :=
  flat_map (λ m,
      let header_line := group 1 m in
      let headers := cells_of header_line in
      let header_lower := lower U <$> headers in
      if existsb (λ kw, contains kw (join (lit " ") header_lower)) schema_keywords
      then
        let body := group 2 m in
        let rows := split_char 10 (strip body) in
        let columns :=
          flat_map (λ row,
              match cells_of row with
              | c0 :: c1 :: cells' =>
                  [MdColumn c0 c1 (match cells' with c2 :: _ => c2 | [] => [] end)]
              | _ => []
              end) rows in
        if nonempty columns
        then [{| cd_table := None; cd_columns := columns |}] else []
      else [])
    (finditer table_pattern text).

(** [sorted(list(names))] for the set that [names] lists, possibly with
    repetitions: strings are compared character by character. *)
Fixpoint str_lt (a b : pystr) : bool :=
  match a, b with
  | _, [] => false
  | [], _ :: _ => true
  | x :: a', y :: b' => (x <? y)%N || ((x =? y)%N && str_lt a' b')
  end.

Fixpoint insert_sorted (x : pystr) (xs : list pystr) : list pystr :=
  match xs with
  | [] => [x]
  | y :: ys =>
      if bool_decide (x = y) then xs
      else if str_lt x y then x :: xs else y :: insert_sorted x ys
  end.

Definition sorted_set (names : list pystr) : list pystr :=
  foldr insert_sorted [] names.

(** [extract_from_text] *)
Definition extract_from_text (text : pystr) : ExtractedMetadata :=
  let table_names_1 :=
    flat_map (λ pattern,
        flat_map (λ m,
            let table_name := lower U (group 1 m) in
            if _is_valid_table_name table_name then [table_name] else [])
          (finditer pattern text))
      TABLE_NAME_PATTERNS in
  let created := finditer create_table_pattern text in
  let table_names_2 := (λ m, lower U (group 1 m)) <$> created in
  let column_definitions_1 :=
    flat_map (λ m,
        let table_name := lower U (group 1 m) in
        let columns := _parse_columns (group 2 m) in
        if nonempty columns
        then [{| cd_table := Some table_name; cd_columns := columns |}] else [])
      created in
  let md_columns := _extract_from_markdown_table text in
  {| table_names := sorted_set (table_names_1 ++ table_names_2);
     column_definitions := column_definitions_1 ++ md_columns |}.

End Patterns.

End TableExtractor.

(** ** Markdown parser ([src/core/parsers/markdown_parser.py]) *)

Module MarkdownParser.
Import Re.

(** [str(n)] *)
Fixpoint str_of_nat_aux (fuel n : nat) (acc : pystr) : pystr :=
  match fuel with
  | O => acc
  | S fuel' =>
      let acc' := (48 + N.of_nat (n mod 10))%N :: acc in
      if (n / 10 =? 0)%nat then acc' else str_of_nat_aux fuel' (n / 10) acc'
  end.

Definition str_of_nat (n : nat) : pystr := str_of_nat_aux (S n) n [].

(** [s.find(needle, start)], with [None] for [-1]. *)
Fixpoint find_from (needle : pystr) (start i : nat) (s : pystr) : option nat :=
  if (start <=? i)%nat && starts_with needle s then Some i
  else match s with
       | [] => None
       | _ :: s' => find_from needle start (S i) s'
       end.

Section Patterns.
Context (U : UnicodeDB).

Definition word : regex := Chr (is_word U).

(** [^(#{1,6})\s+(.+)$] with [MULTILINE] *)
Definition HEADING_PATTERN : regex :=
  cats [Bol true; Grp 1 (Rep true 1 (Some 6%nat) (chr 35)); plus space;
       Grp 2 (plus not_newline); Eol true].

(** [CODE_BLOCK_PATTERN], with [DOTALL]: three backquotes, a run of word
    characters (group 1), a newline, as few characters of any kind as
    possible (group 2), three backquotes. *)
Definition CODE_BLOCK_PATTERN : regex :=
  cats [str "```"; Grp 1 (star word); chr 10; Grp 2 (lazy_star any_char);
       str "```"].

(** [TABLE_PATTERN]: one or more lines that start and end with a bar and
    are followed by a newline. *)
Definition TABLE_PATTERN : regex :=
  plus (Grp 1 (cats [chr 124; plus not_newline; chr 124; chr 10])).

(** [LIST_PATTERN], with [MULTILINE]: at the start of a line, optional
    whitespace and a bullet (one of [-], [+] and the asterisk) or optional
    whitespace and a number followed by a dot; then whitespace and the rest
    of the line, which is not empty. *)
Definition LIST_PATTERN : regex :=
  cats [Bol true;
       Grp 1 (Alt (cats [star space; one_of (lit "-*+")])
                  (cats [star space; plus (Chr (is_digit U)); chr 46]));
       plus space; plus not_newline; Eol true].

(** [_detect_content_type] *)
Definition _detect_content_type (content : pystr) : ContentType :=
  if bool_decide (is_Some (search TABLE_PATTERN content)) then TABLE
  else if bool_decide (is_Some (search LIST_PATTERN content)) then LIST
  else TEXT.

Definition placeholder (code_idx : nat) : pystr :=
  lit "__CODE_BLOCK_" ++ str_of_nat code_idx ++ lit "__".

(** The dictionary [code_blocks], in insertion order. *)
Definition code_blocks_of (content : pystr) : list (pystr * (pystr * pystr)) :=
  imap (λ code_idx m, (placeholder code_idx, (group 1 m, group 2 m)))
    (finditer CODE_BLOCK_PATTERN content).

Definition new_section (content : pystr) (content_type : ContentType)
    (heading : option pystr) (level : option Z) (hierarchy : list pystr)
    (code_language : option pystr) : ParsedSection :=
  {| content := content;
     content_type := content_type;
     heading_level := level;
     heading_text := heading;
     section_hierarchy := hierarchy;
     metadata := ∅;
     page_number := None;
     code_language := code_language |}.

(** [_create_sections_from_content]: the loop over [code_blocks.items()],
    then the remaining content. *)
Fixpoint _create_sections_from_content (content : pystr)
    (heading : option pystr) (level : option Z) (hierarchy : list pystr)
    (code_blocks : list (pystr * (pystr * pystr))) : list ParsedSection :=
  match code_blocks with
  | [] =>
      if nonempty (strip content)
      then [new_section content (_detect_content_type content) heading level
              hierarchy None]
      else []
  | (placeholder, (lang, code)) :: code_blocks' =>
      if contains placeholder content then
        let parts := split_str placeholder content in
        let before := strip (default [] (parts !! 0%nat)) in
        let after := match parts !! 1%nat with Some p => strip p | None => [] end in
        (if nonempty before
         then [new_section before (_detect_content_type before) heading level
                 hierarchy None]
         else [])
          ++ new_section (strip code) CODE_BLOCK heading level hierarchy
               (if nonempty lang then Some lang else None)
          :: _create_sections_from_content after heading level hierarchy
               code_blocks'
      else _create_sections_from_content content heading level hierarchy
             code_blocks'
  end.

(** [while len(current_hierarchy) >= level: current_hierarchy.pop()]; the
    level of a heading is at least 1, so the list is never popped empty. *)
Fixpoint pop_hierarchy (fuel : nat) (level : Z) (current_hierarchy : list pystr)
    : list pystr :=
  match fuel with
  | O => current_hierarchy
  | S fuel' =>
      if Z.of_nat (length current_hierarchy) >=? level
      then pop_hierarchy fuel' level (removelast current_hierarchy)
      else current_hierarchy
  end.

Definition update_hierarchy (level : Z) (heading_text : pystr)
    (current_hierarchy : list pystr) : list pystr :=
  pop_hierarchy (length current_hierarchy) level current_hierarchy
    ++ [heading_text].

(** The truth value of an [Optional[str]]. *)
Definition truthy (o : option pystr) : bool :=
  match o with Some s => nonempty s | None => false end.

(** The loop of [_parse_content] over the lines. *)
Fixpoint _parse_lines (code_blocks : list (pystr * (pystr * pystr)))
    (lines : list pystr) (current_hierarchy : list pystr)
    (current_section_lines : list pystr) (current_heading : option pystr)
    (current_level : option Z) : list ParsedSection :=
  match lines with
  | [] =>
      if nonempty current_section_lines then
        let section_content := strip (join [10%N] current_section_lines) in
        if nonempty section_content
        then _create_sections_from_content section_content current_heading
               current_level current_hierarchy code_blocks
        else []
      else []
  | line :: rest =>
      match rmatch HEADING_PATTERN line with
      | Some heading_match =>
          (if nonempty current_section_lines || truthy current_heading then
             let section_content := strip (join [10%N] current_section_lines) in
             if nonempty section_content || truthy current_heading
             then _create_sections_from_content section_content current_heading
                    current_level current_hierarchy code_blocks
             else []
           else [])
            ++ (let level := Z.of_nat (length (group 1 heading_match)) in
                let heading_text := strip (group 2 heading_match) in
                let current_hierarchy :=
                  update_hierarchy level heading_text current_hierarchy in
                {| content := line;
                   content_type := HEADING;
                   heading_level := Some level;
                   heading_text := Some heading_text;
                   section_hierarchy := current_hierarchy;
                   metadata := ∅;
                   page_number := None;
                   code_language := None |}
                  :: _parse_lines code_blocks rest current_hierarchy []
                       (Some heading_text) (Some level))
      | None =>
          _parse_lines code_blocks rest current_hierarchy
            (current_section_lines ++ [line]) current_heading current_level
      end
  end.

(** [_extract_metadata] *)
Definition _extract_metadata (content : pystr) : gmap string PyVal :=
  let counts : gmap string PyVal :=
    <["heading_count" := VInt (Z.of_nat (length (finditer HEADING_PATTERN content)))]>
    (<["code_block_count" :=
         VInt (Z.of_nat (length (finditer CODE_BLOCK_PATTERN content)))]>
    (<["table_count" := VInt (Z.of_nat (length (finditer TABLE_PATTERN content)))]>
       ∅)) in
  if starts_with (lit "---") content then
    match find_from (lit "---") 3 0 content with
    | Some e =>
        <["front_matter" := VStr (strip (take (e - 3)%nat (drop 3 content)))]> counts
    | None => counts
    end
  else counts.

(** [_parse_content]; the [file_path] of the document is left out. *)
Definition _parse_content (content : pystr) (filename : pystr) : ParsedDocument :=
  let code_blocks := code_blocks_of content in
  let content_no_code :=
    sub CODE_BLOCK_PATTERN (λ code_idx _, placeholder code_idx) content in
  let lines := split_char 10 content_no_code in
  {| filename := filename;
     sections := _parse_lines code_blocks lines [] [] None None;
     doc_metadata := _extract_metadata content;
     raw_text := Some content |}.

End Patterns.

(** The heading stack in the words of the specification: entries
    [(level, text)], innermost first; a heading of level [L] pops every
    entry of level [>= L] and is pushed. *)
Fixpoint pop_levels (L : Z) (stack : list (Z * pystr)) : list (Z * pystr) :=
  match stack with
  | (l, text) :: below => if l >=? L then pop_levels L below else stack
  | [] => []
  end.

Definition push_heading_spec (L : Z) (text : pystr) (stack : list (Z * pystr))
    : list (Z * pystr) :=
  (L, text) :: pop_levels L stack.

(** The [section_hierarchy] that such a stack stands for. *)
Definition hierarchy_of_stack (stack : list (Z * pystr)) : list pystr :=
  reverse (snd <$> stack).

End MarkdownParser.

(** ** Vocabulary of the statements *)

(** The budget that a chunk body respects: a section kept whole is within
    [size] or atomic; the units joined into a chunk sum to at most [limit],
    unless the chunk is a single unit that is itself over [size]. *)
Definition within_budget (limit size : Z) (b : Body) (ct : ContentType) : Prop :=
  match b with
  | Whole c => _count_tokens c ≤ size ∨ ct = CODE_BLOCK ∨ ct = TABLE
  | Joined _ units =>
      sum_tokens units ≤ limit ∨ ∃ u, units = [u] ∧ size < _count_tokens u
  end.

(** [tiles prev groups units]: the groups cover [units] in order, each one
    possibly starting with a suffix of the group before it ([prev] for the
    first) that it repeats. *)
Inductive tiles : list pystr → list (list pystr) → list pystr → Prop :=
| tiles_nil prev : tiles prev [] []
| tiles_cons prev carried fresh groups units :
    carried `suffix_of` prev →
    tiles (carried ++ fresh) groups units →
    tiles prev ((carried ++ fresh) :: groups) (fresh ++ units).

(** The units a section is cut into by the sentence strategy: itself when
    it is within budget or atomic, else its sentences, a sentence over
    budget giving its words. *)
Definition sentence_units (self : SemanticChunker.t) (sentence : pystr)
    : list pystr :=
  if _count_tokens sentence >? chunk_size self
  then split_ws sentence else [sentence].

Definition sem_units (self : SemanticChunker.t) (section : ParsedSection)
    : list pystr :=
  if (_count_tokens (content section) <=? chunk_size self)
     || is_atomic (content_type section)
  then [content section]
  else flat_map (sentence_units self)
         (SemanticChunker._split_sentences (content section)).

(** The units a section is cut into by the hierarchy strategy: its lines
    when it is over budget and not atomic, else itself. *)
Definition struct_units (self : StructureChunker.t) (section : ParsedSection)
    : list pystr :=
  if (_count_tokens (content section) >? chunk_size self)
     && negb (is_atomic (content_type section))
  then split_char 10 (content section)
  else [content section].

Definition part_units (self : StructureChunker.t) (p : StructureChunker.part)
    : list pystr :=
  if (_count_tokens p.1.1 >? chunk_size self) && negb (is_atomic p.1.2)
  then split_char 10 p.1.1 else [p.1.1].

(** The units of a list of chunk bodies, in order. *)
Definition units_of (bodies : list (Body * ContentType)) : list pystr :=
  flat_map (λ bt : Body * ContentType, body_units bt.1) bodies.

(** A text that is not made of whitespace only. *)
Definition has_text (s : pystr) : Prop := ∃ c, c ∈ s ∧ is_space c = false.

(** The entry that [to_payload] writes for a key before the metadata. *)
Definition fixed_entry (c : Chunk) (k : string) : option PyVal :=
  if decide (k = "chunk_id"%string) then Some (VStr (chunk_id c))
  else if decide (k = "document_id"%string) then Some (VStr (document_id c))
  else if decide (k = "content"%string) then Some (VStr (chunk_content c))
  else if decide (k = "content_type"%string)
       then Some (VStr (ContentType_value (chunk_content_type c)))
  else if decide (k = "section_hierarchy"%string)
       then Some (VStrs (chunk_section_hierarchy c))
  else None.

(** [<] on floats is a strict weak order as long as no score is a NaN; any
    stable sort then returns what [sorted] returns. *)
Class FloatOrder (F : Type) `{FloatOps F} : Prop := {
  f_lt_asym : ∀ x y : F, f_lt x y = true → f_lt y x = false;
  f_lt_negtrans : ∀ x y z : F,
    f_lt x y = false → f_lt y z = false → f_lt x z = false
}.

Section FusionVocabulary.
Context {F : Type} `{FloatOps F}.




(** The results of [l] whose [chunk_id] is neither in [pre] nor earlier in
    [l]; [first_occurrences] is the case of an empty [pre]. *)
Definition keep_first_from (pre l : list (RetrievalResult F))
    : list (RetrievalResult F) :=
  (filter (λ ir : nat * RetrievalResult F,
             r_chunk_id ir.2 ∉ r_chunk_id <$> (pre ++ take ir.1 l))
     (imap pair l)).*2.



End FusionVocabulary.

(** A section made from the content under a heading: it carries the
    hierarchy [h] and is not a heading. *)
Definition content_section_of (h : list pystr) (s : ParsedSection) : Prop :=
  section_hierarchy s = h ∧ content_type s ≠ HEADING.

(** A stack of the specification whose entries have the levels 1, 2, ...
    from the outermost: no heading skipped a level. *)
Definition well_nested (stack : list (Z * pystr)) : Prop :=
  stack.*1 = Z.of_nat <$> reverse (seq 1 (length stack)).

(** ** Data of the examples *)

(** Scores as exact rationals. *)
#[global] Instance Q_FloatOps : FloatOps Q := {|
  f_of_int := inject_Z;
  f_add := Qplus;
  f_div := Qdiv;
  f_mul := Qmult;
  f_0_8 := Qmake 4 5;
  f_lt := λ x y, negb (Qle_bool y x)
|}.

(** A database that knows no character above U+007F. *)
Definition ascii_only : Re.UnicodeDB :=
  {| Re.uni_alnum := λ _, false;
     Re.uni_decimal := λ _, false;
     Re.uni_lower := λ c, [c];
     Re.uni_upper := λ c, [c];
     Re.uni_ci := λ _ _, false |}.

Definition nl : string := String (ascii_of_nat 10) EmptyString.

Definition semantic (size overlap : Z) : SemanticChunker.t :=
  {| SemanticChunker.base := {| chunk_size := size; chunk_overlap := overlap |};
     SemanticChunker.respect_sentences := true |}.

Definition structure (size : Z) (prefix : bool) : StructureChunker.t :=
  {| StructureChunker.base := {| chunk_size := size; chunk_overlap := 100 |};
     StructureChunker.min_chunk_size := 100;
     StructureChunker.include_heading_in_chunk := prefix |}.

Definition text_section (c : string) (hierarchy : list pystr) : ParsedSection :=
  {| content := lit c; content_type := TEXT; heading_level := None;
     heading_text := None; section_hierarchy := hierarchy; metadata := ∅;
     page_number := None; code_language := None |}.

Definition heading_section (c : string) (level : Z) (text : string)
    (hierarchy : list pystr) : ParsedSection :=
  {| content := lit c; content_type := HEADING; heading_level := Some level;
     heading_text := Some (lit text); section_hierarchy := hierarchy;
     metadata := ∅; page_number := None; code_language := None |}.

Definition document_of (ss : list ParsedSection) : ParsedDocument :=
  {| filename := lit "doc.md"; sections := ss; doc_metadata := ∅;
     raw_text := None |}.

Definition no_uuid : nat → pystr := λ _, lit "000000000000".

Definition fusion_example : HybridRetriever Q :=
  {| dense_weight := Qmake 7 10; sparse_weight := Qmake 3 10; rrf_k := 60 |}.

Definition hit_example (chunk document doc_type : string) (names : list pystr)
    (score : Q) : Hit Q :=
  {| hit_score := score;
     payload :=
       <["chunk_id" := VStr (lit chunk)]>
       (<["document_id" := VStr (lit document)]>
       (<["content" := VStr (lit "...")]>
       (<["doc_type" := VStr (lit doc_type)]>
       (<["entity_names" := VStrs names]> ∅)))) |}.

Definition result_example (chunk document : string) (score : Q)
    : RetrievalResult Q :=
  result_of_hit score (lit "dense") (hit_example chunk document "general" [] score).

(** A store with one API chunk of document [A]; a search restricted to a
    document type finds a table chunk of document [B] and a chunk of [A]. *)
Definition search_example (_ : pystr) (_ : Z) (filters : option (gmap string PyVal))
    : list (Hit Q) :=
  match filters with
  | None => [hit_example "c1" "A" "api_spec" [lit "User"] (Qmake 9 10)]
  | Some _ =>
      [hit_example "c2" "B" "table_schema" [lit "users"] (Qmake 8 10);
       hit_example "c3" "A" "table_schema" [lit "users"] (Qmake 7 10)]
  end.

Definition crossref_example : CrossRefRetriever := {| max_cross_refs := 3 |}.

(** * The services around the core

    The vocabulary of the further properties, the vector store
    ([src/infrastructure/vector_store.py]), the document and query services
    ([src/services]) and the sources of an answer
    ([src/core/generators/response_generator.py]). *)

(** A run of whitespace. *)
Definition blank (s : pystr) : Prop := Forall (λ c, is_space c = true) s.

(** [spaced parts text]: the text is made of the parts, in order, with
    nothing but whitespace before, between and after them. *)
Inductive spaced : list pystr → pystr → Prop :=
| spaced_nil ws : blank ws → spaced [] ws
| spaced_cons ws s ss rest :
    blank ws → spaced ss rest → spaced (s :: ss) (ws ++ s ++ rest).

(** A word: not empty and without whitespace. *)
Definition is_word_of_text (w : pystr) : Prop :=
  w ≠ [] ∧ Forall (λ c, is_space c = false) w.

(** [char in self.SENTENCE_ENDINGS] *)
Definition ending (c : N) : Prop := [c] ∈ SemanticChunker.SENTENCE_ENDINGS.

(** The shape of a sentence: stripped, not empty, and with no sentence
    ending before its last character. *)
Definition sentence_shape (s : pystr) : Prop :=
  s ≠ [] ∧ strip s = s ∧ Forall (λ c, ¬ ending c) (removelast s).

(** A chunk made from the section [s] of the document [id]: it has the
    type and the hierarchy of the section, and for metadata the four
    fields of the section that are not [None]. *)
Definition from_section (id : pystr) (s : ParsedSection) (c : Chunk) : Prop :=
  document_id c = id ∧
  chunk_content_type c = content_type s ∧
  chunk_section_hierarchy c = section_hierarchy s ∧
  chunk_metadata c = drop_none (section_meta s).



(** The value that the metadata of a part has for a key, [None] counting
    as no value. *)
Definition part_value (k : string) (p : StructureChunker.part) : option PyVal :=
  match p.2 !! k with
  | Some VNone | None => None
  | Some v => Some v
  end.

(** What a chunk of the hierarchy strategy keeps of the group of sections
    [g] of the document [id] it is made from: the hierarchy of the group,
    and the merged metadata of its sections when the group fits in one
    chunk, no metadata when the group was split. *)
Definition from_group (self : StructureChunker.t) (id : pystr)
    (g : list pystr * list ParsedSection) (c : Chunk) : Prop :=
  document_id c = id ∧
  chunk_section_hierarchy c = g.1 ∧
  chunk_metadata c
  = if sum_tokens (content <$> g.2) <=? chunk_size self
    then StructureChunker._merge_metadata (StructureChunker.combined_parts g.2)
    else ∅.

(** ** The vector store ([src/infrastructure/vector_store.py]) *)

Module VectorStore.

Section Points.
Context {Vec : Type}.

Record PointStruct := {
  point_id : Z;
  point_vector : Vec;
  point_payload : gmap string PyVal
}.

(** The point that [upsert] makes for the index [i]: [vectors[i]] and
    [payloads[i]] with the entry [chunk_id] set to [ids[i]].  [None] is the
    [IndexError] of a list that is too short. *)
Definition point_at (ids : list pystr) (vectors : list Vec)
    (payloads : list (gmap string PyVal)) (i : nat) : option PointStruct :=
  match vectors !! i, payloads !! i, ids !! i with
  | Some vector, Some payload, Some chunk_id =>
      Some {| point_id := Z.of_nat i;
              point_vector := vector;
              point_payload := <["chunk_id" := VStr chunk_id]> payload |}
  | _, _, _ => None
  end.

(** [upsert]: the points given to [client.upsert], one for each [i] in
    [range(len(ids))].  (The list [points] built first from
    [zip(vectors, payloads)] is not used.) *)
Definition upsert (ids : list pystr) (vectors : list Vec)
    (payloads : list (gmap string PyVal)) : option (list PointStruct) :=
  mapM (point_at ids vectors payloads) (seq 0 (length ids)).

End Points.

Arguments PointStruct Vec : clear implicits.

End VectorStore.

(** ** Ingestion ([src/services/document_service.py]) *)

(** [ParsedDocument.full_text] *)
Definition full_text (d : ParsedDocument) : pystr :=
  join [10%N; 10%N] (content <$> sections d).

Module DocumentService.

Inductive DocType := API_SPEC | TABLE_SCHEMA | SYSTEM_DESIGN | GENERAL.

Definition DocType_value (t : DocType) : pystr :=
  match t with
  | API_SPEC => lit "api_spec"
  | TABLE_SCHEMA => lit "table_schema"
  | SYSTEM_DESIGN => lit "system_design"
  | GENERAL => lit "general"
  end.

(** [StructureChunker()], the chunker of the service. *)
Definition chunker : StructureChunker.t :=
  {| StructureChunker.base := {| chunk_size := 1024; chunk_overlap := 100 |};
     StructureChunker.min_chunk_size := 100;
     StructureChunker.include_heading_in_chunk := true |}.

Definition api_keywords : list pystr :=
  lit <$> ["endpoint"; "api"; "http"; "request"; "response"; "get"; "post"]%string.

Definition table_keywords : list pystr :=
  lit <$> ["table"; "column"; "primary key"; "foreign key"; "schema"; "field"]%string.

Definition design_keywords : list pystr :=
  lit <$> ["architecture"; "component"; "module"; "flow"; "diagram"; "design"]%string.

(** [sum(1 for kw in keywords if kw in content)] *)
Definition keyword_score (keywords : list pystr) (content : pystr) : Z :=
  Z.of_nat (length (filter (λ kw, contains kw content = true) keywords)).

(** [_detect_doc_type] *)
Definition _detect_doc_type (U : Re.UnicodeDB) (parsed : ParsedDocument) : DocType :=
  let content := Re.lower U (full_text parsed) in
  let api_score := keyword_score api_keywords content in
  let table_score := keyword_score table_keywords content in
  let design_score := keyword_score design_keywords content in
  let max_score := Z.max (Z.max api_score table_score) design_score in
  if max_score =? 0 then GENERAL
  else if api_score =? max_score then API_SPEC
  else if table_score =? max_score then TABLE_SCHEMA
  else SYSTEM_DESIGN.

(** The loop of [process_document] over the chunks: the entries
    [doc_type], [tags] and [filename] are written into the metadata of the
    chunk; [tags or []] is the list of tags, empty when there is none. *)
Definition add_document_metadata (doc_type : DocType) (tags : option (list pystr))
    (filename : pystr) (c : Chunk) : Chunk :=
  {| chunk_id := chunk_id c;
     document_id := document_id c;
     chunk_content := chunk_content c;
     chunk_content_type := chunk_content_type c;
     chunk_section_hierarchy := chunk_section_hierarchy c;
     chunk_metadata :=
       <["filename" := VStr filename]>
       (<["tags" := VStrs (default [] tags)]>
       (<["doc_type" := VStr (DocType_value doc_type)]> (chunk_metadata c))) |}.

(** [process_document] from the parsed document to the chunks: the
    identifier of the document is drawn first, then the chunks are made and
    completed with the metadata of the document. *)
Definition document_chunks (U : Re.UnicodeDB) (uuid4_hex12 : nat → pystr)
    (parsed : ParsedDocument) (filename : pystr) (doc_type : option DocType)
    (tags : option (list pystr)) : pystr * list Chunk :=
  let document_id := lit "doc_" ++ uuid4_hex12 0%nat in
  let doc_type :=
    match doc_type with
    | Some t => t
    | None => _detect_doc_type U parsed
    end in
  let chunks :=
    StructureChunker.chunk chunker (λ i, uuid4_hex12 (S i)) parsed document_id in
  (document_id, add_document_metadata doc_type tags filename <$> chunks).

Section Store.
Context {Vec : Type}.

(** The embedding of one text ([embed_model.get_text_embedding]). *)
Context (embed_text : pystr → Vec).

(** A call on the vector store. *)
Inductive StoreCall :=
| EnsureCollection
| Upsert (points : list (VectorStore.PointStruct Vec)).

(** [_store_chunks]: the calls made on the vector store, none for an empty
    list of chunks.  [embed_texts] embeds the texts one by one. *)
Definition _store_chunks (chunks : list Chunk) : option (list StoreCall) :=
  if nonempty chunks then
    let contents := chunk_content <$> chunks in
    let embeddings := embed_text <$> contents in
    let ids := chunk_id <$> chunks in
    let payloads := to_payload <$> chunks in
    match VectorStore.upsert ids embeddings payloads with
    | Some points => Some [EnsureCollection; Upsert points]
    | None => None
    end
  else Some [].

(** [process_document] from the parsed document on: the identifier, the
    chunks ([chunks_count] is their number) and the calls on the vector
    store. *)
Definition process_parsed (U : Re.UnicodeDB) (uuid4_hex12 : nat → pystr)
    (parsed : ParsedDocument) (filename : pystr) (doc_type : option DocType)
    (tags : option (list pystr))
    : pystr * list Chunk * option (list StoreCall) :=
  let '(document_id, chunks) :=
    document_chunks U uuid4_hex12 parsed filename doc_type tags in
  (document_id, chunks, _store_chunks chunks).

End Store.

Arguments StoreCall Vec : clear implicits.

End DocumentService.

(** ** Queries ([src/services/query_service.py]) *)

Module QueryService.

(** The truth value of a Python value. *)
Definition truth (v : PyVal) : bool :=
  match v with
  | VNone => false
  | VStr s => nonempty s
  | VInt n => negb (n =? 0)
  | VStrs l => nonempty l
  end.

(** The items that a [for] loop takes from a value: the elements of a
    list, the characters of a string; [None] is the [TypeError] of a value
    that is not iterable. *)
Definition items (v : PyVal) : option (list pystr) :=
  match v with
  | VStrs l => Some l
  | VStr s => Some ((λ c, [c]) <$> s)
  | VInt _ | VNone => None
  end.

Record CrossReference := {
  cr_chunk_id : pystr;
  cr_document_id : pystr;
  cr_type : pystr;
  cr_table_name : option pystr;
  cr_api_endpoint : option pystr;
  cr_relevance : pystr
}.

(** [_find_cross_references] *)
Definition _find_cross_references (payload : gmap string PyVal)
    : option (list CrossReference) :=
  let table_names := get_default payload "table_names" (VStrs []) in
  let api_endpoints := get_default payload "api_endpoints" (VStrs []) in
  if truth api_endpoints && truth table_names then
    match items table_names with
    | Some tables =>
        Some ((λ table,
                 {| cr_chunk_id := [];
                    cr_document_id := [];
                    cr_type := lit "table_schema";
                    cr_table_name := Some table;
                    cr_api_endpoint := None;
                    cr_relevance := lit "high" |}) <$> tables)
    | None => None
    end
  else Some [].

Section Confidence.
Context {F : Type} `{FloatOps F}.

Record SearchResult := {
  sr_chunk_id : pystr;
  sr_document_id : pystr;
  sr_content : pystr;
  sr_score : F;
  sr_metadata : gmap string PyVal;
  sr_cross_references : list CrossReference
}.

(** [max(a, b)] and [min(a, b)]: the first argument is kept unless the
    second one is greater, or smaller. *)
Definition py_max (a b : F) : F := if f_lt a b then b else a.
Definition py_min (a b : F) : F := if f_lt b a then b else a.

(** [_calculate_confidence] *)
Definition _calculate_confidence (results : list SearchResult) : F :=
  if nonempty results then
    let top_scores := sr_score <$> py_take 3 results in
    let avg_score :=
      f_div (fold_left f_add top_scores (f_of_int 0))
        (f_of_int (Z.of_nat (length top_scores))) in
    py_min (py_max avg_score (f_of_int 0)) (f_of_int 1)
  else f_of_int 0.

End Confidence.

Arguments SearchResult F : clear implicits.

End QueryService.

(** ** Answers ([src/core/generators/response_generator.py]) *)

Module ResponseGenerator.

Section Sources.
Context {F : Type}.

(** One entry of the list that [_extract_sources] returns. *)
Record Source := {
  src_document_id : PyVal;
  src_filename : PyVal;
  src_section : PyVal;
  src_score : F
}.

(** A value that a set can hold; a list is not hashable. *)
Definition hashable (v : PyVal) : bool :=
  match v with VStrs _ => false | _ => true end.

Definition source_of (result : RetrievalResult F) : Source :=
  {| src_document_id := r_document_id result;
     src_filename := get_default (r_metadata result) "filename" (VStr []);
     src_section := get_none (r_metadata result) "heading_text";
     src_score := r_score result |}.

(** The loop of [_extract_sources]; [None] is the [TypeError] of an
    identifier that is not hashable. *)
Fixpoint extract_sources_loop (seen_docs : list PyVal)
    (context : list (RetrievalResult F)) : option (list Source) :=
  match context with
  | [] => Some []
  | result :: rest =>
      let doc_id := r_document_id result in
      if hashable doc_id then
        if bool_decide (doc_id ∈ seen_docs) then extract_sources_loop seen_docs rest
        else match extract_sources_loop (doc_id :: seen_docs) rest with
             | Some sources => Some (source_of result :: sources)
             | None => None
             end
      else None
  end.

(** [_extract_sources] *)
Definition _extract_sources (context : list (RetrievalResult F))
    : option (list Source) :=
  extract_sources_loop [] context.

End Sources.

Arguments Source F : clear implicits.

End ResponseGenerator.

(** ** Vocabulary of the statements on the ingestion *)

(** The payload under which [_store_chunks] writes a chunk. *)
Definition stored_payload (c : Chunk) : gmap string PyVal :=
  <["chunk_id" := VStr (chunk_id c)]> (to_payload c).

(** The point under which [_store_chunks] writes the i-th chunk. *)
Definition stored_point {Vec} (embed_text : pystr → Vec) (i : nat) (c : Chunk)
    : VectorStore.PointStruct Vec :=
  {| VectorStore.point_id := Z.of_nat i;
     VectorStore.point_vector := embed_text (chunk_content c);
     VectorStore.point_payload := stored_payload c |}.

(** The keys that the metadata of a chunk can have when it leaves a
    chunker. *)
Definition section_keys : list string :=
  ["heading_text"; "heading_level"; "code_language"; "page_number"]%string.

(** A payload that [process_document] wrote for some document. *)
Definition ingested (p : gmap string PyVal) : Prop :=
  ∃ U uuid4_hex12 parsed filename doc_type tags c,
    c ∈ (DocumentService.document_chunks U uuid4_hex12 parsed filename
           doc_type tags).2 ∧
    p = stored_payload c.

(** The keys of the payloads that [process_document] writes. *)
Definition document_keys : list string :=
  ["chunk_id"; "document_id"; "content"; "content_type"; "section_hierarchy";
   "doc_type"; "tags"; "filename"]%string.

(** ** Data of the examples on the ingestion *)

(** The chunks of a small Markdown document about an endpoint, as
    [process_document] makes them. *)
Definition ingested_example : list Chunk :=
  (DocumentService.document_chunks ascii_only no_uuid
     (MarkdownParser._parse_content ascii_only
        (lit ("# Users" ++ nl ++ nl ++ "GET /users returns the users table."))
        (lit "api.md"))
     (lit "api.md") None None).2.

(** A store that holds these chunks only. *)
Definition search_ingested (_ : pystr) (_ : Z) (_ : option (gmap string PyVal))
    : list (Hit Q) :=
  (λ c, {| hit_score := Qmake 9 10; payload := stored_payload c |})
    <$> ingested_example.

(** ** Vocabulary of the statements on the answers *)

Section AnswerVocabulary.
Context {F : Type}.

(** The results of [l] whose [document_id] is neither in [pre] nor earlier
    in [l]. *)
Definition first_of_document (pre l : list (RetrievalResult F))
    : list (RetrievalResult F) :=
  (filter (λ ir : nat * RetrievalResult F,
             r_document_id ir.2 ∉ r_document_id <$> (pre ++ take ir.1 l))
     (imap pair l)).*2.

End AnswerVocabulary.

(** Two results of a search, the second with a score above 1. *)
Definition search_results_example : list (QueryService.SearchResult Q) :=
  [{| QueryService.sr_chunk_id := lit "c1";
      QueryService.sr_document_id := lit "A";
      QueryService.sr_content := lit "...";
      QueryService.sr_score := Qmake 9 10;
      QueryService.sr_metadata := ∅;
      QueryService.sr_cross_references := [] |};
   {| QueryService.sr_chunk_id := lit "c2";
      QueryService.sr_document_id := lit "B";
      QueryService.sr_content := lit "...";
      QueryService.sr_score := Qmake 13 10;
      QueryService.sr_metadata := ∅;
      QueryService.sr_cross_references := [] |}].

(** ** Vocabulary of the statements on the fusion, whatever [rrf_k] *)

Section FusionMaps.
Context {F : Type}.

(** What the two loops of the fusion keep true of the two dictionaries,
    whatever the terms added: they have the same keys, each result is
    under its own identifier, and the results are among those given. *)
Definition rrf_maps (all : list (RetrievalResult F)) (st : @rrf_state F) : Prop :=
  (∀ id, is_Some (dict_get id st.2) ↔ is_Some (dict_get id st.1)) ∧
  (∀ id r, dict_get id st.2 = Some r → r_chunk_id r = id ∧ r ∈ all) ∧
  NoDup st.1.*1.

(** A result of the fusion made from the result [r] of a search: all of
    [r] but the score and the tag. *)
Definition fused_from (r c : RetrievalResult F) : Prop :=
  r_chunk_id c = r_chunk_id r ∧
  r_document_id c = r_document_id r ∧
  r_content c = r_content r ∧
  r_metadata c = r_metadata r ∧
  r_source c = lit "hybrid".

End FusionMaps.

(** ** Vocabulary of the statements on the patterns *)

Module ReSpec.

(** The state of the matcher [n] characters further. *)
Definition after (st : Re.mstate) (n : nat) : Re.mstate :=
  {| Re.pos := Re.pos st + n;
     Re.prev := match n with
                | O => Re.prev st
                | S n' => Re.rest st !! n'
                end;
     Re.rest := drop n (Re.rest st);
     Re.caps := Re.caps st |}.

(** The length of the longest prefix of [s] made of characters of the
    class [p]. *)
Fixpoint span (p : N → bool) (s : pystr) : nat :=
  match s with
  | c :: s' => if p c then S (span p s') else O
  | [] => O
  end.

(** The first success of [f] on [n], [n - 1], ..., [lo]. *)
Fixpoint try_down {X} (f : nat → option X) (lo n : nat) : option X :=
  match n with
  | O => if (lo =? 0)%nat then f O else None
  | S n' =>
      if (lo <=? n)%nat
      then Re.or_else (f n) (λ _, try_down f lo n')
      else None
  end.

(** The number of iterations that a bound allows. *)
Definition cap (hi : option nat) (n : nat) : nat :=
  match hi with
  | Some h => h `min` n
  | None => n
  end.

End ReSpec.

(** The loop of [Re.run] on a repetition of [r1], on its own. *)
Definition rep_loop (r1 : Re.regex) (greedy : bool) (lo : nat) (hi : option nat)
    (k : Re.mstate → option Re.mstate)
    : nat → nat → Re.mstate → option Re.mstate :=
  fix rep (fuel count : nat) (st : Re.mstate) {struct fuel} : option Re.mstate :=
    match fuel with
    | O => None
    | S fuel' =>
        let more := λ _ : unit,
          if Re.below hi count
          then Re.run r1 st (λ st',
                 if (Re.pos st <? Re.pos st')%nat || (count <? lo)%nat
                 then rep fuel' (S count) st' else None)
          else None in
        let stop := λ _ : unit,
          if (lo <=? count)%nat then k st else None in
        if greedy then Re.or_else (more tt) stop else Re.or_else (stop tt) more
    end.

(** The shape of a heading line: [n] times the number sign, from one to
    six of them, then [r], which starts with a whitespace character and has
    at least one more character. *)
Definition heading_shape (line : pystr) (n : nat) (r : pystr) : Prop :=
  line = replicate n 35%N ++ r ∧ (1 ≤ n ≤ 6)%nat ∧
  ∃ c r', r = c :: r' ∧ is_space c = true ∧ r' ≠ [].

(** What [_parse_content] keeps of the last heading: before the first
    heading no text, no level and an empty hierarchy; after a heading its
    text, its level, from 1 to 6, and a hierarchy that ends with the text
    and is not deeper than the level. *)
Definition under_heading (heading : option pystr) (level : option Z)
    (hierarchy : list pystr) : Prop :=
  match heading, level with
  | None, None => hierarchy = []
  | Some text, Some L =>
      1 ≤ L ≤ 6 ∧ last hierarchy = Some text ∧ Z.of_nat (length hierarchy) ≤ L
  | _, _ => False
  end.

(** A section as the Markdown parser makes them.  A heading section is a
    heading line; a code block is stripped and its language, if any, is not
    empty; the content of the other sections is stripped and not empty. *)
Definition markdown_section (s : ParsedSection) : Prop :=
  under_heading (heading_text s) (heading_level s) (section_hierarchy s) ∧
  metadata s = ∅ ∧ page_number s = None ∧
  match content_type s with
  | HEADING =>
      (10%N ∉ content s) ∧ code_language s = None ∧
      ∃ n r, heading_shape (content s) n r ∧
             heading_level s = Some (Z.of_nat n) ∧
             heading_text s = Some (strip r)
  | CODE_BLOCK => strip (content s) = content s ∧ code_language s ≠ Some []
  | _ => content s ≠ [] ∧ strip (content s) = content s ∧ code_language s = None
  end.

(** * Properties *)

(** ** Arithmetic of the token estimate *)

Lemma count_tokens_nonneg (s : pystr) : 0 ≤ _count_tokens s.
Proof. unfold _count_tokens. apply Z.div_pos; lia. Qed.

Lemma sum_tokens_nil : sum_tokens [] = 0.
Proof. reflexivity. Qed.

Lemma sum_tokens_cons (u : pystr) (us : list pystr) :
  sum_tokens (u :: us) = _count_tokens u + sum_tokens us.
Proof. reflexivity. Qed.

Lemma sum_tokens_app (us vs : list pystr) :
  sum_tokens (us ++ vs) = sum_tokens us + sum_tokens vs.
Proof.
  induction us as [|u us IH]; [reflexivity|].
  rewrite <- app_comm_cons, !sum_tokens_cons, IH. lia.
Qed.

Lemma sum_tokens_nonneg (us : list pystr) : 0 ≤ sum_tokens us.
Proof.
  induction us as [|u us IH]; [reflexivity|].
  rewrite sum_tokens_cons. pose proof (count_tokens_nonneg u). lia.
Qed.

Lemma sum_tokens_snoc (us : list pystr) (u : pystr) :
  sum_tokens (us ++ [u]) = sum_tokens us + _count_tokens u.
Proof. rewrite sum_tokens_app, sum_tokens_cons, sum_tokens_nil. lia. Qed.

Lemma nonempty_false {X} (l : list X) : nonempty l = false → l = [].
Proof. by destruct l. Qed.

Lemma nonempty_true {X} (l : list X) : nonempty l = true → l ≠ [].
Proof. by destruct l. Qed.

Lemma nonempty_snoc {X} (l : list X) (x : X) : nonempty (l ++ [x]) = true.
Proof. by destruct l. Qed.

Create Rewrite HintDb tokens.
#[local] Hint Rewrite sum_tokens_nil sum_tokens_cons sum_tokens_app : tokens.

Ltac tok := autorewrite with tokens in *.

(** Splits the conditionals of a loop body, keeping each test as an
    inequality. *)
Ltac split_tests :=
  repeat match goal with
  | |- context [if ?b then _ else _] =>
      match type of b with
      | bool => let E := fresh "E" in destruct b eqn:E
      end
  end.

Ltac z_tests :=
  repeat match goal with
  | H : (_ >? _) = true |- _ => apply Z.gtb_lt in H
  | H : (_ >? _) = false |- _ => rewrite Z.gtb_ltb in H; apply Z.ltb_ge in H
  | H : (_ <=? _) = true |- _ => apply Z.leb_le in H
  | H : (_ <=? _) = false |- _ => apply Z.leb_gt in H
  | H : nonempty _ = false |- _ => apply nonempty_false in H; subst
  end.

(** ** The chunks are the rendered bodies *)

Section SemanticMap.
Context {A B : Type} (g : A → B) (emit : Body → A) (self : SemanticChunker.t).

Lemma sem_split_long_loop_map words cw cl :
  SemanticChunker._split_long_loop (g ∘ emit) self words cw cl
  = g <$> SemanticChunker._split_long_loop emit self words cw cl.
Proof.
  revert cw cl. induction words as [|w words IH]; intros cw cl; simpl.
  - by destruct (nonempty cw).
  - split_tests; rewrite ?fmap_app, ?IH; done.
Qed.

Lemma sem_chunk_section_loop_map sentences cur len :
  SemanticChunker._chunk_section_loop (g ∘ emit) self sentences cur len
  = g <$> SemanticChunker._chunk_section_loop emit self sentences cur len.
Proof.
  revert cur len. induction sentences as [|s sentences IH]; intros cur len; simpl.
  - by destruct (nonempty cur).
  - unfold SemanticChunker._split_long_text_with.
    split_tests; rewrite ?fmap_cons, ?fmap_app, ?sem_split_long_loop_map, ?IH; done.
Qed.

Lemma sem_chunk_section_with_map c ct :
  SemanticChunker._chunk_section_with (g ∘ emit) self c ct
  = g <$> SemanticChunker._chunk_section_with emit self c ct.
Proof.
  unfold SemanticChunker._chunk_section_with.
  split_tests; rewrite ?sem_chunk_section_loop_map; done.
Qed.

End SemanticMap.

Lemma stamp_Forall2 {X} (P : Chunk → X → Prop) (Q : Draft → X → Prop) uuid ds xs :
  (∀ h d x, Q d x → P (Chunk_create h d) x) →
  Forall2 Q ds xs → Forall2 P (stamp uuid ds) xs.
Proof.
  intros HPQ HF. unfold stamp. revert uuid.
  induction HF as [|d x ds xs Hd _ IH]; intros uuid; [constructor|].
  simpl. constructor; [by apply HPQ|]. apply (IH (uuid ∘ S)).
Qed.

Lemma Forall2_flat_map {X Y Z'} (P : Y → Z' → Prop) (f : X → list Y) (g : X → list Z') l :
  (∀ x, x ∈ l → Forall2 P (f x) (g x)) →
  Forall2 P (flat_map f l) (flat_map g l).
Proof.
  induction l as [|x l IH]; intros Hl; simpl; [constructor|].
  apply Forall2_app; [apply Hl; left|apply IH; intros; apply Hl; by right].
Qed.

Lemma Forall2_fmap_self {X Y} (P : Y → X → Prop) (f : X → Y) (l : list X) :
  Forall (λ x, P (f x) x) l → Forall2 P (f <$> l) l.
Proof. induction 1; simpl; constructor; auto. Qed.

(** ** Overlap *)

Section Overlap.
Context (self : SemanticChunker.t).

Lemma get_overlap_loop_suffix reversed t acc :
  SemanticChunker._get_overlap_loop self reversed t acc
    `suffix_of` reverse reversed ++ acc.
Proof.
  revert t acc. induction reversed as [|x reversed IH]; intros t acc; simpl.
  - done.
  - rewrite reverse_cons, <- app_assoc. simpl.
    destruct (_ <=? _); [apply IH|].
    by apply suffix_app_r, suffix_cons_r.
Qed.

Lemma get_overlap_loop_budget reversed t acc :
  t = sum_tokens acc →
  acc = [] ∨ sum_tokens acc ≤ chunk_overlap self →
  let r := SemanticChunker._get_overlap_loop self reversed t acc in
  r = [] ∨ sum_tokens r ≤ chunk_overlap self.
Proof.
  revert t acc. induction reversed as [|x reversed IH]; intros t acc -> Hacc; simpl.
  - done.
  - destruct (_ <=? _) eqn:E; [|done]. z_tests.
    apply IH; [tok; lia|right; tok; lia].
Qed.

Lemma get_overlap_loop_maximal reversed t acc pre x :
  t = sum_tokens acc →
  let r := SemanticChunker._get_overlap_loop self reversed t acc in
  reverse reversed ++ acc = pre ++ [x] ++ r →
  chunk_overlap self < sum_tokens r + _count_tokens x.
Proof.
  revert t acc. induction reversed as [|y reversed IH]; intros t acc -> r; subst r; simpl.
  - intros Heq. apply (f_equal length) in Heq. rewrite !length_app in Heq.
    simpl in Heq. lia.
  - rewrite reverse_cons, <- app_assoc. simpl.
    destruct (_ <=? _) eqn:E; z_tests.
    + apply IH. tok; lia.
    + intros Heq.
      assert (Heq' : (reverse reversed ++ [y]) ++ acc = (pre ++ [x]) ++ acc)
        by (rewrite <- !app_assoc; exact Heq).
      apply app_inv_tail in Heq'.
      apply app_inj_tail in Heq' as [_ ->]. lia.
Qed.

Lemma get_overlap_suffix cur :
  SemanticChunker._get_overlap_sentences self cur `suffix_of` cur.
Proof.
  unfold SemanticChunker._get_overlap_sentences.
  destruct (nonempty cur); [|apply suffix_nil].
  pose proof (get_overlap_loop_suffix (reverse cur) 0 []) as Hs.
  by rewrite reverse_involutive, app_nil_r in Hs.
Qed.

Lemma get_overlap_budget cur :
  let ov := SemanticChunker._get_overlap_sentences self cur in
  ov = [] ∨ sum_tokens ov ≤ chunk_overlap self.
Proof.
  unfold SemanticChunker._get_overlap_sentences.
  destruct (nonempty cur); [|by left].
  apply get_overlap_loop_budget; [done|by left].
Qed.

Lemma get_overlap_budget_max cur :
  sum_tokens (SemanticChunker._get_overlap_sentences self cur)
    ≤ Z.max 0 (chunk_overlap self).
Proof.
  destruct (get_overlap_budget cur) as [-> | H]; [rewrite sum_tokens_nil|]; lia.
Qed.

Lemma get_overlap_maximal cur pre x :
  cur = pre ++ [x] ++ SemanticChunker._get_overlap_sentences self cur →
  chunk_overlap self
    < sum_tokens (SemanticChunker._get_overlap_sentences self cur) + _count_tokens x.
Proof.
  unfold SemanticChunker._get_overlap_sentences.
  destruct (nonempty cur) eqn:E.
  - intros Heq. apply (get_overlap_loop_maximal (reverse cur) 0 [] pre x); [done|].
    by rewrite reverse_involutive, app_nil_r.
  - z_tests. intros Heq. by destruct pre.
Qed.

End Overlap.

(** ** Budget of the sentence strategy *)

Section SemanticBudget.
Context (self : SemanticChunker.t) (ct : ContentType).

Local Abbreviation size := (chunk_size self).
Local Abbreviation limit := (chunk_size self + Z.max 0 (chunk_overlap self)).

Lemma sem_split_long_loop_budget words cw cl :
  cl = sum_tokens cw →
  cw = [] ∨ sum_tokens cw ≤ size ∨ (∃ u, cw = [u] ∧ size < _count_tokens u) →
  Forall (λ b, within_budget limit size b ct)
    (SemanticChunker._split_long_loop id self words cw cl).
Proof.
  revert cw cl. induction words as [|w words IH]; intros cw cl -> Hcw; simpl.
  - destruct (nonempty cw) eqn:E; [|constructor]. constructor; [|constructor].
    apply nonempty_true in E.
    simpl. destruct Hcw as [?|[?|?]]; [done|left; lia|by right].
  - pose proof (count_tokens_nonneg w).
    assert (Hw : [w] = [] ∨ sum_tokens [w] ≤ size
                 ∨ (∃ u, [w] = [u] ∧ size < _count_tokens u)).
    { right. destruct (decide (_count_tokens w ≤ size)); [left; tok; lia|].
      right. exists w. split; [done|lia]. }
    split_tests; z_tests.
    + constructor; [|by apply IH; [tok; lia|]].
      apply nonempty_true in E0.
      simpl. destruct Hcw as [?|[?|?]]; [done|left; lia|by right].
    + apply IH; [tok; lia|done].
    + apply IH; [tok; lia|]. right. left. tok. lia.
Qed.

Lemma sem_chunk_section_loop_budget sentences cur len :
  len = sum_tokens cur → cur = [] ∨ sum_tokens cur ≤ limit →
  Forall (λ b, within_budget limit size b ct)
    (SemanticChunker._chunk_section_loop id self sentences cur len).
Proof.
  revert cur len.
  induction sentences as [|s sentences IH]; intros cur len -> Hcur; simpl.
  - destruct (nonempty cur) eqn:E; constructor; [|constructor].
    apply nonempty_true in E. left. by destruct Hcur.
  - pose proof (count_tokens_nonneg s).
    pose proof (get_overlap_budget_max self cur).
    assert (Hlong : Forall (λ b, within_budget limit size b ct)
                      (SemanticChunker._split_long_text_with id self s)).
    { apply sem_split_long_loop_budget; [done|by left]. }
    split_tests; z_tests.
    + constructor; [apply nonempty_true in E0; left; by destruct Hcur|].
      apply Forall_app. split; [done|by apply IH; [|left]].
    + apply Forall_app. split; [done|by apply IH; [|left]].
    + constructor; [apply nonempty_true in E1; left; by destruct Hcur|].
      apply IH; [tok; lia|]. right. tok. lia.
    + apply IH; [tok; lia|]. right. tok. lia.
    + apply IH; [tok; lia|]. right. tok. lia.
Qed.

Lemma sem_chunk_section_budget c :
  Forall (λ b, within_budget limit size b ct)
    (SemanticChunker._chunk_section_with id self c ct).
Proof.
  unfold SemanticChunker._chunk_section_with.
  split_tests; z_tests.
  - constructor; [by left|constructor].
  - constructor; [|constructor]. simpl. right.
    unfold is_atomic in *. by apply bool_decide_eq_true in E0.
  - apply sem_chunk_section_loop_budget; [done|by left].
Qed.

End SemanticBudget.

(** ** Hierarchy strategy: rendering and budget *)

Section StructureRel.
Context {A B : Type} (R : A → B → Prop)
  (emit1 : Body → ContentType → gmap string PyVal → A)
  (emit2 : Body → ContentType → gmap string PyVal → B)
  (self : StructureChunker.t)
  (HR : ∀ b ct md, R (emit1 b ct md) (emit2 b ct md)).

Lemma struct_split_lines_loop_rel ct lines cur tokens :
  Forall2 R (StructureChunker._split_lines_loop emit1 self ct lines cur tokens)
    (StructureChunker._split_lines_loop emit2 self ct lines cur tokens).
Proof using HR.
  revert cur tokens. induction lines as [|l lines IH]; intros cur tokens; simpl.
  - destruct (nonempty cur); repeat constructor; apply HR.
  - split_tests; repeat constructor; auto.
Qed.

Lemma struct_split_large_content_rel c ct :
  Forall2 R (StructureChunker._split_large_content_with emit1 self c ct)
    (StructureChunker._split_large_content_with emit2 self c ct).
Proof using HR.
  unfold StructureChunker._split_large_content_with.
  destruct (is_atomic ct); [repeat constructor; apply HR|].
  apply struct_split_lines_loop_rel.
Qed.

Lemma struct_chunk_parts_loop_rel parts cur tokens types :
  Forall2 R (StructureChunker._chunk_parts_loop emit1 self parts cur tokens types)
    (StructureChunker._chunk_parts_loop emit2 self parts cur tokens types).
Proof using HR.
  revert cur tokens types.
  induction parts as [|[[c ct] md] parts IH]; intros cur tokens types; simpl.
  - destruct (nonempty cur); repeat constructor; apply HR.
  - pose proof (struct_split_large_content_rel c ct).
    split_tests; repeat first [apply Forall2_app | constructor]; auto.
Qed.

Lemma struct_chunk_section_group_rel sections :
  Forall2 R (StructureChunker._chunk_section_group_with emit1 self sections)
    (StructureChunker._chunk_section_group_with emit2 self sections).
Proof using HR.
  unfold StructureChunker._chunk_section_group_with.
  split_tests; [repeat constructor; apply HR|apply struct_chunk_parts_loop_rel].
Qed.

End StructureRel.

Section StructureBudget.
Context (self : StructureChunker.t).

Local Abbreviation size := (chunk_size self).
Local Abbreviation emit := (λ (b : Body) (ct : ContentType) (_ : gmap string PyVal), (b, ct)).
Local Abbreviation ok := (λ bt : Body * ContentType, within_budget size size bt.1 bt.2).

Lemma struct_split_lines_loop_budget ct lines cur tokens :
  tokens = sum_tokens cur →
  cur = [] ∨ sum_tokens cur ≤ size ∨ (∃ u, cur = [u] ∧ size < _count_tokens u) →
  Forall ok (StructureChunker._split_lines_loop emit self ct lines cur tokens).
Proof.
  revert cur tokens. induction lines as [|l lines IH]; intros cur tokens -> Hcur; simpl.
  - destruct (nonempty cur) eqn:E; [|constructor]. constructor; [|constructor].
    apply nonempty_true in E. simpl. by destruct Hcur.
  - pose proof (count_tokens_nonneg l).
    split_tests; z_tests.
    + constructor.
      * apply nonempty_true in E0. simpl. by destruct Hcur.
      * apply IH; [tok; lia|]. right.
        destruct (decide (_count_tokens l ≤ size)); [left; tok; lia|].
        right. exists l. split; [done|lia].
    + apply IH; [tok; lia|]. right. right. exists l. split; [done|]. tok. lia.
    + apply IH; [tok; lia|]. right. left. tok. lia.
Qed.

Lemma struct_split_large_content_budget c ct :
  Forall ok (StructureChunker._split_large_content_with emit self c ct).
Proof.
  unfold StructureChunker._split_large_content_with.
  destruct (is_atomic ct) eqn:E.
  - constructor; [|constructor]. simpl. right.
    unfold is_atomic in E. by apply bool_decide_eq_true in E.
  - apply struct_split_lines_loop_budget; [done|by left].
Qed.

Lemma struct_chunk_parts_loop_budget parts cur tokens types :
  tokens = sum_tokens cur → cur = [] ∨ sum_tokens cur ≤ size →
  Forall ok (StructureChunker._chunk_parts_loop emit self parts cur tokens types).
Proof.
  revert cur tokens types.
  induction parts as [|[[c ct] md] parts IH]; intros cur tokens types -> Hcur; simpl.
  - destruct (nonempty cur) eqn:E; [|constructor]. constructor; [|constructor].
    apply nonempty_true in E. simpl. left. by destruct Hcur.
  - pose proof (count_tokens_nonneg c).
    pose proof (struct_split_large_content_budget c ct) as Hlarge.
    split_tests; z_tests.
    + constructor; [apply nonempty_true in E0; simpl; left; by destruct Hcur|].
      apply Forall_app. split; [done|by apply IH; [|left]].
    + apply Forall_app. split; [done|by apply IH; [|left]].
    + constructor; [apply nonempty_true in E1; simpl; left; by destruct Hcur|].
      apply IH; [tok; lia|]. right. tok. lia.
    + apply IH; [tok; lia|]. right. tok. lia.
    + apply IH; [tok; lia|]. right. tok. lia.
Qed.

Lemma struct_group_bodies_budget sections :
  Forall ok (StructureChunker.group_bodies self sections).
Proof.
  unfold StructureChunker.group_bodies, StructureChunker._chunk_section_group_with.
  destruct (_ <=? _) eqn:E; z_tests.
  - constructor; [|constructor]. simpl. by left.
  - apply struct_chunk_parts_loop_budget; [done|by left].
Qed.

End StructureBudget.

(** ** The budget of the chunks *)

Lemma Forall2_Forall_r {X Y} (R : X → Y → Prop) (P : Y → Prop) l1 l2 :
  Forall2 R l1 l2 → Forall P l2 → Forall2 (λ x y, R x y ∧ P y) l1 l2.
Proof.
  induction 1; intros HP; [constructor|].
  apply Forall_cons in HP as [? ?]. constructor; auto.
Qed.

Lemma sem_chunk_section_drafts (self : SemanticChunker.t) c id ct h md :
  SemanticChunker._chunk_section self c id ct h md
  = (λ b, {| d_document_id := id; d_content := render b; d_content_type := ct;
             d_section_hierarchy := h; d_metadata := drop_none md |})
      <$> SemanticChunker._chunk_section_with (@Datatypes.id Body) self c ct.
Proof. exact (sem_chunk_section_with_map _ Datatypes.id self c ct). Qed.

Lemma semantic_budget (self : SemanticChunker.t) uuid doc id :
  Forall2 (λ c b,
      chunk_content c = render b ∧
      within_budget (chunk_size self + Z.max 0 (chunk_overlap self))
        (chunk_size self) b (chunk_content_type c))
    (SemanticChunker.chunk self uuid doc id)
    (SemanticChunker.chunk_bodies self doc).
Proof.
  unfold SemanticChunker.chunk, SemanticChunker.chunk_drafts,
    SemanticChunker.chunk_bodies.
  apply (stamp_Forall2 _ (λ d b,
      d_content d = render b ∧
      within_budget (chunk_size self + Z.max 0 (chunk_overlap self))
        (chunk_size self) b (d_content_type d)));
    [by intros h d b Hd|apply Forall2_flat_map; intros s _].
  rewrite sem_chunk_section_drafts. unfold SemanticChunker.section_bodies.
  apply Forall2_fmap_self. simpl.
  eapply Forall_impl; [apply sem_chunk_section_budget|]. by intros b Hb.
Qed.

Lemma structure_budget (self : StructureChunker.t) uuid doc id :
  Forall2 (λ c bt,
      (chunk_content c
         = StructureChunker.with_heading_prefix self (chunk_section_hierarchy c)
             (render bt.1)
       ∧ chunk_content_type c = bt.2) ∧
      within_budget (chunk_size self) (chunk_size self) bt.1 bt.2)
    (StructureChunker.chunk self uuid doc id)
    (StructureChunker.chunk_bodies self doc).
Proof.
  unfold StructureChunker.chunk, StructureChunker.chunk_drafts,
    StructureChunker.chunk_bodies.
  apply (stamp_Forall2 _ (λ d bt,
      (d_content d
         = StructureChunker.with_heading_prefix self (d_section_hierarchy d)
             (render bt.1)
       ∧ d_content_type d = bt.2) ∧
      within_budget (chunk_size self) (chunk_size self) bt.1 bt.2));
    [by intros h d b Hd|apply Forall2_flat_map; intros [h ss] _].
  apply Forall2_Forall_r; [|apply struct_group_bodies_budget].
  apply struct_chunk_section_group_rel. by intros b ct md.
Qed.

(** ** Coverage *)

Lemma tiles_fresh prev g groups units :
  tiles g groups units → tiles prev (g :: groups) (g ++ units).
Proof. intros Ht. apply (tiles_cons prev [] g); [apply suffix_nil|done]. Qed.

Lemma tiles_app prev groups1 units1 groups2 units2 :
  tiles prev groups1 units1 →
  (∀ prev', tiles prev' groups2 units2) →
  tiles prev (groups1 ++ groups2) (units1 ++ units2).
Proof.
  intros Ht H2. induction Ht as [prev|prev carried fresh groups units Hs _ IH].
  - apply H2.
  - simpl. rewrite <- app_assoc. by constructor.
Qed.

Section SemanticTiles.
Context (self : SemanticChunker.t).

Lemma sem_split_long_loop_tiles words cw cl prev :
  tiles prev (body_units <$> SemanticChunker._split_long_loop id self words cw cl)
    (cw ++ words).
Proof.
  revert cw cl prev. induction words as [|w words IH]; intros cw cl prev; simpl.
  - destruct (nonempty cw) eqn:E; z_tests; simpl.
    + apply tiles_fresh. constructor.
    + constructor.
  - split_tests; z_tests; simpl.
    + apply tiles_fresh. apply (IH [w]).
    + apply (IH [w]).
    + specialize (IH (cw ++ [w]) (cl + _count_tokens w) prev).
      by rewrite <- app_assoc in IH.
Qed.

Lemma sem_chunk_section_loop_tiles sentences cur len prev carried fresh :
  cur = carried ++ fresh → carried `suffix_of` prev →
  tiles prev
    (body_units <$> SemanticChunker._chunk_section_loop id self sentences cur len)
    (fresh ++ flat_map (sentence_units self) sentences).
Proof.
  revert cur len prev carried fresh.
  induction sentences as [|s sentences IH];
    intros cur len prev carried fresh -> Hs; simpl.
  - rewrite app_nil_r. destruct (nonempty (carried ++ fresh)) eqn:E; simpl.
    + rewrite <- (app_nil_r fresh) at 2. constructor; [done|constructor].
    + z_tests. apply app_eq_nil in E as [-> ->]. constructor.
  - unfold sentence_units at 1. unfold SemanticChunker._split_long_text_with.
    assert (Hnext : ∀ l prev', tiles prev'
              (body_units <$> SemanticChunker._chunk_section_loop id self sentences [] l)
              (flat_map (sentence_units self) sentences)).
    { intros l prev'. apply (IH [] l prev' [] []); [done|apply suffix_nil]. }
    split_tests; z_tests; simpl; rewrite ?fmap_app.
    + constructor; [done|]. apply tiles_app; [|by intros].
      apply (sem_split_long_loop_tiles (split_ws s) [] 0).
    + apply app_eq_nil in E0 as [-> ->]. simpl.
      apply tiles_app; [|by intros].
      apply (sem_split_long_loop_tiles (split_ws s) [] 0).
    + constructor; [done|].
      apply (IH _ _ _ (SemanticChunker._get_overlap_sentences self (carried ++ fresh)) [s]);
        [done|apply get_overlap_suffix].
    + apply app_eq_nil in E1 as [-> ->]. simpl.
      apply (IH _ _ _ [] [s]); [done|apply suffix_nil].
    + replace (fresh ++ s :: flat_map (sentence_units self) sentences)
        with ((fresh ++ [s]) ++ flat_map (sentence_units self) sentences)
        by (by rewrite <- app_assoc).
      apply (IH _ _ _ carried (fresh ++ [s])); [by rewrite app_assoc|done].
Qed.

Lemma semantic_section_tiles section :
  tiles [] (body_units <$> SemanticChunker.section_bodies self section)
    (sem_units self section).
Proof.
  unfold SemanticChunker.section_bodies, SemanticChunker._chunk_section_with,
    sem_units.
  destruct (_ <=? _); simpl.
  - apply (tiles_fresh [] [content section] [] []). constructor.
  - destruct (is_atomic _); simpl.
    + apply (tiles_fresh [] [content section] [] []). constructor.
    + apply (sem_chunk_section_loop_tiles _ [] 0 [] [] []); [done|apply suffix_nil].
Qed.

End SemanticTiles.

Section StructureCover.
Context (self : StructureChunker.t).

Local Abbreviation emit :=
  (λ (b : Body) (ct : ContentType) (_ : gmap string PyVal), (b, ct)).
Lemma units_of_app l1 l2 : units_of (l1 ++ l2) = units_of l1 ++ units_of l2.
Proof. apply flat_map_app. Qed.

Lemma units_of_cons b ct l : units_of ((b, ct) :: l) = body_units b ++ units_of l.
Proof. reflexivity. Qed.

Lemma struct_split_lines_loop_units ct lines cur tokens :
  units_of (StructureChunker._split_lines_loop emit self ct lines cur tokens)
  = cur ++ lines.
Proof.
  revert cur tokens. induction lines as [|l lines IH]; intros cur tokens; simpl.
  - destruct (nonempty cur) eqn:E; z_tests; unfold units_of; simpl;
      by rewrite ?app_nil_r.
  - split_tests; z_tests; rewrite ?units_of_cons; simpl;
      rewrite ?IH, <- ?app_assoc; done.
Qed.

Lemma struct_split_large_content_units c ct md :
  chunk_size self < _count_tokens c →
  units_of (StructureChunker._split_large_content_with emit self c ct)
  = part_units self (c, ct, md).
Proof.
  intros Hc. apply Z.gtb_lt in Hc.
  unfold StructureChunker._split_large_content_with, part_units.
  simpl. rewrite Hc. destruct (is_atomic ct); simpl; [done|].
  apply struct_split_lines_loop_units.
Qed.

Lemma struct_chunk_parts_loop_units parts cur tokens types :
  units_of (StructureChunker._chunk_parts_loop emit self parts cur tokens types)
  = cur ++ flat_map (part_units self) parts.
Proof.
  revert cur tokens types.
  induction parts as [|[[c ct] md] parts IH]; intros cur tokens types; simpl.
  - destruct (nonempty cur) eqn:E; z_tests; unfold units_of; simpl;
      by rewrite ?app_nil_r.
  - destruct (_count_tokens c >? chunk_size self) eqn:Hc.
    + pose proof Hc as Hc'. apply Z.gtb_lt in Hc'.
      destruct (nonempty cur) eqn:E; z_tests; rewrite ?units_of_cons;
        rewrite units_of_app, IH, (struct_split_large_content_units c ct md Hc');
        simpl; rewrite ?app_nil_r; done.
    + assert (Hp : part_units self (c, ct, md) = [c])
        by (unfold part_units; simpl; by rewrite Hc).
      rewrite Hp.
      split_tests; z_tests; rewrite ?units_of_cons; simpl;
        rewrite ?IH, <- ?app_assoc; done.
Qed.

Lemma part_units_section (section : ParsedSection) :
  part_units self (content section, content_type section, section_meta section)
  = struct_units self section.
Proof. reflexivity. Qed.

Lemma struct_group_bodies_units sections :
  units_of (StructureChunker.group_bodies self sections)
  = flat_map (struct_units self) sections.
Proof.
  unfold StructureChunker.group_bodies, StructureChunker._chunk_section_group_with.
  destruct (_ <=? _) eqn:E; z_tests.
  - unfold units_of. simpl. rewrite app_nil_r.
    unfold StructureChunker.combined_parts in *.
    rewrite map_map in *. simpl in *.
    induction sections as [|s sections IH]; [done|]. simpl in *. tok.
    pose proof (count_tokens_nonneg (content s)).
    pose proof (sum_tokens_nonneg (map (λ x, content x) sections)).
    rewrite IH by lia. unfold struct_units at 2.
    destruct (_ >? _) eqn:E'; z_tests; [lia|done].
  - rewrite struct_chunk_parts_loop_units. simpl.
    unfold StructureChunker.combined_parts.
    clear E. induction sections as [|s sections IH]; [done|]. simpl.
    by rewrite IH, part_units_section.
Qed.

Lemma group_sections_loop_sections sections h cs :
  flat_map snd (StructureChunker._group_sections_loop sections h cs)
  = cs ++ filter (λ s, content_type s ≠ HEADING) sections.
Proof.
  revert h cs. induction sections as [|s sections IH]; intros h cs; simpl.
  - destruct (nonempty cs) eqn:E; z_tests; simpl; by rewrite ?app_nil_r.
  - rewrite filter_cons.
    destruct (bool_decide (content_type s = HEADING)) eqn:E1.
    + apply bool_decide_eq_true in E1.
      rewrite decide_False by (intros Hn; by apply Hn).
      rewrite flat_map_app, IH.
      destruct (nonempty cs) eqn:E; z_tests; simpl; by rewrite ?app_nil_r.
    + apply bool_decide_eq_false in E1. rewrite decide_True by done.
      destruct (bool_decide (section_hierarchy s ≠ h)).
      * rewrite flat_map_app, IH.
        destruct (nonempty cs) eqn:E; z_tests; simpl; by rewrite ?app_nil_r.
      * by rewrite IH, <- app_assoc.
Qed.

Lemma structure_cover doc :
  units_of (StructureChunker.chunk_bodies self doc)
  = flat_map (struct_units self)
      (filter (λ s, content_type s ≠ HEADING) (sections doc)).
Proof.
  unfold StructureChunker.chunk_bodies, StructureChunker._group_sections_by_hierarchy.
  pose proof (group_sections_loop_sections (sections doc) [] []) as Hg.
  simpl in Hg. rewrite <- Hg. clear Hg.
  induction (StructureChunker._group_sections_loop (sections doc) [] [])
    as [|[h ss] groups IH]; [done|].
  simpl. rewrite units_of_app, IH, struct_group_bodies_units.
  by rewrite flat_map_app.
Qed.

End StructureCover.

Lemma join_split_char (c : N) (s : pystr) : join [c] (split_char c s) = s.
Proof.
  induction s as [|x s IH]; [done|]. simpl.
  destruct (x =? c)%N eqn:E.
  - apply N.eqb_eq in E as ->.
    destruct (split_char c s) as [|w ws] eqn:Hs; [by destruct s; simpl in *; try destruct (_ =? _)%N; try destruct (split_char _ _)|].
    simpl. simpl in IH. by rewrite IH.
  - destruct (split_char c s) as [|w ws] eqn:Hs.
    + by destruct s; simpl in *; try destruct (_ =? _)%N; try destruct (split_char _ _).
    + simpl in *. destruct ws; simpl in *; by rewrite <- IH.
Qed.

(** ** Text that is not whitespace *)

Lemma has_text_nonempty (s : pystr) : has_text s → nonempty s = true.
Proof. intros (c & Hc & _). destruct s; [by apply elem_of_nil in Hc|done]. Qed.

Lemma has_text_cons (c : N) (s : pystr) :
  has_text (c :: s) ↔ is_space c = false ∨ has_text s.
Proof.
  unfold has_text. split.
  - intros (x & Hx & Hs). apply elem_of_cons in Hx as [->|Hx]; eauto.
  - intros [Hc|(x & Hx & Hs)]; [exists c|exists x]; split; auto; constructor; done.
Qed.

Lemma has_text_app (s1 s2 : pystr) :
  has_text (s1 ++ s2) ↔ has_text s1 ∨ has_text s2.
Proof.
  unfold has_text. split.
  - intros (x & Hx & Hs). apply elem_of_app in Hx as [Hx|Hx]; eauto.
  - intros [(x & Hx & Hs)|(x & Hx & Hs)]; exists x; split; auto;
      apply elem_of_app; auto.
Qed.

Lemma has_text_reverse (s : pystr) : has_text (reverse s) ↔ has_text s.
Proof. unfold has_text. by setoid_rewrite elem_of_reverse. Qed.

Lemma has_text_lstrip (s : pystr) : has_text (lstrip s) ↔ has_text s.
Proof.
  induction s as [|c s IH]; [done|]. simpl.
  destruct (is_space c) eqn:E; [|done].
  rewrite IH, has_text_cons. split; [auto|]. intros [?|?]; [congruence|done].
Qed.

Lemma has_text_strip (s : pystr) : has_text (strip s) ↔ has_text s.
Proof.
  unfold strip, rstrip.
  by rewrite has_text_reverse, has_text_lstrip, has_text_reverse, has_text_lstrip.
Qed.

Lemma lstrip_has_text (s : pystr) : lstrip s ≠ [] → has_text (lstrip s).
Proof.
  induction s as [|c s IH]; [done|]. simpl.
  destruct (is_space c) eqn:E; [done|]. intros _. apply has_text_cons. by left.
Qed.

Lemma strip_has_text (s : pystr) : nonempty (strip s) = true → has_text s.
Proof.
  intros Hs. apply nonempty_true in Hs. apply has_text_strip.
  unfold strip, rstrip in *. apply has_text_reverse, lstrip_has_text.
  intros Hn. apply Hs. by rewrite Hn.
Qed.

Lemma split_ws_aux_nonempty (cur s : pystr) :
  cur ≠ [] ∨ has_text s → split_ws_aux cur s ≠ [].
Proof.
  revert cur. induction s as [|c s IH]; intros cur Hc; simpl.
  - destruct Hc as [Hc|(x & Hx & _)]; [|by apply elem_of_nil in Hx].
    by rewrite bool_decide_eq_false_2.
  - destruct (is_space c) eqn:E.
    + destruct (bool_decide (cur = [])) eqn:E'; [|done].
      apply bool_decide_eq_true in E'. apply IH. right.
      destruct Hc as [?|Hc]; [done|].
      apply has_text_cons in Hc as [?|?]; [congruence|done].
    + apply IH. by left.
Qed.

(** ** The sentences of a text *)

Lemma split_sentences_loop_has_text (current text : pystr) :
  Forall has_text (SemanticChunker._split_sentences_loop current text).
Proof.
  revert current. induction text as [|c text IH]; intros current; simpl.
  - destruct (nonempty current); [|constructor].
    destruct (nonempty (strip current)) eqn:E; [|constructor].
    constructor; [|constructor]. apply has_text_strip. by apply strip_has_text.
  - destruct (bool_decide _); [|apply IH].
    apply Forall_app. split; [|apply IH].
    destruct (nonempty (strip (current ++ [c]))) eqn:E; [|constructor].
    constructor; [|constructor]. apply has_text_strip. by apply strip_has_text.
Qed.

Lemma split_sentences_loop_nonempty (current text : pystr) :
  has_text current ∨ has_text text →
  SemanticChunker._split_sentences_loop current text ≠ [].
Proof.
  revert current. induction text as [|c text IH]; intros current Ht; simpl.
  - destruct Ht as [Ht|(x & Hx & _)]; [|by apply elem_of_nil in Hx].
    rewrite (has_text_nonempty _ Ht).
    apply has_text_strip, has_text_nonempty in Ht. by rewrite Ht.
  - assert (Hc : has_text (current ++ [c]) ∨ has_text text).
    { rewrite has_text_app. rewrite has_text_cons in Ht.
      destruct Ht as [?|[?|?]]; auto. left. right. apply has_text_cons. auto. }
    destruct (bool_decide _); [|by apply IH].
    destruct Hc as [Hc|Hc].
    + apply has_text_strip, has_text_nonempty in Hc. by rewrite Hc.
    + intros Hn. apply app_eq_nil in Hn as [_ Hn]. revert Hn. apply IH. by right.
Qed.

(** ** At least one chunk *)

Lemma snoc_not_nil {X} (l : list X) (x : X) : l ++ [x] ≠ [].
Proof. by destruct l. Qed.

Section SemanticNonEmpty.
Context {A : Type} (emit : Body → A) (self : SemanticChunker.t).

Lemma sem_split_long_loop_nonempty words cw cl :
  words ≠ [] ∨ cw ≠ [] →
  SemanticChunker._split_long_loop emit self words cw cl ≠ [].
Proof.
  revert cw cl. induction words as [|w words IH]; intros cw cl H; simpl.
  - destruct H as [?|H]; [done|]. by destruct cw.
  - split_tests; z_tests; try done; apply IH; right;
      first [done | apply snoc_not_nil].
Qed.

Lemma sem_chunk_section_loop_nonempty sentences cur len :
  Forall has_text sentences → sentences ≠ [] ∨ cur ≠ [] →
  SemanticChunker._chunk_section_loop emit self sentences cur len ≠ [].
Proof.
  revert cur len. induction sentences as [|s sentences IH]; intros cur len Hs H; simpl.
  - destruct H as [?|H]; [done|]. by destruct cur.
  - apply Forall_cons in Hs as [Hs Hss].
    split_tests; z_tests; try done;
      first [ apply IH; [done|right; first [done | apply snoc_not_nil]]
            | intros Hn; apply app_eq_nil in Hn as [Hn _]; revert Hn;
              apply sem_split_long_loop_nonempty; left;
              apply split_ws_aux_nonempty; by right ].
Qed.

Lemma sem_chunk_section_with_nonempty c ct :
  _count_tokens c ≤ chunk_size self ∨ ct = CODE_BLOCK ∨ ct = TABLE ∨ has_text c →
  SemanticChunker._chunk_section_with emit self c ct ≠ [].
Proof.
  intros H. unfold SemanticChunker._chunk_section_with.
  split_tests; z_tests; try done.
  apply sem_chunk_section_loop_nonempty; [apply split_sentences_loop_has_text|].
  left. apply split_sentences_loop_nonempty. right.
  destruct H as [?|[->|[->|?]]]; [lia|done|done|done].
Qed.

End SemanticNonEmpty.

Section StructureNonEmpty.
Context {A : Type} (emit : Body → ContentType → gmap string PyVal → A)
  (self : StructureChunker.t).

Lemma struct_split_lines_loop_nonempty ct lines cur tokens :
  lines ≠ [] ∨ cur ≠ [] →
  StructureChunker._split_lines_loop emit self ct lines cur tokens ≠ [].
Proof.
  revert cur tokens. induction lines as [|l lines IH]; intros cur tokens H; simpl.
  - destruct H as [?|H]; [done|]. by destruct cur.
  - split_tests; z_tests; try done; apply IH; right;
      first [done | apply snoc_not_nil].
Qed.

Lemma split_char_nonempty c s : split_char c s ≠ [].
Proof. destruct s; simpl; [done|]. destruct (_ =? _)%N; [done|]. by destruct (split_char _ _). Qed.

Lemma struct_split_large_content_nonempty c ct :
  StructureChunker._split_large_content_with emit self c ct ≠ [].
Proof.
  unfold StructureChunker._split_large_content_with.
  destruct (is_atomic ct); [done|].
  apply struct_split_lines_loop_nonempty. left. apply split_char_nonempty.
Qed.

Lemma struct_chunk_parts_loop_nonempty parts cur tokens types :
  parts ≠ [] ∨ cur ≠ [] →
  StructureChunker._chunk_parts_loop emit self parts cur tokens types ≠ [].
Proof.
  revert cur tokens types.
  induction parts as [|[[c ct] md] parts IH]; intros cur tokens types H; simpl.
  - destruct H as [?|H]; [done|]. by destruct cur.
  - split_tests; z_tests; try done;
      first [ apply IH; right; first [done | apply snoc_not_nil]
            | intros Hn; apply app_eq_nil in Hn as [Hn _];
              by apply struct_split_large_content_nonempty in Hn ].
Qed.

Lemma struct_chunk_section_group_nonempty sections :
  sections ≠ [] →
  StructureChunker._chunk_section_group_with emit self sections ≠ [].
Proof.
  intros H. unfold StructureChunker._chunk_section_group_with.
  destruct (_ <=? _); [done|].
  apply struct_chunk_parts_loop_nonempty. left. by destruct sections.
Qed.

End StructureNonEmpty.

Lemma group_sections_loop_groups sections h cs :
  Forall (λ g : list pystr * list ParsedSection, g.2 ≠ [])
    (StructureChunker._group_sections_loop sections h cs).
Proof.
  revert h cs. induction sections as [|s sections IH]; intros h cs; simpl.
  - destruct (nonempty cs) eqn:E; [|constructor].
    apply nonempty_true in E. by repeat constructor.
  - split_tests; rewrite ?Forall_app; repeat split; try apply IH;
      try constructor; try constructor; simpl; by apply nonempty_true.
Qed.

Lemma group_sections_loop_nonempty sections h cs :
  cs ≠ [] ∨ (∃ s, s ∈ sections ∧ content_type s ≠ HEADING) →
  StructureChunker._group_sections_loop sections h cs ≠ [].
Proof.
  intros H Hn. apply (f_equal (flat_map snd)) in Hn.
  rewrite group_sections_loop_sections in Hn. simpl in Hn.
  apply app_eq_nil in Hn as [-> Hn].
  destruct H as [?|(s & Hs & Ht)]; [done|].
  assert (Hin : s ∈ filter (λ s, content_type s ≠ HEADING) sections)
    by (apply list_elem_of_filter; done).
  rewrite Hn in Hin. by apply elem_of_nil in Hin.
Qed.

Lemma stamp_nonempty uuid ds : ds ≠ [] → stamp uuid ds ≠ [].
Proof. by destruct ds. Qed.

Lemma flat_map_nonempty {X Y} (f : X → list Y) (l : list X) (x : X) :
  x ∈ l → f x ≠ [] → flat_map f l ≠ [].
Proof.
  induction l as [|y l IH]; intros Hx Hf; [by apply elem_of_nil in Hx|].
  simpl. intros Hn. apply app_eq_nil in Hn as [Hy Hl].
  apply elem_of_cons in Hx as [->|Hx]; [done|by apply IH].
Qed.

Lemma semantic_nonempty (self : SemanticChunker.t) uuid doc id :
  (∃ s, s ∈ sections doc ∧
        (_count_tokens (content s) ≤ chunk_size self ∨ content_type s = CODE_BLOCK
         ∨ content_type s = TABLE ∨ has_text (content s))) →
  SemanticChunker.chunk self uuid doc id ≠ [].
Proof.
  intros (s & Hs & H). apply stamp_nonempty.
  apply (flat_map_nonempty _ _ s Hs).
  by apply sem_chunk_section_with_nonempty.
Qed.

Lemma structure_nonempty (self : StructureChunker.t) uuid doc id :
  (∃ s, s ∈ sections doc ∧ content_type s ≠ HEADING) →
  StructureChunker.chunk self uuid doc id ≠ [].
Proof.
  intros H. apply stamp_nonempty. unfold StructureChunker.chunk_drafts.
  pose proof (group_sections_loop_groups (sections doc) [] []) as Hg.
  pose proof (group_sections_loop_nonempty (sections doc) [] [] (or_intror H)) as Hn.
  unfold StructureChunker._group_sections_by_hierarchy.
  destruct (StructureChunker._group_sections_loop (sections doc) [] [])
    as [|g groups]; [done|].
  apply Forall_cons in Hg as [Hg _].
  apply (flat_map_nonempty _ _ g); [by left|].
  by apply struct_chunk_section_group_nonempty.
Qed.

(** ** Insertion-ordered dictionaries *)

Section DictFacts.
Context {K V : Type} `{EqDecision K}.
Implicit Types (d : list (K * V)) (k : K) (v : V).

Lemma dict_get_set_eq k v d : dict_get k (dict_set k v d) = Some v.
Proof.
  induction d as [|[k' v'] d IH]; simpl.
  - by rewrite decide_True.
  - destruct (decide (k = k')) as [->|Hne]; simpl.
    + by rewrite decide_True.
    + by rewrite decide_False.
Qed.

Lemma dict_get_set_ne k k' v d :
  k ≠ k' → dict_get k' (dict_set k v d) = dict_get k' d.
Proof.
  intros Hne. induction d as [|[k0 v0] d IH]; simpl.
  - rewrite decide_False; [done|]. by intros ->.
  - destruct (decide (k = k0)) as [->|Hne0]; simpl.
    + rewrite !decide_False; [done| |]; by intros ->.
    + by rewrite IH.
Qed.

Lemma dict_get_elem k d : k ∈ d.*1 ↔ is_Some (dict_get k d).
Proof.
  induction d as [|[k0 v0] d IH]; simpl.
  - split; [by intros ?%elem_of_nil|by intros [? ?]].
  - rewrite elem_of_cons. destruct (decide (k = k0)) as [->|Hne].
    + split; eauto.
    + rewrite IH. split; [by intros [?|?]|auto].
Qed.


Lemma dict_set_keys k v d :
  (dict_set k v d).*1 = if decide (k ∈ d.*1) then d.*1 else d.*1 ++ [k].
Proof.
  induction d as [|[k0 v0] d IH].
  - destruct (decide (k ∈ ([] : list (K * V)).*1)) as [Hk|Hk];
      [by apply elem_of_nil in Hk|done].
  - cbn [dict_set]. destruct (decide (k = k0)) as [->|Hne].
    + destruct (decide (k0 ∈ ((k0, v0) :: d).*1)) as [Hk|Hk]; [done|].
      exfalso. apply Hk. by left.
    + destruct (decide (k ∈ ((k0, v0) :: d).*1)) as [Hk'|Hk'];
        rewrite !fmap_cons, IH; cbn [fst];
        destruct (decide (k ∈ d.*1)) as [Hk|Hk]; try done.
      * apply elem_of_cons in Hk' as [?|?]; done.
      * exfalso. apply Hk'. by right.
Qed.

Lemma dict_set_NoDup k v d : NoDup d.*1 → NoDup (dict_set k v d).*1.
Proof.
  intros Hnd. rewrite dict_set_keys. destruct (decide _); [done|].
  apply NoDup_app. repeat split; [done| |apply NoDup_singleton].
  intros x Hx ->%list_elem_of_singleton. done.
Qed.

End DictFacts.

(** ** Sorting by decreasing key *)

Section SortedFacts.
Context {X F : Type} (lt : F → F → bool) (key : X → F).
Context (lt_asym : ∀ x y, lt x y = true → lt y x = false).
Context (lt_negtrans : ∀ x y z, lt x y = false → lt y z = false → lt x z = false).

Local Abbreviation ge := (λ a b : X, lt (key a) (key b) = false).

Lemma insert_desc_perm x xs : insert_desc lt key x xs ≡ₚ x :: xs.
Proof.
  induction xs as [|y ys IH]; simpl; [done|].
  destruct (lt _ _); [|done]. rewrite IH. apply Permutation_swap.
Qed.

Lemma sorted_desc_perm xs : sorted_desc lt key xs ≡ₚ xs.
Proof.
  induction xs as [|x xs IH]; simpl; [done|].
  unfold sorted_desc in *. simpl. by rewrite insert_desc_perm, IH.
Qed.



End SortedFacts.




Lemma py_take_elem {X} (x : X) n xs : x ∈ py_take n xs → x ∈ xs.
Proof.
  unfold py_take. destruct (_ <=? _); intros Hx;
    by eapply subseteq_take.
Qed.

Lemma py_take_length {X} n (xs : list X) :
  0 ≤ n → Z.of_nat (length (py_take n xs)) ≤ n.
Proof.
  intros Hn. unfold py_take. rewrite (proj2 (Z.leb_le 0 n) Hn).
  rewrite length_take. lia.
Qed.

Lemma Forall2_elem_l {X Y} (P : X → Y → Prop) xs ys x :
  Forall2 P xs ys → x ∈ xs → ∃ y, y ∈ ys ∧ P x y.
Proof.
  induction 1 as [|x' y' xs ys Hxy _ IH]; intros Hx; [by apply elem_of_nil in Hx|].
  apply elem_of_cons in Hx as [->|Hx].
  - exists y'. split; [by left|done].
  - destruct (IH Hx) as (y & ? & ?). exists y. split; [by right|done].
Qed.

(** ** Reciprocal rank fusion *)

Section RRF.
Context {F : Type} `{FloatOps F}.

Context (self : HybridRetriever F).



Lemma add_score_is_Some cid x scores id :
  is_Some (dict_get id (add_score cid x scores))
  ↔ cid = id ∨ is_Some (dict_get id scores).
Proof.
  unfold add_score. destruct (decide (cid = id)) as [->|Hne].
  - rewrite dict_get_set_eq. split; eauto.
  - rewrite dict_get_set_ne by done. split; [auto|]. by intros [?|?].
Qed.








Lemma rrf_build_spec result_map sorted_scores :
  (∀ p, p ∈ sorted_scores → is_Some (dict_get p.1 result_map)) →
  (∀ id r, dict_get id result_map = Some r → r_chunk_id r = id) →
  ∃ combined, rrf_build result_map sorted_scores = Some combined ∧
    Forall2 (λ r (p : PyVal * F),
        r_chunk_id r = p.1 ∧ r_score r = p.2 ∧ r_source r = lit "hybrid")
      combined sorted_scores.
Proof.
  intros Hk Hid. induction sorted_scores as [|[id s] l IH]; simpl.
  - exists []. split; [done|constructor].
  - destruct (Hk (id, s) ltac:(by left)) as [r Hr]. simpl in Hr. rewrite Hr.
    destruct IH as (combined & -> & HF).
    { intros p Hp. apply Hk. by right. }
    eexists. split; [done|]. constructor; [|done]. simpl. eauto.
Qed.

End RRF.

Section Fusion.
Context {F : Type} `{FloatOrder F}.



End Fusion.

(** ** Deduplication *)

Section Dedup.
Context {F : Type}.
Implicit Types (l pre : list (RetrievalResult F)) (seen : list PyVal).

Lemma filter_imap_shift {X} (l : list X) :
  ∀ (P : nat * X → Prop) (HP : ∀ p, Decision (P p)) (f : nat → nat),
    (filter P (imap (λ i x, (f i, x)) l)).*2
    = (filter (λ ir, P (f ir.1, ir.2)) (imap pair l)).*2.
Proof.
  induction l as [|x l IH]; intros P HP f; [done|].
  rewrite !imap_cons, !filter_cons. simpl.
  assert (Htail : (filter P (imap ((λ i x, (f i, x)) ∘ S) l)).*2
                  = (filter (λ ir, P (f ir.1, ir.2)) (imap (pair ∘ S) l)).*2).
  { etrans; [exact (IH P _ (f ∘ S))|].
    symmetry. exact (IH (λ ir, P (f ir.1, ir.2)) _ S). }
  destruct (decide (P (f 0%nat, x))); rewrite ?fmap_cons; cbn [snd];
    by rewrite Htail.
Qed.

Lemma keep_first_from_cons pre r l :
  keep_first_from pre (r :: l)
  = (if decide (r_chunk_id r ∈ r_chunk_id <$> pre) then [] else [r])
      ++ keep_first_from (pre ++ [r]) l.
Proof.
  unfold keep_first_from. rewrite imap_cons, filter_cons.
  assert (Htail :
    (filter (λ ir : nat * RetrievalResult F,
               r_chunk_id ir.2 ∉ r_chunk_id <$> (pre ++ take ir.1 (r :: l)))
       (imap (pair ∘ S) l)).*2
    = (filter (λ ir : nat * RetrievalResult F,
                 r_chunk_id ir.2 ∉ r_chunk_id <$> ((pre ++ [r]) ++ take ir.1 l))
         (imap pair l)).*2).
  { etrans; [exact (filter_imap_shift l _ _ S)|].
    f_equal. apply list_filter_iff.
    intros [i x]. simpl. by rewrite <- app_assoc. }
  cbn [fst snd take]. rewrite app_nil_r.
  destruct (decide (r_chunk_id r ∉ r_chunk_id <$> pre)) as [Hn|Hn].
  - rewrite decide_False by done. rewrite fmap_cons. cbn [snd app].
    by rewrite Htail.
  - rewrite decide_True by (by apply dec_stable). cbn [app]. by rewrite Htail.
Qed.

Lemma dedup_loop_keep_first seen pre l :
  (∀ id, id ∈ seen ↔ id ∈ r_chunk_id <$> pre) →
  dedup_loop seen l = keep_first_from pre l.
Proof.
  revert seen pre. induction l as [|r l IH]; intros seen pre Hseen; [done|].
  rewrite keep_first_from_cons. simpl.
  destruct (decide (r_chunk_id r ∈ seen)) as [Hin|Hin].
  - rewrite decide_True by (by apply Hseen). simpl. apply IH.
    intros id. rewrite Hseen, fmap_app, elem_of_app. simpl.
    rewrite list_elem_of_singleton. split; [auto|].
    intros [?| ->]; [done|by apply Hseen].
  - rewrite decide_False by (by rewrite <- Hseen). simpl. f_equal. apply IH.
    intros id. rewrite elem_of_cons, Hseen, fmap_app, elem_of_app. simpl.
    rewrite list_elem_of_singleton. tauto.
Qed.

Lemma dedup_loop_first_occurrences l : dedup_loop [] l = first_occurrences l.
Proof. by apply (dedup_loop_keep_first [] []). Qed.

Lemma dedup_loop_elem seen l x :
  x ∈ dedup_loop seen l → x ∈ l ∧ r_chunk_id x ∉ seen.
Proof.
  revert seen. induction l as [|r l IH]; intros seen; simpl.
  - by intros ?%elem_of_nil.
  - destruct (decide _) as [Hin|Hin].
    + intros [? ?]%IH. split; [by right|done].
    + intros [-> |[? Hx]%IH]%elem_of_cons; [split; [by left|done]|].
      split; [by right|]. intros ?. apply Hx. by right.
Qed.


End Dedup.

(** ** Cross-references *)

Section CrossRef.
Context {F : Type} `{FloatOps F} {Vec : Type}.
Context (embed_query : pystr → Vec).
Context (search : Vec → Z → option (gmap string PyVal) → list (Hit F)).
Context (self : CrossRefRetriever).

Lemma payload_metadata_lookup (p : gmap string PyVal) (k : string) :
  k ≠ "chunk_id"%string → k ≠ "document_id"%string → k ≠ "content"%string →
  payload_metadata p !! k = p !! k.
Proof.
  intros H1 H2 H3. unfold payload_metadata.
  destruct (p !! k) as [v|] eqn:E.
  - by apply map_lookup_filter_Some_2.
  - apply map_lookup_filter_None. by left.
Qed.









End CrossRef.

(** ** Heading hierarchy *)

Section Markdown.
Import Re MarkdownParser.
Context (U : UnicodeDB).

Lemma removelast_take {X} (l : list X) : removelast l = take (length l - 1)%nat l.
Proof.
  induction l as [|x l IH]; [done|]. destruct l as [|y l]; [done|].
  change (removelast (x :: y :: l)) with (x :: removelast (y :: l)).
  rewrite IH. simpl. by rewrite Nat.sub_0_r.
Qed.

Lemma pop_hierarchy_take fuel level (h : list pystr) :
  (length h ≤ fuel)%nat →
  pop_hierarchy fuel level h = take (Z.to_nat (level - 1)) h.
Proof.
  revert h. induction fuel as [|fuel IH]; intros h Hf; simpl.
  - destruct h; [by rewrite take_nil|simpl in Hf; lia].
  - destruct (_ >=? _) eqn:E.
    + apply Z.geb_le in E. rewrite IH.
      * rewrite removelast_take, take_take. f_equal. lia.
      * rewrite removelast_take, length_take. lia.
    + rewrite Z.geb_leb in E. apply Z.leb_gt in E.
      rewrite take_ge; [done|lia].
Qed.

Lemma update_hierarchy_take level text (h : list pystr) :
  update_hierarchy level text h = take (Z.to_nat (level - 1)) h ++ [text].
Proof. unfold update_hierarchy. by rewrite pop_hierarchy_take. Qed.

Lemma detect_content_type_not_heading c : _detect_content_type U c ≠ HEADING.
Proof. unfold _detect_content_type. by repeat case_bool_decide. Qed.

Lemma create_sections_hierarchy c heading level h code_blocks :
  Forall (content_section_of h)
    (_create_sections_from_content U c heading level h code_blocks).
Proof.
  revert c. induction code_blocks as [|[p [lang code]] cbs IH]; intros c; simpl.
  - destruct (nonempty _); repeat constructor. simpl. apply detect_content_type_not_heading.
  - destruct (contains _ _); [|apply IH].
    apply Forall_app. split.
    + destruct (nonempty _); repeat constructor. simpl.
      apply detect_content_type_not_heading.
    + constructor; [by split|apply IH].
Qed.

Lemma parse_lines_end code_blocks h lines heading level :
  Forall (content_section_of h)
    (_parse_lines U code_blocks [] h lines heading level).
Proof.
  simpl. destruct (nonempty lines); [|constructor].
  destruct (nonempty _); [|constructor]. apply create_sections_hierarchy.
Qed.

Lemma parse_lines_heading code_blocks line rest h lines heading level m :
  rmatch (HEADING_PATTERN) line = Some m →
  let level' := Z.of_nat (length (group 1 m)) in
  let text := strip (group 2 m) in
  let h' := update_hierarchy level' text h in
  ∃ flushed,
    _parse_lines U code_blocks (line :: rest) h lines heading level
    = flushed
        ++ {| content := line; content_type := HEADING;
              heading_level := Some level'; heading_text := Some text;
              section_hierarchy := h'; metadata := ∅; page_number := None;
              code_language := None |}
        :: _parse_lines U code_blocks rest h' [] (Some text) (Some level') ∧
    Forall (content_section_of h) flushed.
Proof.
  intros Hm. simpl. rewrite Hm. eexists. split; [reflexivity|].
  destruct (_ || _); [|constructor].
  destruct (_ || _); [|constructor]. apply create_sections_hierarchy.
Qed.

Lemma parse_lines_body code_blocks body rest h lines heading level :
  Forall (λ l, rmatch (HEADING_PATTERN) l = None) body →
  _parse_lines U code_blocks (body ++ rest) h lines heading level
  = _parse_lines U code_blocks rest h (lines ++ body) heading level.
Proof.
  intros Hb. revert lines. induction Hb as [|l body Hl _ IH]; intros lines.
  - by rewrite app_nil_r.
  - simpl. rewrite Hl, IH. by rewrite <- app_assoc.
Qed.

Lemma pop_levels_well_nested L stack :
  well_nested stack →
  pop_levels L stack = drop (length stack - Z.to_nat (L - 1))%nat stack.
Proof.
  unfold well_nested. induction stack as [|[l t] below IH]; intros Hw; [done|].
  rewrite fmap_cons in Hw. cbn [length] in Hw. rewrite seq_S, reverse_app in Hw.
  simpl in Hw. injection Hw as Hl Hw. simpl.
  destruct (l >=? L) eqn:E.
  - apply Z.geb_le in E. rewrite IH by done.
    replace (S (length below) - Z.to_nat (L - 1))%nat
      with (S (length below - Z.to_nat (L - 1)))%nat by lia.
    done.
  - rewrite Z.geb_leb in E. apply Z.leb_gt in E.
    replace (S (length below) - Z.to_nat (L - 1))%nat with 0%nat by lia.
    done.
Qed.

Lemma push_heading_well_nested L text stack :
  well_nested stack →
  hierarchy_of_stack (push_heading_spec L text stack)
  = update_hierarchy L text (hierarchy_of_stack stack).
Proof.
  intros Hw. unfold push_heading_spec, hierarchy_of_stack.
  rewrite update_hierarchy_take, pop_levels_well_nested by done.
  rewrite fmap_cons, reverse_cons. f_equal. simpl.
  rewrite fmap_drop, take_reverse, length_fmap. done.
Qed.

End Markdown.

(** ** The claims on the chunkers, the payload, the extractor and the parser *)

Lemma payload_fixed_lookup (c : Chunk) (k : string) :
  payload_fixed c !! k = fixed_entry c k.
Proof.
  unfold payload_fixed, fixed_entry.
  repeat (case_decide; [subst; by simplify_map_eq|]).
  by simplify_map_eq.
Qed.

(** The payload of a chunk without a [document_id] among its metadata
    carries the one of the chunk: the store holds a [document_id] for every
    chunk that the ingestion wrote. *)
Lemma to_payload_document_id (c : Chunk) :
  is_Some (to_payload c !! "document_id").
Proof.
  unfold to_payload, dict_update. rewrite lookup_union, payload_fixed_lookup.
  destruct (chunk_metadata c !! "document_id"); simpl; eauto.
Qed.

(** C10.  The payload of a chunk holds, under a key, the value that the
    metadata of the chunk has for it, and for a key without metadata the
    fixed entry: [chunk_id], [document_id], [content], [content_type] (the
    string of the enumeration member) or [section_hierarchy], and nothing
    for any other key.  So the five fixed entries are extended with every
    entry of the metadata, and a metadata entry under one of the five keys
    replaces the fixed one. *)
Theorem to_payload_entries (c : Chunk) (k : string) :
  to_payload c !! k =
    match chunk_metadata c !! k with
    | Some v => Some v
    | None => fixed_entry c k
    end.
Proof.
  unfold to_payload, dict_update.
  rewrite lookup_union, payload_fixed_lookup.
  destruct (chunk_metadata c !! k), (fixed_entry c k); reflexivity.
Qed.

(** C1, as the code has it.  The chunks of either strategy are the
    renderings of their bodies (in the hierarchy strategy behind the
    hierarchy prefix), and it is the body that is within budget: a section
    kept whole is within [chunk_size] or is a CODE_BLOCK or TABLE; the units
    joined into a chunk (sections, sentences, lines, words) have estimates
    that sum to at most [chunk_size], plus in the sentence strategy at most
    [chunk_overlap] for the sentences carried over, unless the chunk is one
    unit whose own estimate is over [chunk_size]. *)
Theorem chunk_budget :
  (∀ (self : SemanticChunker.t) uuid doc id,
     Forall2 (λ c b,
         chunk_content c = render b ∧
         within_budget (chunk_size self + Z.max 0 (chunk_overlap self))
           (chunk_size self) b (chunk_content_type c))
       (SemanticChunker.chunk self uuid doc id)
       (SemanticChunker.chunk_bodies self doc)) ∧
  (∀ (self : StructureChunker.t) uuid doc id,
     Forall2 (λ c bt,
         (chunk_content c
            = StructureChunker.with_heading_prefix self
                (chunk_section_hierarchy c) (render bt.1)
          ∧ chunk_content_type c = bt.2) ∧
         within_budget (chunk_size self) (chunk_size self) bt.1 bt.2)
       (StructureChunker.chunk self uuid doc id)
       (StructureChunker.chunk_bodies self doc)).
Proof. split; [apply semantic_budget|apply structure_budget]. Qed.

(** C1 fails as stated.  With [chunk_size = 2] the sentence strategy makes
    of three one-token sentences a first chunk of two sentences whose text,
    joined by a space, is estimated at 3 tokens; with [chunk_size = 4] the
    hierarchy strategy merges two sections of 2 tokens into a chunk of 5.
    Both chunks are TEXT and hold several sentences, lines and words. *)
Lemma chunk_over_budget :
  (∃ c, c ∈ SemanticChunker.chunk (semantic 2 0) no_uuid
              (document_of
                 [text_section ("a" ++ nl ++ "b.c" ++ nl ++ "d.e" ++ nl ++ "f.") []])
              (lit "d") ∧
        2 < _count_tokens (chunk_content c) ∧
        chunk_content_type c = TEXT ∧
        (1 < length (SemanticChunker._split_sentences (chunk_content c)))%nat ∧
        (1 < length (split_char 10 (chunk_content c)))%nat ∧
        (1 < length (split_ws (chunk_content c)))%nat) ∧
  (∃ c, c ∈ StructureChunker.chunk (structure 4 false) no_uuid
              (document_of [text_section "ab. cd." []; text_section "ef. gh." []])
              (lit "d") ∧
        4 < _count_tokens (chunk_content c) ∧
        chunk_content_type c = TEXT ∧
        (1 < length (SemanticChunker._split_sentences (chunk_content c)))%nat ∧
        (1 < length (split_char 10 (chunk_content c)))%nat ∧
        (1 < length (split_ws (chunk_content c)))%nat).
Proof.
  split.
  - eexists. split; [left|]. vm_compute. repeat split; lia.
  - eexists. split; [left|]. vm_compute. repeat split; lia.
Qed.

(** C2, as the code has it.  Sentence strategy: the chunks are the
    renderings of the bodies of the sections, in order, and the bodies of a
    section tile its units (the section itself, or its sentences, with the
    words of a sentence over budget): every unit is in a chunk, in order,
    and a chunk repeats at its start only units that end the chunk before
    it.  Hierarchy strategy: the chunks are the renderings of the bodies
    behind the prefix, and the units of the bodies, in order, are exactly
    the units of the sections that are not headings (a section, or its
    lines, which joined by a newline give the section back); the content of
    a HEADING section is in no chunk. *)
Theorem chunk_cover :
  (∀ (self : SemanticChunker.t) uuid doc id,
     Forall2 (λ c b, chunk_content c = render b)
       (SemanticChunker.chunk self uuid doc id)
       (flat_map (SemanticChunker.section_bodies self) (sections doc)) ∧
     Forall (λ section,
         tiles [] (body_units <$> SemanticChunker.section_bodies self section)
           (sem_units self section))
       (sections doc)) ∧
  (∀ (self : StructureChunker.t) uuid doc id,
     Forall2 (λ c bt,
         chunk_content c
           = StructureChunker.with_heading_prefix self
               (chunk_section_hierarchy c) (render bt.1))
       (StructureChunker.chunk self uuid doc id)
       (StructureChunker.chunk_bodies self doc) ∧
     units_of (StructureChunker.chunk_bodies self doc)
       = flat_map (struct_units self)
           (filter (λ s, content_type s ≠ HEADING) (sections doc)) ∧
     Forall (λ section, join [10%N] (struct_units self section) = content section)
       (sections doc)).
Proof.
  split.
  - intros self uuid doc id. split.
    + eapply Forall2_impl; [apply semantic_budget|]. by intros c b [? _].
    + apply Forall_forall. intros s _. apply semantic_section_tiles.
  - intros self uuid doc id. split; [|split].
    + eapply Forall2_impl; [apply structure_budget|]. by intros c b [[? _] _].
    + apply structure_cover.
    + apply Forall_forall. intros s _. unfold struct_units.
      destruct (_ && _); [apply join_split_char|done].
Qed.

(** C2 fails as stated.  The sentence strategy carries the sentence
    [aaaaa.] over into the second chunk, so it is in two chunks; the
    hierarchy strategy puts the content of the heading section in no
    chunk. *)
Lemma chunk_cover_fails :
  (∃ c1 c2,
     chunk_content <$>
       SemanticChunker.chunk (semantic 4 2) no_uuid
         (document_of [text_section "aaaaa.bbbbbbbbbbb." []]) (lit "d")
     = [c1; c2] ∧
     c1 = lit "aaaaa." ∧ c2 = lit "aaaaa. bbbbbbbbbbb." ∧
     contains (lit "aaaaa.") c1 = true ∧ contains (lit "aaaaa.") c2 = true) ∧
  (∃ c,
     chunk_content <$>
       StructureChunker.chunk (structure 1000 false) no_uuid
         (document_of [heading_section "# T" 1 "T" [lit "T"];
                       text_section "A." [lit "T"]]) (lit "d")
     = [c] ∧
     c = lit "A." ∧ contains (lit "# T") c = false).
Proof.
  split.
  - exists (lit "aaaaa."), (lit "aaaaa. bbbbbbbbbbb."). vm_compute. done.
  - exists (lit "A."). vm_compute. done.
Qed.

(** C6, as the code has it.  Both [chunk] functions are total: nothing in
    them can raise.  The sentence strategy returns at least one chunk when
    some section is within budget, or is a CODE_BLOCK or TABLE, or has a
    character that is not whitespace; the hierarchy strategy when some
    section is not a heading. *)
Theorem chunk_nonempty :
  (∀ (self : SemanticChunker.t) uuid doc id,
     (∃ s, s ∈ sections doc ∧
           (_count_tokens (content s) ≤ chunk_size self
            ∨ content_type s = CODE_BLOCK ∨ content_type s = TABLE
            ∨ has_text (content s))) →
     SemanticChunker.chunk self uuid doc id ≠ []) ∧
  (∀ (self : StructureChunker.t) uuid doc id,
     (∃ s, s ∈ sections doc ∧ content_type s ≠ HEADING) →
     StructureChunker.chunk self uuid doc id ≠ []).
Proof. split; [apply semantic_nonempty|apply structure_nonempty]. Qed.

Lemma chunk_nonempty_witness :
  SemanticChunker.chunk (semantic 512 50) no_uuid
    (document_of [text_section "Some content." []]) (lit "d") ≠ [] ∧
  StructureChunker.chunk (structure 1024 true) no_uuid
    (document_of [text_section "Some content." []]) (lit "d") ≠ [].
Proof.
  split.
  - apply (proj1 chunk_nonempty). eexists. split; [left|]. left. vm_compute. congruence.
  - apply (proj2 chunk_nonempty). eexists. split; [left|]. simpl. congruence.
Defined.

(** C6 fails as stated.  The Markdown text [# Title] is parsed into one
    section, a heading, and the hierarchy strategy returns no chunk for
    it. *)
Lemma chunk_empty_example :
  sections (MarkdownParser._parse_content ascii_only (lit "# Title") (lit "t.md"))
    = [heading_section "# Title" 1 "Title" [lit "Title"]] ∧
  StructureChunker.chunk (structure 1024 true) no_uuid
    (MarkdownParser._parse_content ascii_only (lit "# Title") (lit "t.md"))
    (lit "d") = [].
Proof. split; vm_compute; reflexivity. Qed.

(** C7, as the code has it.  The sentences carried over from a chunk are
    a suffix of its sentences, the longest one whose estimates sum to at
    most [chunk_overlap]; it may be all of them.  When a sentence within
    budget does not fit after the sentences [cur], the chunk of [cur] is
    emitted and the next chunk starts with the sentences carried over from
    [cur], followed by that sentence. *)
Theorem overlap_carried (self : SemanticChunker.t) (cur : list pystr) :
  let ov := SemanticChunker._get_overlap_sentences self cur in
  ov `suffix_of` cur ∧
  ((ov ≠ []) → sum_tokens ov ≤ chunk_overlap self) ∧
  sum_tokens ov ≤ Z.max 0 (chunk_overlap self) ∧
  (∀ pre x, cur = pre ++ [x] ++ ov →
            chunk_overlap self < sum_tokens ov + _count_tokens x) ∧
  (∀ A (emit : Body → A) s rest len,
     cur ≠ [] → _count_tokens s ≤ chunk_size self →
     chunk_size self < len + _count_tokens s →
     SemanticChunker._chunk_section_loop emit self (s :: rest) cur len
     = emit (Joined (lit " ") cur)
         :: SemanticChunker._chunk_section_loop emit self rest (ov ++ [s])
              (sum_tokens ov + _count_tokens s)).
Proof.
  intros ov. repeat split.
  - apply get_overlap_suffix.
  - intros Hov. by destruct (get_overlap_budget self cur).
  - apply get_overlap_budget_max.
  - apply get_overlap_maximal.
  - intros A emit s rest len Hcur Hs Hlen. simpl.
    assert (H1 : (_count_tokens s >? chunk_size self) = false)
      by (rewrite Z.gtb_ltb; apply Z.ltb_ge; lia).
    assert (H2 : (len + _count_tokens s >? chunk_size self) = true)
      by (apply Z.gtb_lt; lia).
    rewrite H1, H2. by destruct cur.
Qed.

(** C7 fails as stated.  With [chunk_size = 4] and [chunk_overlap = 2] the
    first chunk of the section is the sentence [aaaaa.] of 2 tokens; all of
    it is carried over, and the second chunk is the first one followed by
    the next sentence. *)
Lemma overlap_not_strict :
  SemanticChunker._get_overlap_sentences (semantic 4 2) [lit "aaaaa."]
    = [lit "aaaaa."] ∧
  SemanticChunker.section_bodies (semantic 4 2)
    (text_section "aaaaa.bbbbbbbbbbb." [])
    = [Joined (lit " ") [lit "aaaaa."];
       Joined (lit " ") [lit "aaaaa."; lit "bbbbbbbbbbb."]].
Proof. split; vm_compute; reflexivity. Qed.

Lemma overlap_carried_witness :
  SemanticChunker._chunk_section_loop id (semantic 4 2)
    [lit "bbbbbbbbbbb."] [lit "aaaaa."] 2
  = Joined (lit " ") [lit "aaaaa."]
      :: SemanticChunker._chunk_section_loop id (semantic 4 2) []
           (SemanticChunker._get_overlap_sentences (semantic 4 2) [lit "aaaaa."]
              ++ [lit "bbbbbbbbbbb."])
           (sum_tokens
              (SemanticChunker._get_overlap_sentences (semantic 4 2) [lit "aaaaa."])
            + _count_tokens (lit "bbbbbbbbbbb.")).
Proof.
  apply (overlap_carried (semantic 4 2) [lit "aaaaa."]);
    [congruence | vm_compute; congruence | vm_compute; reflexivity].
Defined.

(** C9 is not what the code does.  On the text of the scenario the
    extractor finds the table [users] and one entry of column definitions,
    but that entry has a single column: the class that ends the type of a
    column in [COLUMN_PATTERN] takes commas and whitespace too, so the type
    of [id] runs on over the second column, up to the first closing
    parenthesis, where the lazy group of the [CREATE TABLE] pattern has cut
    the body. *)
Theorem extract_create_table_users (U : Re.UnicodeDB) :
  TableExtractor.extract_from_text U
    (lit "CREATE TABLE users (id INT PRIMARY KEY, name VARCHAR(50))")
  = {| TableExtractor.table_names := [lit "users"];
       TableExtractor.column_definitions :=
         [{| TableExtractor.cd_table := Some (lit "users");
             TableExtractor.cd_columns :=
               [TableExtractor.DdlColumn (lit "id")
                  (lit "INT PRIMARY KEY, name VARCHAR(50") true true] |}] |}.
Proof. vm_compute. reflexivity. Qed.

(** C3, as the code has it.  The stack holds the heading texts only.  A
    heading line of level [L] gives the sections made of the lines read
    since the last heading (they carry the stack as it was, and none is a
    heading), then the heading section, and the stack becomes its first
    [L - 1] entries followed by the new heading: the entries at depth [L]
    and more are popped, whatever the level of their heading.  Lines that
    are no heading leave the stack as it is, and the sections made at the
    end carry the last stack.  When no heading skipped a level this is what
    popping the entries of level at least [L] gives. *)
Theorem heading_hierarchy (U : Re.UnicodeDB)
    (code_blocks : list (pystr * (pystr * pystr))) :
  (∀ level text h,
     MarkdownParser.update_hierarchy level text h
     = take (Z.to_nat (level - 1)) h ++ [text]) ∧
  (∀ line rest h lines heading level m,
     Re.rmatch MarkdownParser.HEADING_PATTERN line = Some m →
     let level' := Z.of_nat (length (Re.group 1 m)) in
     let text := strip (Re.group 2 m) in
     let h' := MarkdownParser.update_hierarchy level' text h in
     ∃ flushed,
       MarkdownParser._parse_lines U code_blocks (line :: rest) h lines heading level
       = flushed
           ++ {| content := line; content_type := HEADING;
                 heading_level := Some level'; heading_text := Some text;
                 section_hierarchy := h'; metadata := ∅; page_number := None;
                 code_language := None |}
           :: MarkdownParser._parse_lines U code_blocks rest h' []
                (Some text) (Some level') ∧
       Forall (content_section_of h) flushed) ∧
  (∀ body rest h lines heading level,
     Forall (λ l, Re.rmatch MarkdownParser.HEADING_PATTERN l = None) body →
     MarkdownParser._parse_lines U code_blocks (body ++ rest) h lines heading level
     = MarkdownParser._parse_lines U code_blocks rest h (lines ++ body)
         heading level) ∧
  (∀ h lines heading level,
     Forall (content_section_of h)
       (MarkdownParser._parse_lines U code_blocks [] h lines heading level)) ∧
  (∀ L text stack,
     well_nested stack →
     MarkdownParser.hierarchy_of_stack
       (MarkdownParser.push_heading_spec L text stack)
     = MarkdownParser.update_hierarchy L text
         (MarkdownParser.hierarchy_of_stack stack)).
Proof.
  repeat split.
  - apply update_hierarchy_take.
  - intros. by apply parse_lines_heading.
  - intros. by apply parse_lines_body.
  - intros. apply parse_lines_end.
  - intros. by apply push_heading_well_nested.
Qed.

Lemma heading_hierarchy_witness :
  MarkdownParser.hierarchy_of_stack
    (MarkdownParser.push_heading_spec 2 (lit "S2")
       [(2, lit "S1"); (1, lit "T")])
  = MarkdownParser.update_hierarchy 2 (lit "S2")
      (MarkdownParser.hierarchy_of_stack [(2, lit "S1"); (1, lit "T")]).
Proof.
  apply (heading_hierarchy ascii_only []). vm_compute. reflexivity.
Defined.

(** C3 fails as stated.  After a heading of level 3 a heading of level 2
    pops nothing, the stack having one entry: the text below the second
    heading carries both headings, where popping the entries of level at
    least 2 leaves the second heading alone. *)
Lemma heading_levels_not_compared :
  section_hierarchy <$>
    sections (MarkdownParser._parse_content ascii_only
                (lit ("### A" ++ nl ++ "## B" ++ nl ++ "text")) (lit "t.md"))
  = [[lit "A"]; [lit "A"; lit "B"]; [lit "A"; lit "B"]] ∧
  MarkdownParser.hierarchy_of_stack
    (MarkdownParser.push_heading_spec 2 (lit "B")
       (MarkdownParser.push_heading_spec 3 (lit "A") []))
  = [lit "B"].
Proof. split; vm_compute; reflexivity. Qed.

(** The scenario of the specification: two sections under two headings of
    level 2 give two chunks, each behind the path of its headings. *)
Example hierarchy_prefix_scenario :
  chunk_content <$>
    StructureChunker.chunk (structure 1000 true) no_uuid
      (MarkdownParser._parse_content ascii_only
         (lit ("# T" ++ nl ++ nl ++ "## S1" ++ nl ++ nl ++ "A." ++ nl ++ nl
               ++ "## S2" ++ nl ++ nl ++ "B."))
         (lit "t.md"))
      (lit "d")
  = [lit ("T > S1" ++ nl ++ nl ++ "A."); lit ("T > S2" ++ nl ++ nl ++ "B.")].
Proof. vm_compute. reflexivity. Qed.

(** ** The claims on the retrievers, on examples *)

#[global] Instance Q_FloatOrder : FloatOrder Q.
Proof.
  split; simpl.
  - intros x y Hxy. apply negb_true_iff in Hxy. apply negb_false_iff.
    apply Qle_bool_iff. apply Qlt_le_weak, Qnot_le_lt.
    intros Hle. apply Qle_bool_iff in Hle. congruence.
  - intros x y z Hxy Hyz. apply negb_false_iff in Hxy, Hyz. apply negb_false_iff.
    apply Qle_bool_iff in Hxy, Hyz. apply Qle_bool_iff.
    by apply (Qle_trans _ y).
Qed.






(** The fusion at work: the chunk found by both searches comes first. *)
Example fusion_run :
  option_map (map (λ r, (r_chunk_id r, Qred (r_score r), r_source r)))
    (_reciprocal_rank_fusion fusion_example
       [result_example "c1" "A" (Qmake 9 10); result_example "c2" "B" (Qmake 8 10)]
       [result_example "c2" "B" (Qmake 5 10)])
  = Some [(VStr (lit "c2"), Qmake 613 37820, lit "hybrid");
          (VStr (lit "c1"), Qmake 7 610, lit "hybrid")].
Proof. vm_compute. reflexivity. Qed.

(** * Further properties: the code around the claims *)

(** ** Whitespace at the ends of a text *)

Lemma blank_nil : blank [].
Proof. constructor. Qed.

Lemma blank_app (a b : pystr) : blank (a ++ b) ↔ blank a ∧ blank b.
Proof. apply Forall_app. Qed.

Lemma blank_reverse (a : pystr) : blank (reverse a) ↔ blank a.
Proof. unfold blank. rewrite !Forall_forall. by setoid_rewrite elem_of_reverse. Qed.

Lemma lstrip_split (s : pystr) : ∃ ws, blank ws ∧ s = ws ++ lstrip s.
Proof.
  induction s as [|c s (ws & Hws & IH)]; [exists []; split; [constructor|done]|].
  simpl. destruct (is_space c) eqn:E.
  - exists (c :: ws). split; [by constructor|]. simpl. by f_equal.
  - exists []. split; [constructor|done].
Qed.

Lemma rstrip_split (s : pystr) : ∃ ws, blank ws ∧ s = rstrip s ++ ws.
Proof.
  unfold rstrip. destruct (lstrip_split (reverse s)) as (ws & Hws & Hs).
  exists (reverse ws). split; [by apply blank_reverse|].
  rewrite <- reverse_app, <- Hs. by rewrite reverse_involutive.
Qed.

Lemma strip_split (s : pystr) :
  ∃ ws1 ws2, blank ws1 ∧ blank ws2 ∧ s = ws1 ++ strip s ++ ws2.
Proof.
  unfold strip. destruct (lstrip_split s) as (ws1 & H1 & Hs).
  destruct (rstrip_split (lstrip s)) as (ws2 & H2 & Hl).
  exists ws1, ws2. repeat split; try done. by rewrite <- Hl.
Qed.

Lemma strip_blank (s : pystr) : strip s = [] → blank s.
Proof.
  intros Hs. destruct (strip_split s) as (ws1 & ws2 & H1 & H2 & E).
  rewrite E, Hs. simpl. by apply blank_app.
Qed.

Lemma lstrip_head (s : pystr) c s' : lstrip s = c :: s' → is_space c = false.
Proof.
  induction s as [|x s IH]; [done|]. simpl.
  destruct (is_space x) eqn:E; [done|]. by intros [= <- _].
Qed.

Lemma lstrip_id c (s : pystr) : is_space c = false → lstrip (c :: s) = c :: s.
Proof. intros E. simpl. by rewrite E. Qed.

Lemma lstrip_snoc (s : pystr) c :
  is_space c = false → lstrip (s ++ [c]) = lstrip s ++ [c].
Proof.
  intros E. induction s as [|x s IH]; simpl; [by rewrite E|].
  by destruct (is_space x).
Qed.

Lemma rstrip_snoc (s : pystr) c : is_space c = false → rstrip (s ++ [c]) = s ++ [c].
Proof.
  intros E. unfold rstrip. rewrite reverse_app, reverse_singleton. simpl.
  rewrite E. by rewrite reverse_cons, reverse_involutive.
Qed.

Lemma strip_snoc (s : pystr) c :
  is_space c = false → strip (s ++ [c]) = lstrip s ++ [c].
Proof. intros E. unfold strip. by rewrite lstrip_snoc, rstrip_snoc. Qed.

Lemma lstrip_suffix (s : pystr) : lstrip s `suffix_of` s.
Proof. destruct (lstrip_split s) as (ws & _ & E). by exists ws. Qed.

Lemma spaced_blank_l ws parts text :
  blank ws → spaced parts text → spaced parts (ws ++ text).
Proof.
  intros Hws Hs. destruct Hs as [ws' Hws'|ws' s ss rest Hws' Hs].
  - constructor. by apply blank_app.
  - rewrite app_assoc. constructor; [by apply blank_app|done].
Qed.

(** ** The sentences of a text, once more *)

Lemma ending_not_space c : ending c → is_space c = false.
Proof.
  unfold ending, SemanticChunker.SENTENCE_ENDINGS. intros Hc.
  repeat (apply elem_of_cons in Hc as [Hc|Hc];
          [try (injection Hc as ->; reflexivity); try discriminate Hc|]).
  by apply elem_of_nil in Hc.
Qed.

Lemma ending_chars c :
  ending c ↔ c ∈ [12290; 65281; 65311; 46; 33; 63]%N.
Proof.
  unfold ending, SemanticChunker.SENTENCE_ENDINGS. split; intros Hc.
  - repeat (apply elem_of_cons in Hc as [Hc|Hc];
            [try (injection Hc as ->; set_solver); try discriminate Hc|]).
    by apply elem_of_nil in Hc.
  - repeat (apply elem_of_cons in Hc as [->|Hc]; [vm_compute; set_solver|]).
    by apply elem_of_nil in Hc.
Qed.

Lemma lstrip_idem (s : pystr) : lstrip (lstrip s) = lstrip s.
Proof.
  destruct (lstrip s) as [|c s'] eqn:E; [done|].
  apply lstrip_id. by eapply lstrip_head.
Qed.

Lemma rstrip_idem (s : pystr) : rstrip (rstrip s) = rstrip s.
Proof. unfold rstrip. by rewrite reverse_involutive, lstrip_idem. Qed.

Lemma lstrip_rstrip (t : pystr) : lstrip t = t → lstrip (rstrip t) = rstrip t.
Proof.
  intros Ht. destruct (rstrip_split t) as (ws & _ & E).
  destruct (rstrip t) as [|c r]; [done|].
  apply lstrip_id. apply (lstrip_head t c (r ++ ws)). by rewrite Ht, E.
Qed.

Lemma strip_idem (s : pystr) : strip (strip s) = strip s.
Proof.
  unfold strip. rewrite (lstrip_rstrip (lstrip s)) by apply lstrip_idem.
  apply rstrip_idem.
Qed.

Lemma strip_sublist (s : pystr) c : c ∈ strip s → c ∈ s.
Proof.
  intros Hc. destruct (strip_split s) as (ws1 & ws2 & _ & _ & E).
  rewrite E. set_solver.
Qed.

Lemma removelast_sublist {X} (l : list X) x : x ∈ removelast l → x ∈ l.
Proof.
  induction l as [|y l IH]; [done|]. simpl.
  destruct l as [|z l]; [by intros ?%elem_of_nil|].
  intros [->|Hx]%elem_of_cons; [by left|]. right. by apply IH.
Qed.

Lemma split_sentences_loop_spaced (current text : pystr) :
  spaced (SemanticChunker._split_sentences_loop current text) (current ++ text).
Proof.
  revert current. induction text as [|c text IH]; intros current; simpl.
  - rewrite app_nil_r. destruct (nonempty current) eqn:Ec.
    + destruct (nonempty (strip current)) eqn:Es.
      * destruct (strip_split current) as (ws1 & ws2 & H1 & H2 & E).
        rewrite E at 2. constructor; [done|by constructor].
      * constructor. apply strip_blank. by apply nonempty_false.
    + apply nonempty_false in Ec as ->. constructor. constructor.
  - replace (current ++ c :: text) with ((current ++ [c]) ++ text)
      by (by rewrite <- app_assoc).
    destruct (bool_decide _); [|apply IH].
    specialize (IH []). simpl in IH.
    destruct (strip_split (current ++ [c])) as (ws1 & ws2 & H1 & H2 & E).
    destruct (nonempty (strip (current ++ [c]))) eqn:Es; simpl.
    + rewrite E at 2. rewrite <- !app_assoc. constructor; [done|].
      by apply spaced_blank_l.
    + apply spaced_blank_l; [|done]. apply strip_blank. by apply nonempty_false.
Qed.

Lemma split_sentences_loop_shape (current text : pystr) :
  Forall (λ c, ¬ ending c) current →
  Forall sentence_shape (SemanticChunker._split_sentences_loop current text).
Proof.
  revert current. induction text as [|c text IH]; intros current Hcur; simpl.
  - destruct (nonempty current); [|constructor].
    destruct (nonempty (strip current)) eqn:Es; [|constructor].
    constructor; [|constructor]. repeat split.
    + by apply nonempty_true.
    + apply strip_idem.
    + apply Forall_forall. intros x Hx%removelast_sublist%strip_sublist.
      by apply (proj1 (Forall_forall _ _) Hcur).
  - destruct (bool_decide _) eqn:Ee.
    + apply bool_decide_eq_true in Ee.
      apply Forall_app. split; [|apply IH; constructor].
      pose proof (ending_not_space c Ee) as Hc.
      rewrite (strip_snoc _ _ Hc). rewrite nonempty_snoc.
      constructor; [|constructor]. repeat split.
      * apply snoc_not_nil.
      * rewrite (strip_snoc _ _ Hc). by rewrite lstrip_idem.
      * rewrite removelast_last. apply Forall_forall. intros x Hx.
        apply (proj1 (Forall_forall _ _) Hcur).
        destruct (lstrip_suffix current) as [ws ->]. apply elem_of_app. by right.
    + apply bool_decide_eq_false in Ee. apply IH.
      apply Forall_app. split; [done|]. by repeat constructor.
Qed.

Lemma split_sentences_loop_plain (current text : pystr) :
  Forall (λ c, ¬ ending c) text →
  SemanticChunker._split_sentences_loop current text
  = if nonempty (strip (current ++ text)) then [strip (current ++ text)] else [].
Proof.
  revert current. induction text as [|c text IH]; intros current Ht; simpl.
  - rewrite app_nil_r. destruct (nonempty current) eqn:Ec; [done|].
    by apply nonempty_false in Ec as ->.
  - apply Forall_cons in Ht as [Hc Ht].
    rewrite bool_decide_eq_false_2 by done.
    rewrite IH by done. by rewrite <- app_assoc.
Qed.

(** X1.  [_split_sentences] drops nothing but whitespace: the text is made
    of the sentences returned, in order, with only whitespace before,
    between and after them.  Every sentence is stripped and not empty, and
    only its last character can be a sentence ending: a sentence ends at
    the first such character.  The sentence endings are the six
    punctuation characters; the entry of two newlines is never equal to a
    character, so a text without punctuation is a single sentence, blank
    lines or not. *)
Theorem split_sentences_spaced (text : pystr) :
  let sentences := SemanticChunker._split_sentences text in
  spaced sentences text ∧
  Forall (λ s, s ≠ [] ∧ strip s = s ∧ Forall (λ c, ¬ ending c) (removelast s))
    sentences ∧
  (∀ c, ending c ↔ c ∈ [12290; 65281; 65311; 46; 33; 63]%N) ∧
  (Forall (λ c, ¬ ending c) text →
   sentences = if nonempty (strip text) then [strip text] else []).
Proof.
  repeat split.
  - apply (split_sentences_loop_spaced [] text).
  - apply (split_sentences_loop_shape [] text). constructor.
  - by apply ending_chars.
  - by apply ending_chars.
  - apply (split_sentences_loop_plain [] text).
Qed.

(** ** Words *)

Lemma split_ws_aux_word (w cur s : pystr) :
  Forall (λ c, is_space c = false) w →
  split_ws_aux cur (w ++ s) = split_ws_aux (reverse w ++ cur) s.
Proof.
  revert cur. induction w as [|c w IH]; intros cur Hw; [done|].
  apply Forall_cons in Hw as [Hc Hw]. simpl. rewrite Hc, IH by done.
  by rewrite reverse_cons, <- app_assoc.
Qed.

Lemma split_ws_aux_words (cur s : pystr) :
  Forall (λ c, is_space c = false) cur →
  Forall is_word_of_text (split_ws_aux cur s).
Proof.
  revert cur. induction s as [|c s IH]; intros cur Hcur; simpl.
  - case_bool_decide as E; [constructor|].
    constructor; [|constructor]. split.
    + intros Hr. apply E. by rewrite <- (reverse_involutive cur), Hr.
    + by apply Forall_reverse.
  - destruct (is_space c) eqn:Ec.
    + case_bool_decide as E; [by apply IH|].
      constructor; [|by apply IH]. split.
      * intros Hr. apply E. by rewrite <- (reverse_involutive cur), Hr.
      * by apply Forall_reverse.
    + apply IH. by constructor.
Qed.

Lemma split_ws_words (s : pystr) : Forall is_word_of_text (split_ws s).
Proof. apply split_ws_aux_words. constructor. Qed.

Lemma split_ws_join (ws : list pystr) :
  Forall is_word_of_text ws → split_ws (join (lit " ") ws) = ws.
Proof.
  unfold split_ws. induction 1 as [|w ws [Hne Hw] Hws IH]; [done|].
  destruct ws as [|w' ws].
  - simpl. rewrite <- (app_nil_r w) at 1. rewrite split_ws_aux_word by done.
    simpl. rewrite app_nil_r. rewrite bool_decide_eq_false_2.
    + by rewrite reverse_involutive.
    + intros Hr. apply Hne. by rewrite <- (reverse_involutive w), Hr.
  - change (join (lit " ") (w :: w' :: ws))
      with (w ++ 32%N :: join (lit " ") (w' :: ws)).
    rewrite split_ws_aux_word by done. rewrite app_nil_r.
    cbn [split_ws_aux]. change (is_space 32) with true. cbn match.
    rewrite bool_decide_eq_false_2.
    + rewrite reverse_involutive. by rewrite IH.
    + intros Hr. apply Hne. by rewrite <- (reverse_involutive w), Hr.
Qed.

Section SplitLong.
Context (self : SemanticChunker.t).

Lemma sem_split_long_loop_groups words cw cl :
  flat_map body_units (SemanticChunker._split_long_loop id self words cw cl)
  = cw ++ words ∧
  Forall (λ b, ∃ g, b = Joined (lit " ") g ∧ g ≠ [])
    (SemanticChunker._split_long_loop id self words cw cl).
Proof.
  revert cw cl. induction words as [|w words IH]; intros cw cl;
    cbn [SemanticChunker._split_long_loop].
  - destruct (nonempty cw) eqn:E.
    + cbn. rewrite !app_nil_r. split; [done|]. repeat constructor.
      exists cw. split; [done|]. by apply nonempty_true.
    + apply nonempty_false in E as ->. split; [done|constructor].
  - destruct (_ >? _).
    + destruct (IH [w] (_count_tokens w)) as [IH1 IH2].
      rewrite flat_map_app, IH1.
      destruct (nonempty cw) eqn:E.
      * cbn. rewrite app_nil_r. split; [done|]. constructor; [|done].
        exists cw. split; [done|]. by apply nonempty_true.
      * apply nonempty_false in E as ->. done.
    + destruct (IH (cw ++ [w]) (cl + _count_tokens w)) as [IH1 IH2].
      rewrite IH1. by rewrite <- app_assoc.
Qed.

End SplitLong.

(** X2.  [_split_long_text] keeps the words of the text: no piece is empty,
    every piece is made of whole words of the text joined by one space, and
    the words of the pieces, in order, are the words of the text
    ([text.split()]); a text without a word gives no piece. *)
Theorem split_long_text_words (self : SemanticChunker.t) (text : pystr) :
  let pieces := SemanticChunker._split_long_text self text in
  flat_map split_ws pieces = split_ws text ∧
  Forall (λ piece, piece ≠ [] ∧ join (lit " ") (split_ws piece) = piece) pieces ∧
  (pieces = [] ↔ split_ws text = []).
Proof.
  unfold SemanticChunker._split_long_text, SemanticChunker._split_long_text_with.
  change render with (render ∘ id). rewrite sem_split_long_loop_map.
  destruct (sem_split_long_loop_groups self (split_ws text) [] 0) as [Hc Hg].
  rewrite app_nil_l in Hc. pose proof (split_ws_words text) as Hw.
  rewrite <- Hc in Hw. revert Hc Hw Hg.
  generalize (SemanticChunker._split_long_loop id self (split_ws text) [] 0).
  intros bodies <- Hw Hg. clear text.
  induction Hg as [|b bodies (g & -> & Hne) Hg IH]; [done|].
  cbn [flat_map body_units] in Hw. apply Forall_app in Hw as [Hwg Hw].
  destruct (IH Hw) as (IH1 & IH2 & IH3).
  rewrite fmap_cons. cbn [flat_map render body_units].
  rewrite (split_ws_join g Hwg). repeat split.
  - by rewrite IH1.
  - constructor; [|done]. split; [|by rewrite (split_ws_join g Hwg)].
    destruct g as [|w g]; [done|]. apply Forall_cons in Hwg as [[Hw1 _] _].
    destruct g; simpl; [done|]. by destruct w.
  - done.
  - intros Hn. by destruct g.
Qed.

(** ** Where the chunks come from *)

Lemma stamp_app uuid ds1 ds2 :
  stamp uuid (ds1 ++ ds2)
  = stamp uuid ds1 ++ stamp (λ i, uuid (length ds1 + i)%nat) ds2.
Proof. unfold stamp. by rewrite imap_app. Qed.

Lemma stamp_drafts uuid ds :
  Forall2 (λ c d, ∃ h, c = Chunk_create h d) (stamp uuid ds) ds.
Proof.
  apply (stamp_Forall2 _ (λ d d', d = d')).
  - intros h d ? <-. by exists h.
  - by apply list_eq_Forall2.
Qed.

Lemma stamp_concat uuid (dss : list (list Draft)) :
  ∃ css, stamp uuid (concat dss) = concat css ∧
         Forall2 (Forall2 (λ c d, ∃ h, c = Chunk_create h d)) css dss.
Proof.
  revert uuid. induction dss as [|ds dss IH]; intros uuid.
  - exists []. split; [done|constructor].
  - simpl. rewrite stamp_app.
    destruct (IH (λ i, uuid (length ds + i)%nat)) as (css & -> & Hcss).
    exists (stamp uuid ds :: css). split; [done|].
    constructor; [apply stamp_drafts|done].
Qed.



Lemma section_meta_lookup (s : ParsedSection) (k : string) :
  drop_none (section_meta s) !! k
  = if decide (k = "heading_text"%string) then VStr <$> heading_text s
    else if decide (k = "heading_level"%string) then VInt <$> heading_level s
    else if decide (k = "code_language"%string) then VStr <$> code_language s
    else if decide (k = "page_number"%string) then VInt <$> page_number s
    else None.
Proof.
  unfold drop_none, section_meta.
  destruct (heading_text s), (heading_level s), (code_language s), (page_number s);
    repeat case_decide; subst; simpl;
    try (apply map_lookup_filter_Some_2; [by simplify_map_eq|simpl; congruence]);
    try (apply map_lookup_filter_None; right; intros v' Hv';
         simplify_map_eq; simpl; congruence);
    apply map_lookup_filter_None; left; by simplify_map_eq.
Qed.

Lemma Forall2_fmap_r_elem {X Y Z'} (P : X → Y → Prop) (Q : X → Z' → Prop)
    (f : Z' → list Y) (xss : list (list X)) (zs : list Z') :
  (∀ z xs, z ∈ zs → Forall2 P xs (f z) → Forall (λ x, Q x z) xs) →
  Forall2 (Forall2 P) xss (f <$> zs) →
  Forall2 (λ xs z, Forall (λ x, Q x z) xs) xss zs.
Proof.
  revert xss. induction zs as [|z zs IH]; intros xss HPQ HF.
  - apply Forall2_nil_inv_r in HF as ->. constructor.
  - rewrite fmap_cons in HF. apply Forall2_cons_inv_r in HF as (xs & xss' & Hxs & HF & ->).
    constructor; [apply HPQ; [by left|done]|].
    apply IH; [|done]. intros z' xs' Hz'. apply HPQ. by right.
Qed.

(** X3.  The chunks of the sentence strategy come section by section, in
    the order of the sections.  Each chunk of a section carries the
    document identifier given to [chunk], the content type and the
    hierarchy of the section, and for metadata exactly those of
    [heading_text], [heading_level], [code_language] and [page_number]
    that the section has: a field that is [None] has no key. *)
Theorem semantic_chunk_sections (self : SemanticChunker.t) uuid doc id :
  (∃ per_section,
     SemanticChunker.chunk self uuid doc id = concat per_section ∧
     Forall2 (λ cs s, Forall (from_section id s) cs) per_section (sections doc)) ∧
  (∀ s k,
     drop_none (section_meta s) !! k
     = if decide (k = "heading_text"%string) then VStr <$> heading_text s
       else if decide (k = "heading_level"%string) then VInt <$> heading_level s
       else if decide (k = "code_language"%string) then VStr <$> code_language s
       else if decide (k = "page_number"%string) then VInt <$> page_number s
       else None).
Proof.
  split; [|apply section_meta_lookup].
  unfold SemanticChunker.chunk, SemanticChunker.chunk_drafts.
  rewrite flat_map_concat_map.
  destruct (stamp_concat uuid
              (map (λ section,
                 SemanticChunker._chunk_section self (content section) id
                   (content_type section) (section_hierarchy section)
                   (section_meta section)) (sections doc)))
    as (css & -> & Hcss).
  exists css. split; [done|].
  eapply Forall2_fmap_r_elem; [|exact Hcss].
  intros s cs _ Hcs. cbv beta in Hcs. rewrite sem_chunk_section_drafts in Hcs.
  apply Forall2_fmap_r in Hcs.
  induction Hcs as [|c b cs bs (h & ->) _ IH]; constructor; [|done].
  by repeat split.
Qed.




(** X5.  A document whose sections are all within budget, or code blocks
    or tables, gives one chunk for each section, in order, with the content
    of the section as it is: the sentence strategy changes nothing in such
    a section, and a section without content gives a chunk without
    content. *)
Theorem semantic_sections_kept (self : SemanticChunker.t) uuid doc id :
  Forall (λ s, _count_tokens (content s) ≤ chunk_size self
               ∨ content_type s = CODE_BLOCK ∨ content_type s = TABLE)
    (sections doc) →
  Forall2 (λ c s, chunk_content c = content s ∧ from_section id s c)
    (SemanticChunker.chunk self uuid doc id) (sections doc).
Proof.
  intros Hs. unfold SemanticChunker.chunk, SemanticChunker.chunk_drafts.
  apply (stamp_Forall2 _
           (λ d s, d_document_id d = id ∧ d_content d = content s ∧
                   d_content_type d = content_type s ∧
                   d_section_hierarchy d = section_hierarchy s ∧
                   d_metadata d = drop_none (section_meta s))).
  { intros h d s (? & ? & ? & ? & ?). by repeat split. }
  induction Hs as [|s ss Hs _ IH]; simpl; [constructor|].
  unfold SemanticChunker._chunk_section at 1,
    SemanticChunker._chunk_section_with at 1.
  destruct (_ <=? _) eqn:E.
  - simpl. constructor; [by repeat split|done].
  - apply Z.leb_gt in E. destruct Hs as [?|Hs]; [lia|].
    unfold is_atomic. rewrite bool_decide_eq_true_2 by done.
    simpl. constructor; [by repeat split|done].
Qed.

Lemma semantic_sections_kept_witness :
  Forall2 (λ c s, chunk_content c = content s ∧ from_section (lit "d") s c)
    (SemanticChunker.chunk (semantic 512 50) no_uuid
       (document_of [text_section "Some content." []; text_section "" []])
       (lit "d"))
    [text_section "Some content." []; text_section "" []].
Proof.
  apply (semantic_sections_kept (semantic 512 50) no_uuid
           (document_of [text_section "Some content." []; text_section "" []])
           (lit "d")).
  repeat constructor; vm_compute; congruence.
Defined.

(** ** Groups of sections *)

Lemma group_sections_loop_hierarchy sections h cs :
  Forall (λ s, section_hierarchy s = h) cs →
  Forall (λ g : list pystr * list ParsedSection,
            Forall (λ s, section_hierarchy s = g.1) g.2)
    (StructureChunker._group_sections_loop sections h cs).
Proof.
  revert h cs. induction sections as [|s sections IH]; intros h cs Hcs; simpl.
  - destruct (nonempty cs); by repeat constructor.
  - destruct (bool_decide (content_type s = HEADING)).
    + apply Forall_app. split; [|by apply IH].
      destruct (nonempty cs); by repeat constructor.
    + case_bool_decide as E.
      * apply Forall_app. split; [|apply IH; by repeat constructor].
        destruct (nonempty cs); by repeat constructor.
      * apply IH. apply Forall_app. split; [done|].
        repeat constructor. destruct (decide (section_hierarchy s = h)); [done|].
        by destruct E.
Qed.

Lemma group_sections_groups (sections : list ParsedSection) :
  let groups := StructureChunker._group_sections_by_hierarchy sections in
  concat (snd <$> groups) = filter (λ s, content_type s ≠ HEADING) sections ∧
  Forall (λ g : list pystr * list ParsedSection,
            g.2 ≠ [] ∧
            Forall (λ s, section_hierarchy s = g.1 ∧ content_type s ≠ HEADING) g.2)
    groups.
Proof.
  unfold StructureChunker._group_sections_by_hierarchy.
  pose proof (group_sections_loop_sections sections [] []) as Hs.
  rewrite flat_map_concat_map, app_nil_l in Hs.
  split; [exact Hs|].
  pose proof (group_sections_loop_groups sections [] []) as Hne.
  pose proof (group_sections_loop_hierarchy sections [] [] ltac:(constructor)) as Hh.
  assert (Hin : ∀ g s, g ∈ StructureChunker._group_sections_loop sections [] [] →
                       s ∈ g.2 → content_type s ≠ HEADING).
  { intros g s Hg Hsg.
    assert (H : s ∈ filter (λ s, content_type s ≠ HEADING) sections).
    { rewrite <- Hs. apply list_elem_of_In, in_concat. exists g.2.
      split; apply list_elem_of_In; [by apply list_elem_of_fmap_2|done]. }
    by apply list_elem_of_filter in H as [? _]. }
  apply Forall_forall. intros g Hg. split.
  - by apply (proj1 (Forall_forall _ _) Hne).
  - apply Forall_forall. intros s Hsg. split.
    + by apply (proj1 (Forall_forall _ _) (proj1 (Forall_forall _ _) Hh g Hg)).
    + by eapply Hin.
Qed.

(** X6.  [_group_sections_by_hierarchy] cuts the sections that are not
    headings into groups, in order and without losing one; no group is
    empty, and the sections of a group all carry the hierarchy that the
    group is listed with.  A heading section is in no group. *)
Theorem group_sections_partition (sections : list ParsedSection) :
  let groups := StructureChunker._group_sections_by_hierarchy sections in
  concat (snd <$> groups) = filter (λ s, content_type s ≠ HEADING) sections ∧
  Forall (λ g : list pystr * list ParsedSection,
            g.2 ≠ [] ∧
            Forall (λ s, section_hierarchy s = g.1 ∧ content_type s ≠ HEADING) g.2)
    groups.
Proof. apply group_sections_groups. Qed.

(** ** The dominant content type *)

Lemma py_max_by_spec {X} (key : X → Z) (x0 : X) (xs : list X) :
  let m := StructureChunker.py_max_by key x0 xs in
  m ∈ x0 :: xs ∧ Forall (λ x, key x ≤ key m) (x0 :: xs).
Proof.
  unfold StructureChunker.py_max_by. revert x0.
  induction xs as [|x xs IH]; intros x0; simpl.
  - split; [by left|]. by repeat constructor.
  - destruct (key x >? key x0) eqn:E.
    + apply Z.gtb_lt in E. destruct (IH x) as [Hin Hall].
      split; [by right|].
      apply Forall_cons in Hall as [Hx Hall].
      constructor; [lia|]. by constructor.
    + rewrite Z.gtb_ltb in E. apply Z.ltb_ge in E.
      destruct (IH x0) as [Hin Hall].
      apply Forall_cons in Hall as [Hx0 Hall].
      split.
      * apply elem_of_cons in Hin as [->|Hin]; [by left|]. right. by right.
      * constructor; [done|]. constructor; [lia|done].
Qed.

Lemma priority_inj t1 t2 :
  StructureChunker.priority t1 = StructureChunker.priority t2 → t1 = t2.
Proof. by destruct t1, t2. Qed.

(** X7.  The content type of a chunk made of several parts is the type of
    highest priority among them, in the order CODE_BLOCK, TABLE, LIST,
    TEXT, HEADING: the type of a chunk with a code block in it is
    CODE_BLOCK, whatever else it holds.  Without a part it is TEXT. *)
Theorem dominant_content_type (types : list ContentType) :
  let d := StructureChunker._get_dominant_content_type_from_list types in
  (types = [] → d = TEXT) ∧
  (types ≠ [] →
   d ∈ types ∧
   Forall (λ t, StructureChunker.priority t ≤ StructureChunker.priority d) types) ∧
  (∀ t, t ∈ types →
        Forall (λ t', StructureChunker.priority t' ≤ StructureChunker.priority t)
          types →
        d = t) ∧
  (CODE_BLOCK ∈ types → d = CODE_BLOCK).
Proof.
  assert (H : types ≠ [] →
    StructureChunker._get_dominant_content_type_from_list types ∈ types ∧
    Forall (λ t, StructureChunker.priority t
                 ≤ StructureChunker.priority
                     (StructureChunker._get_dominant_content_type_from_list types))
      types).
  { destruct types as [|t0 ts]; [done|]. intros _.
    apply (py_max_by_spec StructureChunker.priority t0 ts). }
  assert (Hmax : ∀ t, t ∈ types →
    Forall (λ t', StructureChunker.priority t' ≤ StructureChunker.priority t) types →
    StructureChunker._get_dominant_content_type_from_list types = t).
  { intros t Ht Hall.
    assert (Hne : types ≠ []) by (intros ->; by apply elem_of_nil in Ht).
    destruct (H Hne) as [Hd Hdall].
    apply priority_inj.
    pose proof (proj1 (Forall_forall _ _) Hall _ Hd) as H1.
    pose proof (proj1 (Forall_forall _ _) Hdall _ Ht) as H2.
    cbv beta in H1, H2. lia. }
  repeat split.
  - by intros ->.
  - by apply H.
  - by apply H.
  - exact Hmax.
  - intros Hc. apply Hmax; [done|]. apply Forall_forall. by intros [] _.
Qed.

(** ** Merged metadata *)

Lemma drop_none_value (p : StructureChunker.part) (k : string) :
  drop_none p.2 !! k = part_value k p.
Proof.
  unfold drop_none, part_value.
  destruct (p.2 !! k) as [v|] eqn:E.
  - destruct (decide (v = VNone)) as [->|Hv].
    + apply map_lookup_filter_None. right. intros v' Hv'. simpl.
      rewrite E in Hv'. injection Hv' as <-. by intros [].
    + transitivity (Some v); [|by destruct v].
      by apply map_lookup_filter_Some_2.
  - apply map_lookup_filter_None. by left.
Qed.

Lemma merge_metadata_fold (parts : list StructureChunker.part)
    (acc : gmap string PyVal) (k : string) :
  fold_left (λ merged (p : StructureChunker.part), merged ∪ drop_none p.2)
    parts acc !! k
  = match acc !! k with
    | Some v => Some v
    | None => head (omap (part_value k) parts)
    end.
Proof.
  revert acc. induction parts as [|p parts IH]; intros acc; simpl.
  - by destruct (acc !! k).
  - rewrite IH, lookup_union, drop_none_value.
    destruct (acc !! k), (part_value k p); done.
Qed.

Lemma merge_metadata_lookup (parts : list StructureChunker.part) (k : string) :
  StructureChunker._merge_metadata parts !! k = head (omap (part_value k) parts) ∧
  StructureChunker._merge_metadata parts !! k ≠ Some VNone.
Proof.
  assert (H : StructureChunker._merge_metadata parts !! k
              = head (omap (part_value k) parts)).
  { unfold StructureChunker._merge_metadata. by rewrite merge_metadata_fold. }
  split; [done|]. rewrite H. clear H.
  induction parts as [|p parts IH]; [done|]. simpl.
  destruct (part_value k p) as [v|] eqn:E; [|done]. simpl.
  unfold part_value in E. intros [= ->].
  destruct (p.2 !! k) as [[]|]; done.
Qed.

(** X8.  [_merge_metadata] keeps, for every key, the first value that is
    not [None] among the parts, in their order; a key without such a value
    is not in the result, so no value of the result is [None]. *)
Theorem merge_metadata_first (parts : list StructureChunker.part) (k : string) :
  StructureChunker._merge_metadata parts !! k = head (omap (part_value k) parts) ∧
  StructureChunker._merge_metadata parts !! k ≠ Some VNone.
Proof. apply merge_metadata_lookup. Qed.

(** ** The metadata of the chunks of a group *)

Section StructureMeta.
Context (self : StructureChunker.t).

Local Abbreviation meta_of := (λ (_ : Body) (_ : ContentType) (md : gmap string PyVal), md).

Lemma struct_split_lines_loop_meta ct lines cur tokens :
  Forall (λ md, md = ∅)
    (StructureChunker._split_lines_loop meta_of self ct lines cur tokens).
Proof.
  revert cur tokens. induction lines as [|l lines IH]; intros cur tokens; simpl.
  - destruct (nonempty cur); by repeat constructor.
  - split_tests; repeat constructor; auto.
Qed.

Lemma struct_split_large_content_meta c ct :
  Forall (λ md, md = ∅)
    (StructureChunker._split_large_content_with meta_of self c ct).
Proof.
  unfold StructureChunker._split_large_content_with.
  destruct (is_atomic ct); [by repeat constructor|].
  apply struct_split_lines_loop_meta.
Qed.

Lemma struct_chunk_parts_loop_meta parts cur tokens types :
  Forall (λ md, md = ∅)
    (StructureChunker._chunk_parts_loop meta_of self parts cur tokens types).
Proof.
  revert cur tokens types.
  induction parts as [|[[c ct] md] parts IH]; intros cur tokens types; simpl.
  - destruct (nonempty cur); by repeat constructor.
  - pose proof (struct_split_large_content_meta c ct).
    split_tests; repeat first [apply Forall_app; split | constructor]; auto.
Qed.

Lemma combined_parts_contents sections :
  map (λ p : StructureChunker.part, p.1.1) (StructureChunker.combined_parts sections)
  = content <$> sections.
Proof.
  unfold StructureChunker.combined_parts. rewrite map_map. done.
Qed.

Lemma struct_chunk_section_group_meta sections :
  Forall (λ md,
      md = if sum_tokens (content <$> sections) <=? chunk_size self
           then StructureChunker._merge_metadata
                  (StructureChunker.combined_parts sections)
           else ∅)
    (StructureChunker._chunk_section_group_with meta_of self sections).
Proof.
  unfold StructureChunker._chunk_section_group_with.
  rewrite combined_parts_contents.
  destruct (_ <=? _); [by repeat constructor|].
  apply struct_chunk_parts_loop_meta.
Qed.

Lemma struct_chunk_section_group_drafts sections id h :
  Forall (λ d,
      d_document_id d = id ∧ d_section_hierarchy d = h ∧
      d_metadata d
      = if sum_tokens (content <$> sections) <=? chunk_size self
        then StructureChunker._merge_metadata
               (StructureChunker.combined_parts sections)
        else ∅)
    (StructureChunker._chunk_section_group self sections id h).
Proof.
  unfold StructureChunker._chunk_section_group.
  pose proof (struct_chunk_section_group_rel
                (λ (d : Draft) md,
                   d_document_id d = id ∧ d_section_hierarchy d = h
                   ∧ d_metadata d = md)
                (StructureChunker.make_draft self id h) meta_of self
                ltac:(done) sections) as HF.
  pose proof (struct_chunk_section_group_meta sections) as HM.
  revert HF HM.
  generalize (StructureChunker._chunk_section_group_with
                (StructureChunker.make_draft self id h) self sections).
  generalize (StructureChunker._chunk_section_group_with meta_of self sections).
  intros mds ds HF. induction HF as [|d md ds mds (? & ? & ?) _ IH]; intros HM;
    [constructor|].
  apply Forall_cons in HM as [-> HM]. constructor; [done|by apply IH].
Qed.

End StructureMeta.

Lemma structure_chunk_per_group (self : StructureChunker.t) uuid doc id :
  ∃ per_group,
    StructureChunker.chunk self uuid doc id = concat per_group ∧
    Forall2 (λ cs g, cs ≠ [] ∧ Forall (from_group self id g) cs) per_group
      (StructureChunker._group_sections_by_hierarchy (sections doc)).
Proof.
  unfold StructureChunker.chunk, StructureChunker.chunk_drafts.
  rewrite flat_map_concat_map.
  destruct (stamp_concat uuid
              (map (λ g : list pystr * list ParsedSection,
                 StructureChunker._chunk_section_group self g.2 id g.1)
                 (StructureChunker._group_sections_by_hierarchy (sections doc))))
    as (css & -> & Hcss).
  exists css. split; [done|].
  pose proof (group_sections_loop_groups (sections doc) [] []) as Hne.
  fold (StructureChunker._group_sections_by_hierarchy (sections doc)) in Hne.
  revert css Hcss Hne.
  induction (StructureChunker._group_sections_by_hierarchy (sections doc))
    as [|g groups IH]; intros css Hcss Hne.
  - apply Forall2_nil_inv_r in Hcss as ->. constructor.
  - cbn [map] in Hcss.
    apply Forall2_cons_inv_r in Hcss as (cs & css' & Hcs & Hcss & ->).
    apply Forall_cons in Hne as [Hg Hne].
    constructor; [|by apply IH]. split.
    + intros ->. apply Forall2_nil_inv_l in Hcs.
      revert Hcs. by apply struct_chunk_section_group_nonempty.
    + pose proof (struct_chunk_section_group_drafts self g.2 id g.1) as Hd.
      induction Hcs as [|c d cs ds (h & ->) _ IHcs]; constructor.
      * apply Forall_cons in Hd as [(? & ? & ?) _]. by repeat split.
      * apply Forall_cons in Hd as [_ Hd]. by apply IHcs.
Qed.

(** X9.  The chunks of the hierarchy strategy come group by group, in the
    order of the groups of [_group_sections_by_hierarchy], and every group
    gives at least one chunk.  Each chunk of a group carries the document
    identifier given to [chunk] and the hierarchy of the group.  When the
    sections of the group fit together in the budget, their chunk has their
    merged metadata; when the group is split, none of its chunks has any
    metadata: the heading, the code language and the page number of the
    sections are not kept. *)
Theorem structure_chunk_groups (self : StructureChunker.t) uuid doc id :
  ∃ per_group,
    StructureChunker.chunk self uuid doc id = concat per_group ∧
    Forall2 (λ cs g, cs ≠ [] ∧ Forall (from_group self id g) cs) per_group
      (StructureChunker._group_sections_by_hierarchy (sections doc)).
Proof. apply structure_chunk_per_group. Qed.

(** ** What is written to the vector store *)

Section Upsert.
Context {Vec : Type}.
Implicit Types (ids : list pystr) (vectors : list Vec)
  (payloads : list (gmap string PyVal)).

Lemma point_at_None ids vectors payloads i :
  (i < length ids)%nat →
  VectorStore.point_at ids vectors payloads i = None
  ↔ (length vectors ≤ i ∨ length payloads ≤ i)%nat.
Proof.
  intros Hi. unfold VectorStore.point_at.
  destruct (lookup_lt_is_Some_2 ids i Hi) as [id ->].
  destruct (vectors !! i) as [v|] eqn:Ev; destruct (payloads !! i) as [p|] eqn:Ep.
  - apply lookup_lt_Some in Ev, Ep. split; [done|lia].
  - apply lookup_ge_None in Ep. split; [auto|done].
  - apply lookup_ge_None in Ev. split; [auto|done].
  - apply lookup_ge_None in Ev. split; [auto|done].
Qed.

(** X10.  [VectorStore.upsert] writes one point for each identifier, and
    the point of the i-th identifier is written under the number [i]: the
    position in the call, not the identifier of the chunk, which is only
    kept in the payload, under [chunk_id], where it replaces whatever the
    payload had there.  The call raises an [IndexError] exactly when there
    are fewer vectors or fewer payloads than identifiers; the vectors and
    payloads beyond the number of identifiers are dropped. *)
Theorem upsert_points ids vectors payloads :
  (VectorStore.upsert ids vectors payloads = None
   ↔ (length vectors < length ids ∨ length payloads < length ids)%nat) ∧
  (∀ points,
     VectorStore.upsert ids vectors payloads = Some points →
     length points = length ids ∧
     ∀ i, (i < length ids)%nat →
       ∃ vector payload chunk_id,
         vectors !! i = Some vector ∧ payloads !! i = Some payload ∧
         ids !! i = Some chunk_id ∧
         points !! i
         = Some {| VectorStore.point_id := Z.of_nat i;
                   VectorStore.point_vector := vector;
                   VectorStore.point_payload :=
                     <["chunk_id" := VStr chunk_id]> payload |}).
Proof.
  unfold VectorStore.upsert. split.
  - rewrite mapM_None, Exists_exists. split.
    + intros (i & Hi & Hn). apply elem_of_seq in Hi.
      apply point_at_None in Hn; lia.
    + intros Hlen.
      destruct (decide (length vectors < length ids)%nat).
      * exists (length vectors). split; [apply elem_of_seq; lia|].
        apply point_at_None; [lia|]. by left.
      * exists (length payloads). split; [apply elem_of_seq; lia|].
        apply point_at_None; [lia|]. by right.
  - intros points Hp. pose proof (length_mapM _ _ _ Hp) as Hlen.
    rewrite length_seq in Hlen. split; [done|]. intros i Hi.
    apply mapM_Some_1 in Hp.
    destruct (lookup_lt_is_Some_2 points i ltac:(lia)) as [pt Hpt].
    pose proof (Forall2_lookup_lr _ _ _ i i pt Hp
                  (lookup_seq_lt 0 (length ids) i Hi) Hpt) as Hat.
    simpl in Hat. unfold VectorStore.point_at in Hat.
    destruct (vectors !! i) as [v|]; [|done].
    destruct (payloads !! i) as [p|]; [|done].
    destruct (ids !! i) as [id|]; [|done].
    injection Hat as <-. by exists v, p, id.
Qed.

End Upsert.

Section StoreChunks.
Context {Vec : Type} (embed_text : pystr → Vec).

Lemma upsert_chunks (chunks : list Chunk) :
  VectorStore.upsert (chunk_id <$> chunks)
    (embed_text <$> (chunk_content <$> chunks)) (to_payload <$> chunks)
  = Some (imap (stored_point embed_text) chunks).
Proof.
  unfold VectorStore.upsert. apply mapM_Some_2.
  apply Forall2_same_length_lookup_2.
  - by rewrite length_seq, length_imap, length_fmap.
  - intros i j pt Hj Hpt. apply lookup_seq in Hj as [-> Hi]. simpl in *.
    rewrite length_fmap in Hi. rewrite list_lookup_imap in Hpt.
    destruct (chunks !! i) as [c|] eqn:Ec; [|done]. injection Hpt as <-.
    unfold VectorStore.point_at. rewrite !list_lookup_fmap, Ec. done.
Qed.

Lemma store_chunks_eq (chunks : list Chunk) :
  DocumentService._store_chunks embed_text chunks
  = Some (if nonempty chunks
          then [DocumentService.EnsureCollection;
                DocumentService.Upsert (imap (stored_point embed_text) chunks)]
          else []).
Proof.
  unfold DocumentService._store_chunks.
  destruct (nonempty chunks); [|done]. by rewrite upsert_chunks.
Qed.

(** X11.  [_store_chunks] never fails.  For an empty list of chunks it
    calls nothing: no collection is made and nothing is written.  For the
    others it makes sure of the collection and writes all the chunks in one
    call, the i-th chunk under the point number [i], with the embedding of
    its content and, for payload, the payload of the chunk with [chunk_id]
    set to the identifier of the chunk. *)
Theorem store_chunks_calls (chunks : list Chunk) :
  DocumentService._store_chunks embed_text chunks
  = Some (if nonempty chunks
          then [DocumentService.EnsureCollection;
                DocumentService.Upsert (imap (stored_point embed_text) chunks)]
          else []).
Proof. apply store_chunks_eq. Qed.

End StoreChunks.

(** ** The payloads of a document *)

(** Membership of a key in a list of keys that is written out. *)
Ltac key_in := repeat first [by left | right].
Ltac key_not_in :=
  let H := fresh in
  intros H; repeat (apply elem_of_cons in H as [H|H]; [discriminate H|]);
  by apply elem_of_nil in H.

Lemma stored_payload_lookup (c : Chunk) (k : string) :
  stored_payload c !! k
  = if decide (k = "chunk_id"%string) then Some (VStr (chunk_id c))
    else match chunk_metadata c !! k with
         | Some v => Some v
         | None => fixed_entry c k
         end.
Proof.
  unfold stored_payload. case_decide as E.
  - subst. by rewrite lookup_insert_eq.
  - rewrite lookup_insert_ne by done. apply to_payload_entries.
Qed.

Lemma section_meta_keys (k : string) (s : ParsedSection) :
  k ∉ section_keys → section_meta s !! k = None.
Proof.
  intros Hk. unfold section_meta, section_keys in *.
  repeat (rewrite lookup_insert_ne; [|intros <-; apply Hk; key_in]).
  done.
Qed.

Lemma combined_parts_value (k : string) (sections : list ParsedSection) :
  k ∉ section_keys →
  omap (part_value k) (StructureChunker.combined_parts sections) = [].
Proof.
  intros Hk. unfold StructureChunker.combined_parts.
  induction sections as [|s sections IH]; [done|].
  cbn [map omap list_omap]. fold (@omap list _ _ _ (part_value k)).
  unfold part_value at 1. cbn [snd]. rewrite section_meta_keys by done.
  exact IH.
Qed.

Lemma structure_chunk_metadata_keys (self : StructureChunker.t) uuid doc id c k :
  c ∈ StructureChunker.chunk self uuid doc id →
  k ∉ section_keys → chunk_metadata c !! k = None.
Proof.
  intros Hc Hk.
  destruct (structure_chunk_per_group self uuid doc id) as (css & Hcss & HF).
  rewrite Hcss in Hc. apply list_elem_of_In, in_concat in Hc as (cs & Hcs & Hc).
  apply list_elem_of_In in Hcs, Hc.
  destruct (Forall2_elem_l _ _ _ _ HF Hcs) as (g & _ & _ & Hall).
  destruct (proj1 (Forall_forall _ _) Hall c Hc) as (_ & _ & ->).
  destruct (_ <=? _); [|done].
  rewrite (proj1 (merge_metadata_lookup _ k)). by rewrite combined_parts_value.
Qed.

Lemma add_document_metadata_lookup dt tags filename (c : Chunk) (k : string) :
  chunk_metadata (DocumentService.add_document_metadata dt tags filename c) !! k
  = if decide (k = "filename"%string) then Some (VStr filename)
    else if decide (k = "tags"%string) then Some (VStrs (default [] tags))
    else if decide (k = "doc_type"%string)
         then Some (VStr (DocumentService.DocType_value dt))
    else chunk_metadata c !! k.
Proof.
  simpl. repeat case_decide; subst; by simplify_map_eq.
Qed.

Lemma structure_chunk_headings (self : StructureChunker.t) uuid doc id :
  Forall (λ s, content_type s = HEADING) (sections doc) →
  StructureChunker.chunk self uuid doc id = [].
Proof.
  intros Hh. destruct (group_sections_groups (sections doc)) as [Hcat Hne].
  assert (Hf : filter (λ s, content_type s ≠ HEADING) (sections doc) = []).
  { revert Hh. generalize (sections doc). intros ss Hh.
    induction Hh as [|s ss Hs _ IH]; [done|].
    rewrite filter_cons, decide_False by (intros Hn; by apply Hn). done. }
  rewrite Hf in Hcat.
  unfold StructureChunker.chunk, StructureChunker.chunk_drafts.
  destruct (StructureChunker._group_sections_by_hierarchy (sections doc))
    as [|g groups]; [done|].
  apply Forall_cons in Hne as [[Hg _] _]. simpl in Hcat.
  apply app_eq_nil in Hcat as [? _]. done.
Qed.

Lemma document_chunk_payload U uuid parsed filename doc_type tags c :
  c ∈ (DocumentService.document_chunks U uuid parsed filename doc_type tags).2 →
  stored_payload c !! "chunk_id" = Some (VStr (chunk_id c)) ∧
  stored_payload c !! "document_id" = Some (VStr (lit "doc_" ++ uuid 0%nat)) ∧
  stored_payload c !! "content" = Some (VStr (chunk_content c)) ∧
  stored_payload c !! "content_type"
  = Some (VStr (ContentType_value (chunk_content_type c))) ∧
  stored_payload c !! "section_hierarchy"
  = Some (VStrs (chunk_section_hierarchy c)) ∧
  stored_payload c !! "doc_type"
  = Some (VStr (DocumentService.DocType_value
                  (default (DocumentService._detect_doc_type U parsed) doc_type))) ∧
  stored_payload c !! "tags" = Some (VStrs (default [] tags)) ∧
  stored_payload c !! "filename" = Some (VStr filename) ∧
  (∀ k, is_Some (stored_payload c !! k) → k ∈ document_keys ++ section_keys).
Proof.
  unfold DocumentService.document_chunks. cbn [snd].
  intros (c0 & -> & Hc0)%list_elem_of_fmap.
  assert (Hdt : match doc_type with
                | Some t => t
                | None => DocumentService._detect_doc_type U parsed
                end = default (DocumentService._detect_doc_type U parsed) doc_type)
    by (by destruct doc_type).
  rewrite Hdt. clear Hdt.
  generalize (default (DocumentService._detect_doc_type U parsed) doc_type).
  intros dt.
  assert (Hid : document_id c0 = lit "doc_" ++ uuid 0%nat).
  { destruct (structure_chunk_per_group DocumentService.chunker
                (λ i, uuid (S i)) parsed (lit "doc_" ++ uuid 0%nat))
      as (css & Hcss & HF).
    rewrite Hcss in Hc0.
    apply list_elem_of_In, in_concat in Hc0 as (cs & Hcs & Hc0).
    apply list_elem_of_In in Hcs, Hc0.
    destruct (Forall2_elem_l _ _ _ _ HF Hcs) as (g & _ & _ & Hall).
    by destruct (proj1 (Forall_forall _ _) Hall c0 Hc0) as (? & _). }
  assert (Hmd : ∀ k, k ∉ section_keys → chunk_metadata c0 !! k = None).
  { intros k. by apply (structure_chunk_metadata_keys _ _ _ _ c0 k Hc0). }
  assert (Hfix : ∀ k, fixed_entry (DocumentService.add_document_metadata dt tags
                                     filename c0) k = fixed_entry c0 k) by done.
  assert (Hnk : Forall (λ k, k ∉ section_keys) document_keys).
  { unfold document_keys, section_keys. repeat constructor; key_not_in. }
  assert (Hnk' : ∀ k, k ∈ document_keys → k ∉ section_keys)
    by (by apply Forall_forall).
  assert (Hin : ∀ k, k ∈ document_keys → k ∈ document_keys ++ section_keys)
    by (intros k ?; apply elem_of_app; by left).
  repeat split.
  - by rewrite stored_payload_lookup.
  - rewrite stored_payload_lookup, add_document_metadata_lookup, Hfix.
    rewrite Hmd by (apply Hnk'; unfold document_keys; key_in).
    change (fixed_entry c0 "document_id") with (Some (VStr (document_id c0))).
    by rewrite Hid.
  - rewrite stored_payload_lookup, add_document_metadata_lookup, Hfix.
    by rewrite Hmd by (apply Hnk'; unfold document_keys; key_in).
  - rewrite stored_payload_lookup, add_document_metadata_lookup, Hfix.
    by rewrite Hmd by (apply Hnk'; unfold document_keys; key_in).
  - rewrite stored_payload_lookup, add_document_metadata_lookup, Hfix.
    by rewrite Hmd by (apply Hnk'; unfold document_keys; key_in).
  - by rewrite stored_payload_lookup, add_document_metadata_lookup.
  - by rewrite stored_payload_lookup, add_document_metadata_lookup.
  - by rewrite stored_payload_lookup, add_document_metadata_lookup.
  - intros k. rewrite stored_payload_lookup, add_document_metadata_lookup, Hfix.
    repeat (case_decide; [subst; intros _; apply Hin; unfold document_keys;
                          key_in|]).
    destruct (decide (k ∈ section_keys)) as [Hk|Hk];
      [intros _; apply elem_of_app; by right|].
    rewrite (Hmd k Hk). unfold fixed_entry.
    repeat (case_decide; [subst; intros _; apply Hin; unfold document_keys;
                          key_in|]).
    by intros [? ?].
Qed.

Lemma ingested_no_names (p : gmap string PyVal) :
  ingested p →
  p !! "entity_names" = None ∧ p !! "table_names" = None
  ∧ p !! "api_endpoints" = None.
Proof.
  intros (U & uuid & parsed & filename & doc_type & tags & c & Hc & ->).
  destruct (document_chunk_payload _ _ _ _ _ _ _ Hc)
    as (_ & _ & _ & _ & _ & _ & _ & _ & Hkeys).
  assert (Hno : ∀ k, k ∉ document_keys ++ section_keys →
                     stored_payload c !! k = None).
  { intros k Hk. destruct (stored_payload c !! k) eqn:E; [|done].
    destruct Hk. apply Hkeys. by rewrite E. }
  repeat split; apply Hno; unfold document_keys, section_keys; key_not_in.
Qed.

(** X12.  What [process_document] does with a parsed document.  The
    document is named [doc_] followed by the first identifier drawn.  Every
    chunk is written with a payload that has the identifier of the chunk
    and of the document, the content, the content type and the hierarchy of
    the chunk, the type of the document (the one given, else the one
    detected), its tags (an empty list when there is none) and its file
    name; the only other keys a payload can have are [heading_text],
    [heading_level], [code_language] and [page_number].  So no payload has
    the names of entities, tables or endpoints that were extracted from the
    document.  A document of headings only has no chunk, and nothing is
    written for it. *)
Theorem process_parsed_payloads {Vec} (embed_text : pystr → Vec) U uuid parsed
    filename doc_type tags :
  let '(document_id, chunks, calls) :=
    DocumentService.process_parsed embed_text U uuid parsed filename doc_type tags in
  document_id = lit "doc_" ++ uuid 0%nat ∧
  calls
  = Some (if nonempty chunks
          then [DocumentService.EnsureCollection;
                DocumentService.Upsert (imap (stored_point embed_text) chunks)]
          else []) ∧
  Forall (λ c,
      stored_payload c !! "chunk_id" = Some (VStr (chunk_id c)) ∧
      stored_payload c !! "document_id" = Some (VStr document_id) ∧
      stored_payload c !! "content" = Some (VStr (chunk_content c)) ∧
      stored_payload c !! "content_type"
      = Some (VStr (ContentType_value (chunk_content_type c))) ∧
      stored_payload c !! "section_hierarchy"
      = Some (VStrs (chunk_section_hierarchy c)) ∧
      stored_payload c !! "doc_type"
      = Some (VStr (DocumentService.DocType_value
                      (default (DocumentService._detect_doc_type U parsed)
                         doc_type))) ∧
      stored_payload c !! "tags" = Some (VStrs (default [] tags)) ∧
      stored_payload c !! "filename" = Some (VStr filename) ∧
      (∀ k, is_Some (stored_payload c !! k) → k ∈ document_keys ++ section_keys) ∧
      stored_payload c !! "entity_names" = None ∧
      stored_payload c !! "table_names" = None ∧
      stored_payload c !! "api_endpoints" = None) chunks ∧
  (Forall (λ s, content_type s = HEADING) (sections parsed) →
   chunks = [] ∧ calls = Some []).
Proof.
  unfold DocumentService.process_parsed.
  destruct (DocumentService.document_chunks U uuid parsed filename doc_type tags)
    as [document_id chunks] eqn:E.
  assert (Hid : document_id = lit "doc_" ++ uuid 0%nat)
    by (by injection E as <- _).
  assert (Hchunks : chunks
    = (DocumentService.document_chunks U uuid parsed filename doc_type tags).2)
    by (by rewrite E).
  split; [done|]. split; [apply store_chunks_eq|]. split.
  - apply Forall_forall. intros c Hc. rewrite Hchunks in Hc.
    destruct (document_chunk_payload _ _ _ _ _ _ _ Hc)
      as (H1 & H2 & H3 & H4 & H5 & H6 & H7 & H8 & H9).
    destruct (ingested_no_names (stored_payload c)) as (H10 & H11 & H12).
    { by exists U, uuid, parsed, filename, doc_type, tags, c. }
    rewrite Hid. by repeat split.
  - intros Hh. assert (chunks = []) as ->.
    { injection E as _ <-. by rewrite structure_chunk_headings. }
    by rewrite store_chunks_eq.
Qed.

(** ** From the store back to a result *)

Section RoundTrip.
Context {F : Type} `{FloatOps F}.

(** X13.  What a retriever makes of a chunk that [_store_chunks] wrote.
    The result has the identifier of the chunk.  Its [document_id] and its
    [content] are those of the chunk unless the metadata of the chunk has
    an entry under that key, which then takes its place.  Its metadata is
    the metadata of the chunk without the keys [chunk_id], [document_id]
    and [content], together with the [content_type] and the
    [section_hierarchy] of the chunk where the metadata has none. *)
Theorem stored_payload_round_trip (c : Chunk) (score : F) (source : pystr) :
  let r := result_of_hit score source
             {| hit_score := score; payload := stored_payload c |} in
  r_chunk_id r = VStr (chunk_id c) ∧
  r_document_id r
  = default (VStr (document_id c)) (chunk_metadata c !! "document_id") ∧
  r_content r = default (VStr (chunk_content c)) (chunk_metadata c !! "content") ∧
  r_score r = score ∧
  r_source r = source ∧
  (∀ k, r_metadata r !! k
        = if decide (k ∈ ["chunk_id"; "document_id"; "content"]%string) then None
          else match chunk_metadata c !! k with
               | Some v => Some v
               | None => fixed_entry c k
               end).
Proof.
  simpl. unfold get_default. rewrite !stored_payload_lookup. simpl.
  repeat split.
  - by destruct (chunk_metadata c !! "document_id").
  - by destruct (chunk_metadata c !! "content").
  - intros k. case_decide as Hk.
    + apply map_lookup_filter_None. right. intros v _ (H1 & H2 & H3). simpl in *.
      repeat (apply elem_of_cons in Hk as [Hk|Hk]; [done|]).
      by apply elem_of_nil in Hk.
    + assert (H1 : k ≠ "chunk_id"%string) by (intros ->; apply Hk; key_in).
      assert (H2 : k ≠ "document_id"%string) by (intros ->; apply Hk; key_in).
      assert (H3 : k ≠ "content"%string) by (intros ->; apply Hk; key_in).
      unfold payload_metadata.
      pose proof (stored_payload_lookup c k) as Hl.
      rewrite decide_False in Hl by done.
      destruct (stored_payload c !! k) as [v|] eqn:E.
      * rewrite <- Hl. by apply map_lookup_filter_Some_2.
      * rewrite <- Hl. apply map_lookup_filter_None. by left.
Qed.

End RoundTrip.

(** ** Cross-references over what the ingestion wrote *)

Section CrossRefIngested.
Context {F : Type} `{FloatOps F} {Vec : Type}.
Context (embed_query : pystr → Vec).
Context (search : Vec → Z → option (gmap string PyVal) → list (Hit F)).
Context (self : CrossRefRetriever).

Lemma py_take_nil {X} n : py_take n (@nil X) = [].
Proof. unfold py_take. by destruct (_ <=? _); rewrite take_nil. Qed.

Lemma cross_refs_of_no_names score source (h : Hit F) :
  payload h !! "entity_names" = None → payload h !! "table_names" = None →
  cross_refs_of embed_query search self (result_of_hit score source h) = Some [].
Proof.
  intros He Ht. unfold cross_refs_of, get_default. simpl.
  rewrite !payload_metadata_lookup by done. rewrite He, Ht. simpl.
  unfold _search_related. simpl. rewrite py_take_nil.
  by repeat case_decide.
Qed.

Lemma find_cross_references_no_names (hits : list (Hit F)) source :
  Forall (λ h, payload h !! "entity_names" = None
               ∧ payload h !! "table_names" = None) hits →
  _find_cross_references embed_query search self
    (map (λ r, result_of_hit (hit_score r) source r) hits) = Some [].
Proof.
  induction 1 as [|h hits [He Ht] _ IH]; [done|].
  cbn [map _find_cross_references].
  by rewrite cross_refs_of_no_names, IH.
Qed.

(** X14.  Over a store that holds what [process_document] wrote, the
    cross-reference retriever finds no cross-reference: the payloads do not
    carry the names of entities and tables that the secondary searches are
    made from, so [retrieve] makes no secondary search and returns the
    primary results, without those that repeat an identifier, all of them
    tagged [primary]. *)
Theorem crossref_after_ingestion query top_k filters :
  (∀ v k f h, h ∈ search v k f → ingested (payload h)) →
  let primary := _primary_retrieve embed_query search query top_k filters in
  _find_cross_references embed_query search self primary = Some [] ∧
  crossref_retrieve embed_query search self query top_k filters
  = Some (first_occurrences primary) ∧
  Forall (λ r, r_source r = lit "primary") (first_occurrences primary).
Proof.
  intros Hstore primary.
  assert (Hc : _find_cross_references embed_query search self primary = Some []).
  { apply find_cross_references_no_names. apply Forall_forall.
    intros h Hh%Hstore%ingested_no_names. tauto. }
  split; [done|]. split.
  - unfold crossref_retrieve. fold primary. rewrite Hc, app_nil_r.
    by rewrite dedup_loop_first_occurrences.
  - rewrite <- dedup_loop_first_occurrences. apply Forall_forall.
    intros r [Hr _]%dedup_loop_elem.
    by apply list_elem_of_fmap in Hr as (h & -> & _).
Qed.

End CrossRefIngested.

Lemma search_ingested_ingested v k f h :
  h ∈ search_ingested v k f → ingested (payload h).
Proof.
  intros (c & -> & Hc)%list_elem_of_fmap.
  by eexists _, _, _, _, _, _, c.
Qed.

Lemma crossref_after_ingestion_witness :
  crossref_retrieve id search_ingested crossref_example (lit "users") 5 None
  = Some (first_occurrences
            (_primary_retrieve id search_ingested (lit "users") 5 None)).
Proof.
  apply (crossref_after_ingestion id search_ingested crossref_example
           (lit "users") 5 None search_ingested_ingested).
Defined.

(** ** Cross-references of the query service *)

(** X15.  [QueryService._find_cross_references] names tables, never a
    chunk: every cross-reference it returns has an empty [chunk_id] and an
    empty [document_id], the type [table_schema] and the relevance [high].
    For a payload that [process_document] wrote it returns none, the
    payload having neither endpoints nor table names. *)
Theorem query_cross_references (payload : gmap string PyVal) :
  (∀ refs,
     QueryService._find_cross_references payload = Some refs →
     Forall (λ r, QueryService.cr_chunk_id r = [] ∧
                  QueryService.cr_document_id r = [] ∧
                  QueryService.cr_type r = lit "table_schema" ∧
                  QueryService.cr_relevance r = lit "high" ∧
                  QueryService.cr_api_endpoint r = None) refs ∧
     Some (omap QueryService.cr_table_name refs)
     = (if QueryService.truth (get_default payload "api_endpoints" (VStrs []))
           && QueryService.truth (get_default payload "table_names" (VStrs []))
        then QueryService.items (get_default payload "table_names" (VStrs []))
        else Some [])) ∧
  (ingested payload → QueryService._find_cross_references payload = Some []).
Proof.
  split.
  - intros refs. unfold QueryService._find_cross_references.
    destruct (_ && _).
    + destruct (QueryService.items _) as [l|]; [|done]. intros [= <-]. split.
      * apply Forall_forall. by intros r (x & -> & _)%list_elem_of_fmap.
      * f_equal. induction l as [|x l IH]; [done|].
        rewrite fmap_cons. cbn [omap list_omap QueryService.cr_table_name].
        by f_equal.
    + intros [= <-]. by split.
  - intros (_ & Ht & Ha)%ingested_no_names.
    unfold QueryService._find_cross_references, get_default. by rewrite Ht, Ha.
Qed.

(** ** Confidence *)

Section Confidence.
Context {F : Type} `{FloatOps F}.

(** X16.  The confidence of an answer is never below [0.0] and never above
    [1.0], whatever the scores of the results, and it is [0.0] without
    results.  Of the comparison of floats this only needs that no number is
    smaller than itself and that [1.0] is not smaller than [0.0]. *)
Theorem confidence_bounds (results : list (QueryService.SearchResult F)) :
  (∀ x : F, f_lt x x = false) →
  f_lt (f_of_int 1) (f_of_int 0) = false →
  let confidence := QueryService._calculate_confidence results in
  f_lt confidence (f_of_int 0) = false ∧
  f_lt (f_of_int 1) confidence = false ∧
  (results = [] → confidence = f_of_int 0).
Proof.
  intros Hirr H10. unfold QueryService._calculate_confidence.
  destruct (nonempty results) eqn:E.
  - apply nonempty_true in E.
    generalize (f_div (fold_left f_add
                         (QueryService.sr_score <$> py_take 3 results)
                         (f_of_int 0))
                  (f_of_int (Z.of_nat
                     (length (QueryService.sr_score <$> py_take 3 results))))).
    intros avg. unfold QueryService.py_min, QueryService.py_max. simpl.
    split; [|split; [|done]].
    + destruct (f_lt avg (f_of_int 0)) eqn:E0.
      * rewrite H10. apply Hirr.
      * destruct (f_lt (f_of_int 1) avg); [exact H10|exact E0].
    + destruct (f_lt avg (f_of_int 0)) eqn:E0.
      * by rewrite H10.
      * destruct (f_lt (f_of_int 1) avg) eqn:E1; [apply Hirr|exact E1].
  - simpl. repeat split; [apply Hirr|exact H10].
Qed.

End Confidence.

Lemma confidence_bounds_witness :
  f_lt (QueryService._calculate_confidence search_results_example) (f_of_int 0)
  = false ∧
  f_lt (f_of_int 1) (QueryService._calculate_confidence search_results_example)
  = false.
Proof.
  destruct (confidence_bounds (F:=Q) search_results_example) as (H1 & H2 & _).
  - intros x. simpl. apply negb_false_iff, Qle_bool_iff, Qle_refl.
  - reflexivity.
  - split; [exact H1|exact H2].
Defined.

(** ** Sources of an answer *)

Section Sources.
Context {F : Type}.
Implicit Types (l pre : list (RetrievalResult F)) (seen : list PyVal).

Lemma first_of_document_cons pre r l :
  first_of_document pre (r :: l)
  = (if decide (r_document_id r ∈ r_document_id <$> pre) then [] else [r])
      ++ first_of_document (pre ++ [r]) l.
Proof.
  unfold first_of_document. rewrite imap_cons, filter_cons.
  assert (Htail :
    (filter (λ ir : nat * RetrievalResult F,
               r_document_id ir.2 ∉ r_document_id <$> (pre ++ take ir.1 (r :: l)))
       (imap (pair ∘ S) l)).*2
    = (filter (λ ir : nat * RetrievalResult F,
                 r_document_id ir.2
                 ∉ r_document_id <$> ((pre ++ [r]) ++ take ir.1 l))
         (imap pair l)).*2).
  { etrans; [exact (filter_imap_shift l _ _ S)|].
    f_equal. apply list_filter_iff.
    intros [i x]. simpl. by rewrite <- app_assoc. }
  cbn [fst snd take]. rewrite app_nil_r.
  destruct (decide (r_document_id r ∉ r_document_id <$> pre)) as [Hn|Hn].
  - rewrite decide_False by done. rewrite fmap_cons. cbn [snd app].
    by rewrite Htail.
  - rewrite decide_True by (by apply dec_stable). cbn [app]. by rewrite Htail.
Qed.

Lemma extract_sources_loop_first seen pre l :
  (∀ id, id ∈ seen ↔ id ∈ r_document_id <$> pre) →
  Forall (λ r, ResponseGenerator.hashable (r_document_id r) = true) l →
  ResponseGenerator.extract_sources_loop seen l
  = Some (ResponseGenerator.source_of <$> first_of_document pre l).
Proof.
  intros Hseen Hl. revert seen pre Hseen.
  induction Hl as [|r l Hr _ IH]; intros seen pre Hseen; [done|].
  rewrite first_of_document_cons. simpl. rewrite Hr.
  case_bool_decide as Hin.
  - rewrite decide_True by (by apply Hseen). simpl. apply IH.
    intros id. rewrite Hseen, fmap_app, elem_of_app. simpl.
    rewrite list_elem_of_singleton. split; [auto|].
    intros [?| ->]; [done|by apply Hseen].
  - rewrite decide_False by (by rewrite <- Hseen).
    rewrite (IH (r_document_id r :: seen) (pre ++ [r])); [done|].
    intros id. rewrite elem_of_cons, Hseen, fmap_app, elem_of_app. simpl.
    rewrite list_elem_of_singleton. tauto.
Qed.

Lemma extract_sources_loop_None seen l :
  ResponseGenerator.extract_sources_loop seen l = None
  ↔ Exists (λ r, ResponseGenerator.hashable (r_document_id r) = false) l.
Proof.
  revert seen. induction l as [|r l IH]; intros seen; simpl.
  - split; [done|by intros ?%Exists_nil].
  - rewrite Exists_cons. destruct (ResponseGenerator.hashable _) eqn:E.
    + case_bool_decide.
      * rewrite IH. split; [auto|]. by intros [?|?].
      * specialize (IH (r_document_id r :: seen)).
        destruct (ResponseGenerator.extract_sources_loop _ l).
        -- split; [done|]. intros [?|Hx]; [done|]. by apply IH in Hx.
        -- split; [intros _; right; by apply IH|done].
    + split; auto.
Qed.

Lemma first_of_document_elem pre l x :
  x ∈ first_of_document pre l →
  x ∈ l ∧ r_document_id x ∉ r_document_id <$> pre.
Proof.
  revert pre. induction l as [|r l IH]; intros pre.
  - by intros ?%elem_of_nil.
  - rewrite first_of_document_cons. intros [Hx|Hx]%elem_of_app.
    + destruct (decide _) as [|Hn]; [by apply elem_of_nil in Hx|].
      apply list_elem_of_singleton in Hx as ->. split; [by left|done].
    + apply IH in Hx as [? Hx]. split; [by right|].
      intros ?. apply Hx. rewrite fmap_app. apply elem_of_app. by left.
Qed.

Lemma first_of_document_NoDup pre l :
  NoDup (r_document_id <$> first_of_document pre l).
Proof.
  revert pre. induction l as [|r l IH]; intros pre; [constructor|].
  rewrite first_of_document_cons. destruct (decide _); [apply IH|].
  cbn [app]. rewrite fmap_cons. constructor; [|apply IH].
  intros (x & Hid & [_ Hx]%first_of_document_elem)%list_elem_of_fmap.
  apply Hx. rewrite fmap_app, <- Hid. apply elem_of_app. right. by left.
Qed.

Lemma first_of_document_covers pre l x :
  x ∈ l →
  r_document_id x ∈ r_document_id <$> pre
  ∨ r_document_id x ∈ r_document_id <$> first_of_document pre l.
Proof.
  revert pre. induction l as [|r l IH]; intros pre Hx;
    [by apply elem_of_nil in Hx|].
  rewrite first_of_document_cons, fmap_app, elem_of_app.
  destruct (decide (r_document_id r ∈ r_document_id <$> pre)) as [Hin|Hin].
  - apply elem_of_cons in Hx as [->|Hx]; [by left|].
    destruct (IH (pre ++ [r]) Hx) as [Hp|Hp]; [|auto].
    rewrite fmap_app in Hp. apply elem_of_app in Hp as [?|Hp]; [by left|].
    apply list_elem_of_singleton in Hp. left. by rewrite Hp.
  - apply elem_of_cons in Hx as [->|Hx]; [right; left; by left|].
    destruct (IH (pre ++ [r]) Hx) as [Hp|Hp]; [|auto].
    rewrite fmap_app in Hp. apply elem_of_app in Hp as [?|Hp]; [by left|].
    apply list_elem_of_singleton in Hp. right. left. rewrite Hp. by left.
Qed.

(** X17.  [_extract_sources] lists the documents of the results once each:
    a result gives a source when no result before it is of the same
    document, so the sources are in the order in which the documents first
    appear, each with the file name, the section and the score of the first
    result of its document, and no document is listed twice.  The call
    fails exactly when the [document_id] of some result is a list, which no
    set can hold. *)
Theorem extract_sources_first (context : list (RetrievalResult F)) :
  (ResponseGenerator._extract_sources context = None
   ↔ Exists (λ r, ResponseGenerator.hashable (r_document_id r) = false) context) ∧
  (∀ sources,
     ResponseGenerator._extract_sources context = Some sources →
     sources = ResponseGenerator.source_of <$> first_of_document [] context ∧
     NoDup (ResponseGenerator.src_document_id <$> sources) ∧
     (∀ id, id ∈ ResponseGenerator.src_document_id <$> sources
            ↔ id ∈ r_document_id <$> context)).
Proof.
  split; [apply extract_sources_loop_None|].
  intros sources Hs. unfold ResponseGenerator._extract_sources in Hs.
  assert (Hall : Forall (λ r, ResponseGenerator.hashable (r_document_id r) = true)
                   context).
  { apply Forall_forall. intros r Hr.
    destruct (ResponseGenerator.hashable (r_document_id r)) eqn:E; [done|].
    assert (Hn : ResponseGenerator.extract_sources_loop [] context = None).
    { apply extract_sources_loop_None, Exists_exists. by exists r. }
    by rewrite Hn in Hs. }
  rewrite (extract_sources_loop_first [] [] context) in Hs by done.
  injection Hs as <-. split; [done|].
  rewrite <- list_fmap_compose.
  change (ResponseGenerator.src_document_id ∘ ResponseGenerator.source_of)
    with (@r_document_id F).
  split; [apply first_of_document_NoDup|].
  intros id. split.
  - intros (x & -> & [Hx _]%first_of_document_elem)%list_elem_of_fmap.
    by apply list_elem_of_fmap_2.
  - intros (x & -> & Hx)%list_elem_of_fmap.
    destruct (first_of_document_covers [] context x Hx) as [Hp|Hp]; [|done].
    by apply elem_of_nil in Hp.
Qed.

End Sources.

Lemma extract_sources_first_witness :
  ResponseGenerator._extract_sources
    [result_example "c1" "A" (Qmake 9 10); result_example "c2" "B" (Qmake 8 10);
     result_example "c3" "A" (Qmake 7 10)]
  = Some (ResponseGenerator.source_of
            <$> [result_example "c1" "A" (Qmake 9 10);
                 result_example "c2" "B" (Qmake 8 10)]) ∧
  NoDup (ResponseGenerator.src_document_id
           <$> (ResponseGenerator.source_of
                  <$> [result_example "c1" "A" (Qmake 9 10);
                       result_example "c2" "B" (Qmake 8 10)])).
Proof.
  assert (Hs : ResponseGenerator._extract_sources
                 [result_example "c1" "A" (Qmake 9 10);
                  result_example "c2" "B" (Qmake 8 10);
                  result_example "c3" "A" (Qmake 7 10)]
               = Some (ResponseGenerator.source_of
                         <$> [result_example "c1" "A" (Qmake 9 10);
                              result_example "c2" "B" (Qmake 8 10)]))
    by (vm_compute; reflexivity).
  split; [exact Hs|].
  exact (proj1 (proj2 (proj2 (extract_sources_first _) _ Hs))).
Defined.

(** ** The fusion, whatever [rrf_k] *)

Section FusionAny.
Context {F : Type} `{FloatOps F}.
Context (self : HybridRetriever F).




Lemma rrf_maps_dense all st result x :
  result ∈ all → rrf_maps all st →
  rrf_maps all (add_score (r_chunk_id result) x st.1,
                dict_set (r_chunk_id result) result st.2).
Proof.
  intros Hin (Hk & Hid & Hnd). split; [|split]; simpl.
  - intros id. rewrite add_score_is_Some.
    destruct (decide (r_chunk_id result = id)) as [<-|?].
    + rewrite dict_get_set_eq. split; eauto.
    + rewrite dict_get_set_ne by done. rewrite Hk. split; [auto|].
      by intros [?|?].
  - intros id r Hr. destruct (decide (r_chunk_id result = id)) as [<-|?].
    + rewrite dict_get_set_eq in Hr. by injection Hr as <-.
    + rewrite dict_get_set_ne in Hr by done. by apply Hid.
  - by apply dict_set_NoDup.
Qed.

Lemma rrf_maps_sparse all st result x :
  result ∈ all → rrf_maps all st →
  rrf_maps all (add_score (r_chunk_id result) x st.1,
                match dict_get (r_chunk_id result) st.2 with
                | Some _ => st.2
                | None => dict_set (r_chunk_id result) result st.2
                end).
Proof.
  intros Hin Hm. pose proof Hm as (Hk & Hid & Hnd).
  destruct (dict_get (r_chunk_id result) st.2) eqn:E.
  - split; [|split]; simpl.
    + intros id. rewrite add_score_is_Some, Hk. split; [auto|].
      intros [<-|?]; [|done]. apply Hk. by rewrite E.
    + done.
    + by apply dict_set_NoDup.
  - by apply rrf_maps_dense.
Qed.

Lemma rrf_dense_maps all rank results st st' :
  results ⊆ all → rrf_maps all st →
  rrf_dense self rank results st = Some st' → rrf_maps all st'.
Proof.
  revert rank st. induction results as [|r results IH]; intros rank st Hsub Hm; simpl.
  - by intros [= <-].
  - destruct (rrf_term _ _ _) as [x|]; [|done]. apply IH.
    + intros y Hy. apply Hsub. by right.
    + apply rrf_maps_dense; [apply Hsub; by left|done].
Qed.

Lemma rrf_sparse_maps all rank results st st' :
  results ⊆ all → rrf_maps all st →
  rrf_sparse self rank results st = Some st' → rrf_maps all st'.
Proof.
  revert rank st. induction results as [|r results IH]; intros rank st Hsub Hm; simpl.
  - by intros [= <-].
  - destruct (rrf_term _ _ _) as [x|]; [|done]. apply IH.
    + intros y Hy. apply Hsub. by right.
    + apply rrf_maps_sparse; [apply Hsub; by left|done].
Qed.

Lemma rrf_build_from result_map sorted_scores (all : list (RetrievalResult F)) :
  NoDup sorted_scores.*1 →
  (∀ p, p ∈ sorted_scores → is_Some (dict_get p.1 result_map)) →
  (∀ id r, dict_get id result_map = Some r → r_chunk_id r = id ∧ r ∈ all) →
  ∃ combined, rrf_build result_map sorted_scores = Some combined ∧
    NoDup (r_chunk_id <$> combined) ∧
    Forall (λ c, ∃ r, r ∈ all ∧ fused_from r c) combined.
Proof.
  intros Hnd Hk Hid.
  destruct (rrf_build_spec result_map sorted_scores Hk)
    as (combined & Hc & HF); [intros id r Hr; by apply Hid in Hr as [? _]|].
  exists combined. split; [done|]. split.
  - assert (Hids : r_chunk_id <$> combined = sorted_scores.*1).
    { clear -HF. induction HF as [|r p ? ? (? & _) _ IH]; simpl; [done|].
      by f_equal. }
    by rewrite Hids.
  - clear Hnd HF. revert combined Hc.
    induction sorted_scores as [|[id s] l IH]; intros combined; simpl.
    + intros [= <-]. constructor.
    + destruct (dict_get id result_map) as [r|] eqn:Er; [|done].
      destruct (rrf_build result_map l) as [rest|] eqn:El; [|done].
      intros [= <-]. constructor.
      * exists r. by destruct (Hid id r Er) as [_ ?].
      * apply IH; [|done]. intros p Hp. apply Hk. by right.
Qed.

Lemma fusion_from dense sparse st1 scores result_map :
  rrf_dense self 0 dense ([], []) = Some st1 →
  rrf_sparse self 0 sparse st1 = Some (scores, result_map) →
  ∃ combined, rrf_build result_map (sorted_desc f_lt snd scores) = Some combined ∧
    NoDup (r_chunk_id <$> combined) ∧
    Forall (λ c, ∃ r, r ∈ dense ++ sparse ∧ fused_from r c) combined.
Proof.
  intros Hd Hs.
  assert (Hinit : rrf_maps (dense ++ sparse) ([], [])).
  { repeat split; simpl; try done; try constructor; by intros [? ?]. }
  pose proof (rrf_dense_maps (dense ++ sparse) 0 dense _ _
                ltac:(intros x ?; apply elem_of_app; by left) Hinit Hd) as H1.
  pose proof (rrf_sparse_maps (dense ++ sparse) 0 sparse _ _
                ltac:(intros x ?; apply elem_of_app; by right) H1 Hs)
    as (Hk & Hid & Hnd).
  simpl in *.
  pose proof (sorted_desc_perm f_lt snd scores) as Hperm.
  apply rrf_build_from; [by rewrite Hperm| |done].
  intros [id s] Hp. simpl. apply Hk, dict_get_elem.
  apply list_elem_of_fmap. exists (id, s). split; [done|]. by rewrite <- Hperm.
Qed.


End FusionAny.

Section HybridResults.
Context {F : Type} `{FloatOps F} {Vec : Type}.
Context (embed_query : pystr → Vec).
Context (search : Vec → Z → option (gmap string PyVal) → list (Hit F)).
Context (self : HybridRetriever F).

(** X19.  What [HybridRetriever.retrieve] returns, when it returns: at most
    [top_k] results (for a [top_k] that is not negative), no two of them
    with the same [chunk_id], and each of them made from a hit of the one
    dense search, which asks for [2 * top_k] candidates with the filters of
    the call: the result has the identifiers, the content and the metadata
    of that hit, the tag [hybrid], and a score of its own. *)
Theorem hybrid_retrieve_results query top_k filters results :
  hybrid_retrieve embed_query search self query top_k filters = Some results →
  (0 ≤ top_k → Z.of_nat (length results) ≤ top_k) ∧
  NoDup (r_chunk_id <$> results) ∧
  Forall (λ c, ∃ h, h ∈ search (embed_query query) (top_k * 2) filters ∧
                    c = result_of_hit (r_score c) (lit "hybrid") h) results.
Proof.
  unfold hybrid_retrieve, _sparse_retrieve, _reciprocal_rank_fusion.
  destruct (rrf_dense self 0 _ ([], [])) as [st1|] eqn:Ed; [|done].
  destruct (rrf_sparse self 0 [] st1) as [[scores result_map]|] eqn:Es; [|done].
  destruct (fusion_from self _ _ _ _ _ Ed Es) as (combined & -> & Hnd & Hall).
  intros [= <-]. split; [by apply py_take_length|]. split.
  - unfold py_take. destruct (_ <=? _); rewrite fmap_take;
      (eapply sublist_NoDup; [exact Hnd|apply sublist_take]).
  - apply Forall_forall. intros c Hc%py_take_elem.
    destruct (proj1 (Forall_forall _ _) Hall c Hc)
      as (r & Hr & H1 & H2 & H3 & H4 & H5).
    rewrite app_nil_r in Hr. unfold _dense_retrieve in Hr.
    apply list_elem_of_fmap in Hr as (h & -> & Hh).
    exists h. split; [done|]. destruct c. simpl in *. by subst.
Qed.

End HybridResults.

Lemma hybrid_retrieve_results_witness :
  ∃ results,
    hybrid_retrieve id search_example fusion_example (lit "users") 5 None
    = Some results ∧
    Z.of_nat (length results) ≤ 5 ∧
    NoDup (r_chunk_id <$> results).
Proof.
  destruct (hybrid_retrieve id search_example fusion_example (lit "users") 5 None)
    as [results|] eqn:E; [|by vm_compute in E].
  exists results. split; [done|].
  destruct (hybrid_retrieve_results id search_example fusion_example
              (lit "users") 5 None results E) as (Hlen & Hnd & _).
  split; [apply Hlen; lia|exact Hnd].
Defined.

(** ** Greedy repetition of a character class *)

Section GreedyClass.
Import ReSpec.
Context (p : N → bool) (lo : nat) (hi : option nat)
  (k : Re.mstate → option Re.mstate).

Lemma after_0 st : after st 0 = st.
Proof. destruct st. unfold after. simpl. f_equal. lia. Qed.

Lemma after_S st c s' n :
  Re.rest st = c :: s' →
  after st (S n)
  = after {| Re.pos := S (Re.pos st); Re.prev := Some c; Re.rest := s';
             Re.caps := Re.caps st |} n.
Proof.
  intros Hr. unfold after. simpl. rewrite Hr.
  f_equal; first [lia | by destruct n].
Qed.

Lemma try_down_S {X} (f : nat → option X) L N :
  try_down f L (S N)
  = Re.or_else (try_down (λ c, f (S c)) (L - 1) N)
      (λ _, if (L =? 0)%nat then f O else None).
Proof.
  revert L. induction N as [|N IH]; intros L.
  - destruct L as [|[|L]]; cbn; by destruct (f 1%nat).
  - change (try_down f L (S (S N)))
      with (if (L <=? S (S N))%nat
            then Re.or_else (f (S (S N))) (λ _, try_down f L (S N))
            else None).
    change (try_down (λ c, f (S c)) (L - 1) (S N))
      with (if (L - 1 <=? S N)%nat
            then Re.or_else (f (S (S N)))
                   (λ _, try_down (λ c, f (S c)) (L - 1) N)
            else None).
    rewrite (IH L).
    destruct (L <=? S (S N))%nat eqn:E1.
    + apply Nat.leb_le in E1.
      assert (E2 : (L - 1 <=? S N)%nat = true) by (apply Nat.leb_le; lia).
      rewrite E2. by destruct (f (S (S N))).
    + apply Nat.leb_gt in E1.
      assert (E2 : (L - 1 <=? S N)%nat = false) by (apply Nat.leb_gt; lia).
      rewrite E2. cbn. destruct L; [lia|done].
Qed.

Lemma run_Rep r1 greedy st :
  Re.run (Re.Rep greedy lo hi r1) st k
  = rep_loop r1 greedy lo hi k (S (lo + length (Re.rest st))) O st.
Proof. reflexivity. Qed.

Lemma try_down_ext {X} (f g : nat → option X) L N :
  (∀ c, f c = g c) → try_down f L N = try_down g L N.
Proof.
  intros Hfg. induction N as [|N IH]; cbn [try_down]; rewrite Hfg; [done|].
  by rewrite IH.
Qed.

Lemma leb_sub_0 (a b : nat) : (a - b =? 0)%nat = (a <=? b)%nat.
Proof.
  destruct (a <=? b)%nat eqn:E.
  - apply Nat.leb_le in E. apply Nat.eqb_eq. lia.
  - apply Nat.leb_gt in E. apply Nat.eqb_neq. lia.
Qed.

Lemma rep_loop_chr fuel count st :
  (length (Re.rest st) < fuel)%nat →
  rep_loop (Re.Chr p) true lo hi k fuel count st
  = try_down (λ c, k (after st c)) (lo - count)
      (cap (option_map (λ h, (h - count)%nat) hi) (span p (Re.rest st))).
Proof.
  revert count st. induction fuel as [|fuel IH]; intros count st Hf; [lia|].
  cbn [rep_loop Re.run].
  destruct (Re.rest st) as [|c s'] eqn:Hr.
  - cbn [span]. assert (Hc : cap (option_map (λ h, (h - count)%nat) hi) 0 = O)
      by (destruct hi; simpl; lia).
    rewrite Hc. cbn [try_down]. rewrite after_0, leb_sub_0.
    by destruct (Re.below hi count).
  - destruct (Re.below hi count && p c) eqn:Eb.
    + apply andb_true_iff in Eb as [Eb Ep]. rewrite Eb, Ep. cbn [Re.pos].
      assert (Hlt : (Re.pos st <? S (Re.pos st))%nat = true)
        by (apply Nat.ltb_lt; lia).
      rewrite Hlt. cbn [orb].
      rewrite IH by (simpl in *; lia). cbn [Re.rest span]. rewrite Ep.
      assert (Hcap : cap (option_map (λ h, (h - count)%nat) hi) (S (span p s'))
                     = S (cap (option_map (λ h, (h - S count)%nat) hi)
                            (span p s'))).
      { destruct hi as [h|]; simpl in *; [|done].
        apply Nat.ltb_lt in Eb. lia. }
      rewrite Hcap, try_down_S, leb_sub_0.
      replace (lo - count - 1)%nat with (lo - S count)%nat by lia.
      rewrite after_0.
      rewrite (try_down_ext (λ c0, k (after st (S c0)))
                 (λ c0, k (after {| Re.pos := S (Re.pos st); Re.prev := Some c;
                                    Re.rest := s'; Re.caps := Re.caps st |} c0)));
        [done|].
      intros n. by rewrite (after_S st c s' n Hr).
    + assert (Hcap : cap (option_map (λ h, (h - count)%nat) hi)
                       (span p (c :: s')) = O).
      { apply andb_false_iff in Eb as [Eb|Ep].
        - destruct hi as [h|]; simpl in *; [|done].
          apply Nat.ltb_ge in Eb. lia.
        - cbn [span]. rewrite Ep. destruct hi; simpl; lia. }
      rewrite Hcap. cbn [try_down]. rewrite after_0, leb_sub_0.
      destruct (Re.below hi count); [|done].
      apply andb_false_iff in Eb as [?|Ep]; [done|]. by rewrite Ep.
Qed.

(** Matching a greedy repetition of the class [p]: the continuation is
    tried after the longest run of the class that the bound allows, then
    after one character less, and so on down to the least number of
    iterations. *)
Lemma run_rep_chr st :
  Re.run (Re.Rep true lo hi (Re.Chr p)) st k
  = try_down (λ c, k (after st c)) lo (cap hi (span p (Re.rest st))).
Proof.
  rewrite run_Rep, rep_loop_chr by lia.
  rewrite Nat.sub_0_r. f_equal. destruct hi as [h|]; simpl; [|done].
  by rewrite Nat.sub_0_r.
Qed.

End GreedyClass.

(** ** Tries, from the longest *)

Section TryDown.
Import ReSpec.
Context {X : Type}.
Implicit Types (f : nat → option X).

Lemma try_down_top f L N x :
  (L ≤ N)%nat → f N = Some x → try_down f L N = Some x.
Proof.
  intros HL Hf. destruct N as [|N]; cbn [try_down].
  - assert (L = O) as -> by lia. done.
  - rewrite (proj2 (Nat.leb_le _ _) HL), Hf. done.
Qed.

Lemma try_down_next f L N :
  f (S N) = None → try_down f L (S N) = try_down f L N.
Proof.
  intros Hf. cbn [try_down]. rewrite Hf.
  destruct (L <=? S N)%nat eqn:E; [done|].
  apply Nat.leb_gt in E. destruct N as [|N]; cbn [try_down].
  - destruct L as [|L]; [lia|done].
  - assert (E' : (L <=? S N)%nat = false) by (apply Nat.leb_gt; lia).
    by rewrite E'.
Qed.

Lemma try_down_None f L N :
  (∀ c, (L ≤ c ≤ N)%nat → f c = None) → try_down f L N = None.
Proof.
  intros Hf. induction N as [|N IH]; cbn [try_down].
  - destruct L; [apply Hf; lia|done].
  - destruct (L <=? S N)%nat eqn:E; [|done]. apply Nat.leb_le in E.
    rewrite Hf by lia. cbn. apply IH. intros c Hc. apply Hf. lia.
Qed.

End TryDown.

(** ** Runs of a class *)

Lemma span_le p (s : pystr) : (ReSpec.span p s ≤ length s)%nat.
Proof. induction s as [|c s IH]; simpl; [lia|]. destruct (p c); simpl; lia. Qed.

Lemma span_all p (s : pystr) :
  Forall (λ c, p c = true) s → ReSpec.span p s = length s.
Proof. induction 1 as [|c s Hc _ IH]; simpl; [done|]. by rewrite Hc, IH. Qed.

Lemma span_take p (s : pystr) :
  Forall (λ c, p c = true) (take (ReSpec.span p s) s).
Proof.
  induction s as [|c s IH]; simpl; [constructor|].
  destruct (p c) eqn:E; simpl; [by constructor|constructor].
Qed.

Lemma span_drop p (s : pystr) c s' :
  drop (ReSpec.span p s) s = c :: s' → p c = false.
Proof.
  induction s as [|x s IH]; simpl; [done|].
  destruct (p x) eqn:E; simpl; [done|]. by intros [= <- _].
Qed.

Lemma span_app p (a b : pystr) :
  Forall (λ c, p c = true) a → ReSpec.span p (a ++ b)
                                 = (length a + ReSpec.span p b)%nat.
Proof. induction 1 as [|c a Hc _ IH]; simpl; [done|]. by rewrite Hc, IH. Qed.

Lemma span_eqb_take c (s : pystr) :
  take (ReSpec.span (N.eqb c) s) s = replicate (ReSpec.span (N.eqb c) s) c.
Proof.
  induction s as [|x s IH]; simpl; [done|].
  destruct (c =? x)%N eqn:E; simpl; [|done].
  apply N.eqb_eq in E as <-. by rewrite IH.
Qed.

Lemma lstrip_drop (s : pystr) : lstrip s = drop (ReSpec.span is_space s) s.
Proof. induction s as [|c s IH]; simpl; [done|]. by destruct (is_space c). Qed.

Lemma lstrip_blank_app (ws s : pystr) : blank ws → lstrip (ws ++ s) = lstrip s.
Proof. induction 1 as [|c ws Hc _ IH]; simpl; [done|]. by rewrite Hc. Qed.

Lemma strip_blank_app (ws s : pystr) : blank ws → strip (ws ++ s) = strip s.
Proof. intros Hws. unfold strip. by rewrite lstrip_blank_app. Qed.

Lemma strip_of_blank (s : pystr) : blank s → strip s = [].
Proof.
  intros Hs. rewrite <- (app_nil_r s). by rewrite strip_blank_app.
Qed.

(** ** Heading lines *)

Lemma run_cats_cons a rs st k :
  Re.run (Re.cats (a :: rs)) st k
  = Re.run a st (λ st', Re.run (Re.cats rs) st' k).
Proof. reflexivity. Qed.

Lemma run_Grp i r1 st k :
  Re.run (Re.Grp i r1) st k
  = Re.run r1 st (λ st',
      k {| Re.pos := Re.pos st'; Re.prev := Re.prev st'; Re.rest := Re.rest st';
           Re.caps := (i, take (Re.pos st' - Re.pos st)%nat (Re.rest st))
                      :: Re.caps st' |}).
Proof. reflexivity. Qed.

Lemma span_length_all p (s : pystr) :
  ReSpec.span p s = length s → Forall (λ c, p c = true) s.
Proof.
  intros E. pose proof (span_take p s) as H. by rewrite E, firstn_all in H.
Qed.

Lemma not_newline_all (s : pystr) :
  10%N ∉ s → ReSpec.span (λ c, negb (c =? 10)%N) s = length s.
Proof.
  intros Hs. apply span_all. apply Forall_forall. intros c Hc.
  apply negb_true_iff, N.eqb_neq. intros ->. by apply Hs.
Qed.

(** The text of a heading and the end of the line: the rest of the line,
    which must not be empty. *)
Lemma run_text_eol st :
  10%N ∉ Re.rest st →
  match Re.rest st with
  | [] =>
      Re.run (Re.cats [Re.Grp 2 (Re.plus Re.not_newline); Re.Eol true]) st Some
      = None
  | _ :: _ =>
      ∃ st',
        Re.run (Re.cats [Re.Grp 2 (Re.plus Re.not_newline); Re.Eol true]) st Some
        = Some st' ∧
        Re.caps st' = (2%nat, Re.rest st) :: Re.caps st
  end.
Proof.
  intros Hnl. rewrite run_cats_cons, run_Grp.
  unfold Re.plus, Re.not_newline. rewrite run_rep_chr.
  rewrite (not_newline_all _ Hnl). cbn [ReSpec.cap].
  destruct (Re.rest st) as [|c s] eqn:Hr; [done|].
  eexists. split.
  - apply try_down_top; [simpl; lia|].
    cbn [ReSpec.after Re.rest Re.pos Re.prev Re.caps].
    rewrite run_cats_cons. cbn [Re.run Re.rest].
    rewrite Hr, drop_all. reflexivity.
  - cbn [Re.caps]. f_equal. f_equal.
    replace (Re.pos st + length (c :: s) - Re.pos st)%nat
      with (length (c :: s)) by lia.
    by rewrite firstn_all.
Qed.

Lemma drop_blank (s : pystr) n : blank s → blank (drop n s).
Proof. intros Hs. by apply Forall_drop. Qed.

(** The white space after the number signs, the text and the end of the
    line.  The white space gives back its last character when nothing else
    is left for the text. *)
Lemma run_space_text st :
  10%N ∉ Re.rest st →
  match Re.rest st with
  | c :: _ :: _ =>
      if is_space c
      then ∃ st' g,
             Re.run (Re.cats [Re.plus Re.space;
                              Re.Grp 2 (Re.plus Re.not_newline); Re.Eol true])
               st Some = Some st' ∧
             Re.caps st' = (2%nat, g) :: Re.caps st ∧
             strip g = strip (Re.rest st)
      else Re.run (Re.cats [Re.plus Re.space;
                            Re.Grp 2 (Re.plus Re.not_newline); Re.Eol true])
             st Some = None
  | _ =>
      Re.run (Re.cats [Re.plus Re.space;
                       Re.Grp 2 (Re.plus Re.not_newline); Re.Eol true])
        st Some = None
  end.
Proof.
  intros Hnl.
  assert (E : Re.run (Re.cats [Re.plus Re.space;
                               Re.Grp 2 (Re.plus Re.not_newline); Re.Eol true])
                st Some
              = ReSpec.try_down
                  (λ j, Re.run (Re.cats [Re.Grp 2 (Re.plus Re.not_newline);
                                         Re.Eol true])
                          (ReSpec.after st j) Some)
                  1 (ReSpec.span is_space (Re.rest st))).
  { rewrite run_cats_cons. unfold Re.plus at 1, Re.space.
    by rewrite run_rep_chr. }
  rewrite E. clear E.
  assert (Hf : ∀ j,
    match drop j (Re.rest st) with
    | [] =>
        Re.run (Re.cats [Re.Grp 2 (Re.plus Re.not_newline); Re.Eol true])
          (ReSpec.after st j) Some = None
    | _ :: _ =>
        ∃ st',
          Re.run (Re.cats [Re.Grp 2 (Re.plus Re.not_newline); Re.Eol true])
            (ReSpec.after st j) Some = Some st' ∧
          Re.caps st' = (2%nat, drop j (Re.rest st)) :: Re.caps st
    end).
  { intros j. apply (run_text_eol (ReSpec.after st j)). cbn [ReSpec.after Re.rest].
    intros Hin. apply Hnl. eapply elem_of_sublist; [exact Hin|]. apply sublist_drop. }
  destruct (Re.rest st) as [|c [|c' s]] eqn:Hr.
  - done.
  - cbn [ReSpec.span]. destruct (is_space c); [|done].
    rewrite try_down_next; [done|]. apply (Hf 1%nat).
  - cbn [ReSpec.span]. destruct (is_space c) eqn:Ec; [|done].
    set (r := c :: c' :: s) in *.
    change (S (if is_space c' then S (ReSpec.span is_space s) else O))
      with (S (ReSpec.span is_space (c' :: s))).
    assert (Hm : S (ReSpec.span is_space (c' :: s)) = ReSpec.span is_space r)
      by (unfold r; cbn [ReSpec.span]; by rewrite Ec).
    destruct (decide (ReSpec.span is_space r < length r)%nat) as [Hlt|Hge].
    + pose proof (Hf (ReSpec.span is_space r)) as Hm'.
      destruct (drop (ReSpec.span is_space r) r) as [|x g] eqn:Hd.
      { apply (f_equal length) in Hd. rewrite length_drop in Hd.
        change (length (@nil N)) with O in Hd. lia. }
      destruct Hm' as (st' & Hrun & Hcaps).
      exists st', (x :: g). split; [|split; [done|]].
      * rewrite Hm. apply try_down_top; [lia|done].
      * rewrite <- Hd, <- lstrip_drop. unfold strip. by rewrite lstrip_idem.
    + pose proof (span_le is_space r) as Hle.
      assert (Hall : ReSpec.span is_space r = length r) by lia.
      pose proof (span_length_all _ _ Hall) as Hblank.
      pose proof (Hf (ReSpec.span is_space r)) as Hm'.
      rewrite Hall, drop_all in Hm'.
      rewrite try_down_next by (rewrite Hm, Hall; exact Hm').
      pose proof (Hf (ReSpec.span is_space (c' :: s))) as Hm''.
      destruct (drop (ReSpec.span is_space (c' :: s)) r) as [|x g] eqn:Hd.
      { apply (f_equal length) in Hd. rewrite length_drop in Hd.
        change (length (@nil N)) with O in Hd. lia. }
      destruct Hm'' as (st' & Hrun & Hcaps).
      exists st', (x :: g). split; [|split; [done|]].
      * apply try_down_top; [|done]. cbn [ReSpec.span].
        destruct (is_space c') eqn:Ec'; [lia|].
        exfalso. unfold r in Hall. cbn [ReSpec.span] in Hall.
        rewrite Ec, Ec' in Hall. simpl in Hall. lia.
      * rewrite (strip_of_blank r) by exact Hblank.
        apply strip_of_blank. rewrite <- Hd. by apply drop_blank.
Qed.

Lemma drop_replicate_app {A} (x : A) n c (r : list A) :
  (c ≤ n)%nat → drop c (replicate n x ++ r) = replicate (n - c) x ++ r.
Proof.
  intros Hc. rewrite drop_app_le by (rewrite length_replicate; lia).
  by rewrite drop_replicate.
Qed.

Lemma span_signs (line : pystr) :
  line = replicate (ReSpec.span (N.eqb 35) line) 35%N
         ++ drop (ReSpec.span (N.eqb 35) line) line.
Proof. by rewrite <- span_eqb_take, take_drop. Qed.

Lemma span_replicate_app c n (r : pystr) :
  (∀ x r', r = x :: r' → x ≠ c) →
  ReSpec.span (N.eqb c) (replicate n c ++ r) = n.
Proof.
  intros Hr. rewrite span_app.
  - rewrite length_replicate. destruct r as [|x r']; simpl; [lia|].
    destruct (N.eqb_spec c x) as [->|]; [|lia]. by destruct (Hr x r').
  - apply Forall_replicate. apply N.eqb_refl.
Qed.

(** The number signs of a line, from one to six, are group 1; the match goes
    on with what follows all of them. *)
Lemma run_heading_signs (line : pystr) :
  10%N ∉ line →
  let n := ReSpec.span (N.eqb 35) line in
  Re.run MarkdownParser.HEADING_PATTERN
    {| Re.pos := 0; Re.prev := None; Re.rest := line; Re.caps := [] |} Some
  = if bool_decide (1 ≤ n ≤ 6)%nat
    then Re.run (Re.cats [Re.plus Re.space;
                          Re.Grp 2 (Re.plus Re.not_newline); Re.Eol true])
           {| Re.pos := n; Re.prev := line !! (n - 1)%nat;
              Re.rest := drop n line;
              Re.caps := [(1%nat, replicate n 35%N)] |} Some
    else None.
Proof.
  intros Hnl n. unfold MarkdownParser.HEADING_PATTERN.
  rewrite run_cats_cons. cbn [Re.run Re.pos Nat.eqb orb].
  rewrite run_cats_cons, run_Grp. unfold Re.chr. rewrite run_rep_chr.
  cbn [Re.rest Re.pos Re.caps]. fold n.
  set (f := λ c : nat, Re.run _ _ Some).
  assert (Hlow : ∀ c, (c < n)%nat → f c = None).
  { intros c Hc. unfold f.
    assert (Hd : drop c line = 35%N :: drop (S c) line).
    { rewrite (span_signs line) at 1. fold n. rewrite drop_replicate_app by lia.
      replace (n - c)%nat with (S (n - S c)) by lia. cbn [replicate app].
      f_equal. rewrite (span_signs line) at 2. fold n.
      by rewrite drop_replicate_app by lia. }
    assert (Hnl' : 10%N ∉ 35%N :: drop (S c) line).
    { rewrite <- Hd. intros Hin. apply Hnl.
      eapply elem_of_sublist; [exact Hin|]. apply sublist_drop. }
    cbn [ReSpec.after Re.rest Re.pos Re.prev Re.caps]. rewrite Hd.
    match goal with |- Re.run _ ?s _ = _ => pose proof (run_space_text s) as H end.
    cbn [Re.rest] in H. specialize (H Hnl').
    destruct (drop (S c) line); exact H. }
  case_bool_decide as Hn.
  - assert (Hcap : ReSpec.cap (Some 6%nat) n = n) by (unfold ReSpec.cap; lia).
    rewrite Hcap.
    assert (Hfn : f n
      = Re.run (Re.cats [Re.plus Re.space;
                         Re.Grp 2 (Re.plus Re.not_newline); Re.Eol true])
          {| Re.pos := n; Re.prev := line !! (n - 1)%nat;
             Re.rest := drop n line;
             Re.caps := [(1%nat, replicate n 35%N)] |} Some).
    { unfold f. cbn [ReSpec.after Re.pos Re.prev Re.rest Re.caps].
      replace (0 + n - 0)%nat with n by lia. rewrite Nat.add_0_l.
      assert (Ht : take n line = replicate n 35%N) by apply span_eqb_take.
      rewrite Ht. clearbody n. destruct n as [|n']; [lia|].
      by replace (S n' - 1)%nat with n' by lia. }
    rewrite <- Hfn. destruct (f n) as [x|] eqn:E.
    + apply try_down_top; [lia|done].
    + apply try_down_None. intros c Hc.
      destruct (decide (c = n)) as [->|]; [done|]. apply Hlow. lia.
  - apply try_down_None. intros c Hc. apply Hlow. unfold ReSpec.cap in Hc. lia.
Qed.

Lemma heading_shape_signs line n r :
  heading_shape line n r →
  ReSpec.span (N.eqb 35) line = n ∧ drop n line = r.
Proof.
  intros (-> & Hn & c & r' & -> & Hc & Hr').
  assert (Hs : ReSpec.span (N.eqb 35) (replicate n 35%N ++ c :: r') = n).
  { apply span_replicate_app. intros x r'' [= <- <-] ->. done. }
  split; [done|].
  rewrite drop_app_length'; [done|]. by rewrite length_replicate.
Qed.

Lemma heading_match_shape (line : pystr) :
  10%N ∉ line →
  (∀ n r, heading_shape line n r →
     ∃ m, Re.rmatch MarkdownParser.HEADING_PATTERN line = Some m ∧
          Re.group 1 m = replicate n 35%N ∧
          strip (Re.group 2 m) = strip r) ∧
  (∀ m, Re.rmatch MarkdownParser.HEADING_PATTERN line = Some m →
     ∃ n r, heading_shape line n r).
Proof.
  intros Hnl. unfold Re.rmatch, Re.match_at.
  rewrite (run_heading_signs line Hnl).
  set (n0 := ReSpec.span (N.eqb 35) line).
  set (st := {| Re.pos := n0; Re.prev := line !! (n0 - 1)%nat;
                Re.rest := drop n0 line;
                Re.caps := [(1%nat, replicate n0 35%N)] |}).
  pose proof (run_space_text st) as Hrun. cbn [Re.rest st] in Hrun.
  assert (Hnl' : 10%N ∉ drop n0 line).
  { intros Hin. apply Hnl. eapply elem_of_sublist; [exact Hin|].
    apply sublist_drop. }
  specialize (Hrun Hnl'). split.
  - intros n r Hs. destruct (heading_shape_signs _ _ _ Hs) as [Hn Hr].
    fold n0 in Hn. subst n. destruct Hs as (_ & Hn & c & r' & -> & Hc & Hr').
    rewrite bool_decide_eq_true_2 by done.
    rewrite Hr in Hrun. destruct r' as [|c' r'']; [done|]. rewrite Hc in Hrun.
    destruct Hrun as (st' & g & -> & Hcaps & Hg).
    eexists. split; [done|]. unfold Re.group. cbn [Re.m_end].
    rewrite Hcaps. cbn [Re.caps_get Nat.eqb st Re.caps]. done.
  - intros m Hm. case_bool_decide as Hn; [|done].
    exists n0, (drop n0 line). split; [apply span_signs|]. split; [done|].
    destruct (drop n0 line) as [|c [|c' r'']]; try (by rewrite Hrun in Hm).
    destruct (is_space c) eqn:Ec; [|by rewrite Hrun in Hm].
    by exists c, (c' :: r'').
Qed.

(** X20.  Which lines [_parse_content] takes for headings.  A line, which
    holds no newline, matches [HEADING_PATTERN] exactly when it is made of
    one to six number signs, a whitespace character and at least one more
    character.  Group 1 is then the number signs, so the level is their
    number, and the heading text, group 2 stripped, is what follows the
    number signs, stripped: it is empty when only whitespace follows. *)
Theorem heading_lines (line : pystr) :
  10%N ∉ line →
  (∀ n r, heading_shape line n r →
     ∃ m, Re.rmatch MarkdownParser.HEADING_PATTERN line = Some m ∧
          Re.group 1 m = replicate n 35%N ∧
          strip (Re.group 2 m) = strip r) ∧
  (∀ m, Re.rmatch MarkdownParser.HEADING_PATTERN line = Some m →
     ∃ n r, heading_shape line n r).
Proof. apply heading_match_shape. Qed.

Lemma heading_lines_witness :
  (10%N ∉ lit "##  Setup ") ∧
  (∃ m, Re.rmatch MarkdownParser.HEADING_PATTERN (lit "##  Setup ") = Some m ∧
        Re.group 1 m = lit "##" ∧ strip (Re.group 2 m) = lit "Setup").
Proof.
  assert (Hnl : 10%N ∉ lit "##  Setup ").
  { intros H. repeat (apply elem_of_cons in H as [H|H]; [discriminate H|]).
    by apply elem_of_nil in H. }
  split; [exact Hnl|].
  destruct (proj1 (heading_lines (lit "##  Setup ") Hnl) 2%nat (lit "  Setup "))
    as (m & Hm & H1 & H2).
  - split; [reflexivity|]. split; [lia|].
    exists 32%N, (lit " Setup "). by repeat split.
  - exists m. split; [exact Hm|]. split; [exact H1|]. rewrite H2.
    vm_compute. reflexivity.
Defined.

(** ** The sections of a Markdown document *)

Lemma split_char_no_sep c (s : pystr) : Forall (λ l, c ∉ l) (split_char c s).
Proof.
  induction s as [|x s IH]; simpl.
  - repeat constructor. apply not_elem_of_nil.
  - destruct (N.eqb_spec x c) as [->|Hx].
    + constructor; [apply not_elem_of_nil|done].
    + destruct (split_char c s) as [|w ws]; constructor.
      * apply not_elem_of_cons. split; [done|apply not_elem_of_nil].
      * constructor.
      * apply Forall_cons in IH as [Hw _]. apply not_elem_of_cons. by split.
      * by apply Forall_cons in IH as [_ ?].
Qed.

Lemma nonempty_ne {X} (l : list X) : nonempty l = true → l ≠ [].
Proof. by destruct l. Qed.

Section MarkdownSections.
Context (U : Re.UnicodeDB).

Lemma detect_content_type_cases c :
  MarkdownParser._detect_content_type U c = TABLE ∨
  MarkdownParser._detect_content_type U c = LIST ∨
  MarkdownParser._detect_content_type U c = TEXT.
Proof.
  unfold MarkdownParser._detect_content_type. repeat case_bool_decide; auto.
Qed.

Lemma text_section_shape c heading level h :
  under_heading heading level h → strip c = c → c ≠ [] →
  markdown_section
    (MarkdownParser.new_section c (MarkdownParser._detect_content_type U c)
       heading level h None).
Proof.
  intros Hh Hc Hne. unfold markdown_section. cbn.
  split; [done|]. split; [done|]. split; [done|].
  destruct (detect_content_type_cases c) as [-> |[-> | ->]]; done.
Qed.

Lemma create_sections_shape c heading level h code_blocks :
  under_heading heading level h → strip c = c →
  Forall markdown_section
    (MarkdownParser._create_sections_from_content U c heading level h code_blocks).
Proof.
  intros Hh. revert c.
  induction code_blocks as [|[p [lang code]] cbs IH]; intros c Hc;
    cbn [MarkdownParser._create_sections_from_content].
  - rewrite Hc. destruct (nonempty c) eqn:E; [|constructor].
    constructor; [|constructor].
    apply text_section_shape; [done..|by apply nonempty_ne].
  - destruct (contains p c); [|by apply IH].
    apply Forall_app. split.
    + destruct (nonempty _) eqn:E; [|constructor]. constructor; [|constructor].
      apply text_section_shape; [done|apply strip_idem|by apply nonempty_ne].
    + constructor.
      * unfold markdown_section. cbn.
        split; [done|]. split; [done|]. split; [done|].
        split; [apply strip_idem|]. by destruct lang.
      * apply IH. destruct (_ !! 1%nat); [apply strip_idem|done].
Qed.

Lemma parse_lines_shape code_blocks lines h cur heading level :
  Forall (λ l, 10%N ∉ l) lines → under_heading heading level h →
  Forall markdown_section
    (MarkdownParser._parse_lines U code_blocks lines h cur heading level).
Proof.
  intros Hl. revert h cur heading level.
  induction Hl as [|line lines Hline _ IH]; intros h cur heading level Hh;
    cbn [MarkdownParser._parse_lines].
  - destruct (nonempty cur); [|constructor].
    destruct (nonempty _); [|constructor].
    apply create_sections_shape; [done|apply strip_idem].
  - destruct (Re.rmatch MarkdownParser.HEADING_PATTERN line) as [m|] eqn:Hm;
      [|by apply IH].
    destruct (heading_match_shape line Hline) as [Hto Hfrom].
    destruct (Hfrom m Hm) as (n & r & Hs).
    destruct (Hto n r Hs) as (m' & Hm' & Hg1 & Hg2).
    rewrite Hm in Hm'. injection Hm' as <-.
    rewrite Hg1, Hg2, length_replicate.
    assert (Hn : (1 ≤ n ≤ 6)%nat) by apply Hs.
    assert (Hh' : under_heading (Some (strip r)) (Some (Z.of_nat n))
                    (MarkdownParser.update_hierarchy (Z.of_nat n) (strip r) h)).
    { rewrite update_hierarchy_take. cbn. split; [lia|]. split.
      - apply last_snoc.
      - rewrite length_app, length_take. simpl. lia. }
    apply Forall_app. split.
    + destruct (_ || _); [|constructor].
      destruct (_ || _); [|constructor].
      apply create_sections_shape; [done|apply strip_idem].
    + constructor; [|by apply IH].
      unfold markdown_section. cbn.
      split; [done|]. split; [done|]. split; [done|].
      split; [done|]. split; [done|]. by exists n, r.
Qed.

(** X21.  The sections that the Markdown parser returns.  A section made
    before the first heading has no heading text, no level and an empty
    hierarchy; every other section has the text and the level of a heading,
    the level is between 1 and 6, and its hierarchy ends with that text and
    is not deeper than the level.  A heading section is a heading line, its
    level the number of the number signs.  The content of a section of
    text, list or table is stripped and not empty; the content of a code
    block is stripped, and may be empty.  No section has metadata or a page
    number. *)
Theorem markdown_sections content filename :
  Forall markdown_section
    (sections (MarkdownParser._parse_content U content filename)).
Proof.
  unfold MarkdownParser._parse_content. cbn [sections].
  apply parse_lines_shape; [apply split_char_no_sep|done].
Qed.

End MarkdownSections.

(** ** The names of the table extractor *)

Lemma run_Bol_start multiline (s : pystr) k :
  Re.run (Re.Bol multiline)
    {| Re.pos := 0; Re.prev := None; Re.rest := s; Re.caps := [] |} k
  = k {| Re.pos := 0; Re.prev := None; Re.rest := s; Re.caps := [] |}.
Proof. reflexivity. Qed.

Section ValidName.
Context (U : Re.UnicodeDB).

Lemma is_word_not_newline c : Re.is_word U c = true → c ≠ 10%N.
Proof. by intros Hc ->. Qed.

(** A run of word characters up to the end of the string, where [$] also
    stands before a last newline. *)
Lemma match_word_line (name : pystr) :
  let n := ReSpec.span (Re.is_word U) name in
  Re.rmatch (Re.cats [Re.Bol false; Re.plus (TableExtractor.word U); Re.Eol false])
    name
  = None
  ↔ ¬ ((1 ≤ n)%nat ∧ (drop n name = [] ∨ drop n name = [10%N])).
Proof.
  intros n. unfold Re.rmatch, Re.match_at.
  rewrite run_cats_cons, run_Bol_start, run_cats_cons.
  unfold Re.plus, TableExtractor.word. rewrite run_rep_chr.
  cbn [ReSpec.cap Re.rest]. fold n.
  set (f := λ c : nat, Re.run _ _ Some).
  assert (Hf : ∀ c, f c = match drop c name with
                          | [] => f c
                          | x :: rest' =>
                              if (x =? 10)%N && negb (nonempty rest')
                              then f c else None
                          end ∧
                    (drop c name = [] ∨ drop c name = [10%N] → is_Some (f c))).
  { intros c. unfold f. rewrite run_cats_cons.
    cbn [Re.run ReSpec.after Re.rest orb].
    destruct (drop c name) as [|x [|y rest']] eqn:Hd.
    - split; [done|]. intros _. by eexists.
    - destruct (N.eqb_spec x 10) as [->|Hx]; cbn [andb nonempty negb].
      + split; [done|]. intros _. by eexists.
      + split; [done|]. intros [|[= ?]]; done.
    - rewrite andb_false_r. split; [done|]. intros [|]; done. }
  assert (Hlow : ∀ c, (c < n)%nat → f c = None).
  { intros c Hc. destruct (Hf c) as [-> _].
    pose proof (span_take (Re.is_word U) name) as Ht. fold n in Ht.
    assert (Hx : ∃ x, name !! c = Some x ∧ Re.is_word U x = true).
    { destruct (lookup_lt_is_Some_2 (take n name) c) as [x Hx].
      - rewrite length_take. pose proof (span_le (Re.is_word U) name). lia.
      - exists x. split.
        + by rewrite lookup_take_lt in Hx by done.
        + by apply (proj1 (Forall_lookup _ _) Ht c x). }
    destruct Hx as (x & Hx & Hw).
    rewrite (drop_S _ _ _ Hx).
    destruct (N.eqb_spec x 10) as [->|]; [|done].
    by apply is_word_not_newline in Hw. }
  assert (Hrun : ReSpec.try_down f 1 n = None
                 ↔ ¬ ((1 ≤ n)%nat ∧ (drop n name = [] ∨ drop n name = [10%N]))).
  { split.
    - intros Hnone [Hn Hd]. destruct (proj2 (Hf n) Hd) as [st Hst].
      by rewrite (try_down_top f 1 n st Hn Hst) in Hnone.
    - intros Hno. apply try_down_None. intros c Hc.
      destruct (decide (c = n)) as [->|]; [|apply Hlow; lia].
      destruct (Hf n) as [-> _].
      destruct (drop n name) as [|x [|y rest']] eqn:Hd.
      + destruct Hno. split; [lia|by left].
      + destruct (N.eqb_spec x 10) as [->|]; [|done].
        destruct Hno. split; [lia|by right].
      + by rewrite andb_false_r. }
  destruct (ReSpec.try_down f 1 n) as [st|] eqn:E.
  - split; [done|]. intros Hno. by apply Hrun in Hno.
  - split; [|done]. intros _. by apply Hrun.
Qed.

Lemma word_run_shape (name : pystr) :
  let n := ReSpec.span (Re.is_word U) name in
  ((1 ≤ n)%nat ∧ (drop n name = [] ∨ drop n name = [10%N]))
  ↔ ∃ w, w ≠ [] ∧ Forall (λ c, Re.is_word U c = true) w ∧
         (name = w ∨ name = w ++ [10%N]).
Proof.
  intros n. split.
  - intros [Hn Hd]. exists (take n name).
    split; [|split; [apply span_take|]].
    + intros Ht. apply (f_equal length) in Ht. rewrite length_take in Ht.
      pose proof (span_le (Re.is_word U) name). fold n in H. simpl in Ht. lia.
    + rewrite <- (take_drop n name) at 1 3.
      destruct Hd as [-> | ->]; [left; by rewrite app_nil_r|by right].
  - intros (w & Hne & Hw & Hname).
    assert (Hn : n = length w).
    { unfold n. destruct Hname as [-> | ->].
      - by apply span_all.
      - rewrite span_app by done. simpl. lia. }
    rewrite Hn. split.
    + destruct w; [done|simpl; lia].
    + destruct Hname as [-> | ->].
      * left. apply drop_all.
      * right. by rewrite drop_app_length.
Qed.

(** X22.  [_is_valid_table_name] accepts a name exactly when it is a run of
    one or more word characters, alone or followed by one newline, which
    the end-of-string anchor lets through, and its lower-case form is not
    one of the seventeen listed words.  The empty name is refused. *)
Theorem valid_table_name (name : pystr) :
  TableExtractor._is_valid_table_name U name = true
  ↔ (∃ w, w ≠ [] ∧ Forall (λ c, Re.is_word U c = true) w ∧
          (name = w ∨ name = w ++ [10%N])) ∧
    Re.lower U name ∉ TableExtractor.invalid_names.
Proof.
  unfold TableExtractor._is_valid_table_name.
  rewrite <- word_run_shape.
  pose proof (match_word_line name) as Hm. cbv zeta in Hm.
  destruct (Re.rmatch _ name) as [m|].
  - rewrite negb_true_iff, bool_decide_eq_false. split.
    + intros Hl. split; [|done].
      destruct (decide ((1 ≤ ReSpec.span (Re.is_word U) name)%nat ∧
                        (drop (ReSpec.span (Re.is_word U) name) name = [] ∨
                         drop (ReSpec.span (Re.is_word U) name) name = [10%N])))
        as [?|Hno]; [done|].
      by apply Hm in Hno.
    + by intros [_ ?].
  - split; [done|]. intros [Hw _]. by destruct (proj1 Hm eq_refl).
Qed.

End ValidName.

(** ** Sorted names *)

Lemma str_lt_irrefl a : TableExtractor.str_lt a a = false.
Proof.
  induction a as [|x a IH]; [done|]. simpl.
  rewrite N.ltb_irrefl, N.eqb_refl, IH. done.
Qed.

Lemma str_lt_trans a b c :
  TableExtractor.str_lt a b = true → TableExtractor.str_lt b c = true →
  TableExtractor.str_lt a c = true.
Proof.
  revert b c. induction a as [|x a IH]; intros [|y b] [|z c]; simpl; try done.
  intros H1 H2.
  apply orb_true_iff in H1 as [H1|H1]; apply orb_true_iff in H2 as [H2|H2];
    apply orb_true_iff.
  - left. apply N.ltb_lt in H1, H2. apply N.ltb_lt. lia.
  - apply andb_true_iff in H2 as [H2 _]. apply N.eqb_eq in H2 as <-. by left.
  - apply andb_true_iff in H1 as [H1 _]. apply N.eqb_eq in H1 as ->. by left.
  - apply andb_true_iff in H1 as [H1 H1'], H2 as [H2 H2'].
    apply N.eqb_eq in H1 as ->, H2 as ->. right.
    rewrite N.eqb_refl. simpl. by eapply IH.
Qed.

Lemma str_lt_total a b :
  a ≠ b → TableExtractor.str_lt a b = false → TableExtractor.str_lt b a = true.
Proof.
  revert b. induction a as [|x a IH]; intros [|y b]; simpl; try done.
  intros Hne H. apply orb_false_iff in H as [H1 H2].
  apply N.ltb_ge in H1. apply orb_true_iff.
  destruct (N.eqb_spec x y) as [->|Hxy].
  - right. rewrite N.eqb_refl. simpl. simpl in H2. apply IH; [|done].
    intros ->. by destruct Hne.
  - left. apply N.ltb_lt. lia.
Qed.

Lemma insert_sorted_elem x y xs :
  y ∈ TableExtractor.insert_sorted x xs ↔ y = x ∨ y ∈ xs.
Proof.
  induction xs as [|z xs IH]; simpl.
  - rewrite list_elem_of_singleton. split; [by left|]. intros [|H]; [done|].
    by apply elem_of_nil in H.
  - case_bool_decide as E.
    + subst z. split; [by right|]. intros [->|]; [by left|done].
    + destruct (TableExtractor.str_lt x z).
      * by rewrite elem_of_cons.
      * rewrite !elem_of_cons, IH. tauto.
Qed.

Lemma insert_sorted_sorted x xs :
  StronglySorted (λ a b, TableExtractor.str_lt a b = true) xs →
  StronglySorted (λ a b, TableExtractor.str_lt a b = true)
    (TableExtractor.insert_sorted x xs).
Proof.
  induction 1 as [|z xs Hs IH Hz]; simpl.
  - by repeat constructor.
  - case_bool_decide as E; [by constructor|].
    destruct (TableExtractor.str_lt x z) eqn:Hxz.
    + constructor; [by constructor|]. constructor; [done|].
      eapply Forall_impl; [exact Hz|]. intros b Hb. by eapply str_lt_trans.
    + constructor; [done|]. apply Forall_forall. intros b Hb.
      apply insert_sorted_elem in Hb as [->|Hb].
      * by apply str_lt_total.
      * by apply (proj1 (Forall_forall _ _) Hz).
Qed.

Lemma sorted_set_elem x names :
  x ∈ TableExtractor.sorted_set names ↔ x ∈ names.
Proof.
  unfold TableExtractor.sorted_set. induction names as [|y names IH]; simpl.
  - done.
  - rewrite insert_sorted_elem, elem_of_cons, IH. done.
Qed.

Lemma sorted_set_sorted names :
  StronglySorted (λ a b, TableExtractor.str_lt a b = true)
    (TableExtractor.sorted_set names).
Proof.
  unfold TableExtractor.sorted_set. induction names as [|y names IH]; simpl.
  - constructor.
  - by apply insert_sorted_sorted.
Qed.

Lemma strictly_sorted_NoDup (l : list pystr) :
  StronglySorted (λ a b, TableExtractor.str_lt a b = true) l → NoDup l.
Proof.
  induction 1 as [|x l Hs IH Hx]; constructor; [|done].
  intros Hin. pose proof (proj1 (Forall_forall _ _) Hx x Hin) as H.
  cbv beta in H. by rewrite str_lt_irrefl in H.
Qed.

(** X23.  The table names of [extract_from_text] are in increasing order,
    so none is listed twice.  A name is listed exactly when it is the
    lower-case form of the name found by one of the four name patterns and
    [_is_valid_table_name] accepts it, or the lower-case form of the name
    of a [CREATE TABLE] statement with its parenthesis: the names of the
    latter are listed without being checked. *)
Theorem table_names_sorted (U : Re.UnicodeDB) (text : pystr) :
  let names := TableExtractor.table_names (TableExtractor.extract_from_text U text) in
  StronglySorted (λ a b, TableExtractor.str_lt a b = true) names ∧
  NoDup names ∧
  ∀ x, x ∈ names
       ↔ (∃ pattern m,
            pattern ∈ TableExtractor.TABLE_NAME_PATTERNS U ∧
            m ∈ Re.finditer pattern text ∧ x = Re.lower U (Re.group 1 m) ∧
            TableExtractor._is_valid_table_name U x = true) ∨
         (∃ m, m ∈ Re.finditer (TableExtractor.create_table_pattern U) text ∧
               x = Re.lower U (Re.group 1 m)).
Proof.
  intros names. unfold names, TableExtractor.extract_from_text.
  cbn [TableExtractor.table_names].
  split; [apply sorted_set_sorted|].
  split; [apply strictly_sorted_NoDup, sorted_set_sorted|].
  intros x. rewrite sorted_set_elem, elem_of_app.
  apply Morphisms_Prop.or_iff_morphism.
  - rewrite list_elem_of_In, in_flat_map. split.
    + intros (pattern & Hp & Hx). apply in_flat_map in Hx as (m & Hm & Hx).
      exists pattern, m. rewrite !list_elem_of_In.
      destruct (TableExtractor._is_valid_table_name U _) eqn:E; [|done].
      destruct Hx as [<-|[]]. done.
    + intros (pattern & m & Hp & Hm & -> & Hv).
      exists pattern. rewrite <- list_elem_of_In. split; [done|].
      apply in_flat_map. exists m. rewrite <- list_elem_of_In. split; [done|].
      rewrite Hv. by left.
  - rewrite list_elem_of_fmap. split.
    + intros (m & -> & Hm). by exists m.
    + intros (m & Hm & ->). by exists m.
Qed.

